(** * linkedlist.c: a double-ended singly-linked list with a removing iterator

    A shallow embedding of [linkedlist.c] / [linkedlist.h].  The C code works
    on heap-allocated structs reached through pointers, so the embedding is a
    state-and-error monad over an explicit memory:

    - a pointer is an integer address, [NULL] is address 0;
    - the memory maps live addresses to typed objects ([LinkedList] structs,
      [ListNode] structs, [void*] arrays, opaque value blocks);
    - [malloc] hands out addresses that were never used before, [free]
      retires an address, and every access to [NULL] or to a retired address
      is undefined behaviour ([UB]);
    - [while] loops over an iterator take a fuel argument and answer
      [Timeout] when it runs out; [for] loops with a known bound recurse on
      that bound.

    Iterators and closures ([Predicate], [Function], [Consumer]) are held by
    value: each is reached through a single pointer that nothing else
    aliases, so its [malloc] and [free] are not observable by the list.  The
    functions that are handed a closure free it before they return
    ([l_removeIf], [l_deleteIf], [l_findFirst], [l_findLast], [l_matches],
    [l_map], [l_dmap], [i_forEachRemaining]); that free is not represented
    either: the block of a closure is no object of the modelled memory.  The
    [LinkedList] struct itself lives in memory, because iterators keep a
    pointer to it and mutate it.

    Further conventions:
    - the elements are opaque [void*] handles; a predicate is a function of
      the element and of the closure's [params], both pointers;
    - [int] is 32 bits wide and signed overflow is undefined behaviour;
    - a local declared without initialiser holds an indeterminate value;
    - a parameter whose address is taken ([&value]) is a memory object of its
      own while the function runs;
    - a destructor other than the file's own is known by an identifier only,
      and a call of it is recorded in a trace;
    - the [char] buffer of [l_toString] is a block of the memory; the string
      in it is passed along as a value, with the number of bytes allocated. *)

From stdpp Require Import gmap list strings.
From Stdlib Require Import ZArith Lia.

Local Open Scope Z_scope.

(** ** Pointers, integers and structs *)

Abbreviation ptr := Z (only parsing).

Definition NULL : ptr := 0.

(** [int] is taken to be the usual 32-bit signed integer.  Signed overflow
    is undefined behaviour in C. *)
Definition INT_MAX : Z := 2147483647.
Definition INT_MIN : Z := -2147483648.

Definition in_int (z : Z) : bool := (INT_MIN <=? z) && (z <=? INT_MAX).

(** [void ( *destructor )(void* )]: a function pointer.  It is either the
    address of the file's own static [destructor] or of some function of the
    caller, known here only by an identifier. *)
Inductive funptr :=
| Fdestructor
| Fextern (id : Z).

Module ListNode.
Record t := mk { value : ptr; next : ptr }.
End ListNode.

Module LinkedList.
Record t := mk { head : ptr; tail : ptr; destructor : funptr; size : Z }.
Definition with_head (v : ptr) (L : t) : t := mk v (tail L) (destructor L) (size L).
Definition with_tail (v : ptr) (L : t) : t := mk (head L) v (destructor L) (size L).
Definition with_destructor (f : funptr) (L : t) : t := mk (head L) (tail L) f (size L).
Definition with_size (z : Z) (L : t) : t := mk (head L) (tail L) (destructor L) z.
End LinkedList.

Module Iterator.
Record t := mk { previous : ptr; current : ptr; next : ptr; list : ptr; index : Z }.
End Iterator.

Module Predicate.
Record t := mk { func : ptr -> ptr -> bool; params : ptr }.
End Predicate.

(** A [void*] local that is declared without an initialiser holds an
    indeterminate value until it is assigned. *)
Inductive local :=
| Indeterminate
| Value (v : ptr).

(** ** Memory *)

Inductive obj :=
| OList (L : LinkedList.t)
| ONode (n : ListNode.t)
| OArray (a : list (option ptr))
| OBlock.

(** A call of a destructor that is not the file's own is recorded. *)
Inductive event :=
| Ecall (id : Z) (arg : ptr).

Record mem := Mem { heap : gmap Z obj; brk : Z; trace : list event }.

(** The memory before anything is allocated; the first free address is
    arbitrary, as long as it is not [NULL]. *)
Definition initial_mem : mem := Mem ∅ 1000 [].

Inductive res (A : Type) :=
| Ok (a : A) (m : mem)
| UB
| Timeout.
Arguments Ok {A} a m.
Arguments UB {A}.
Arguments Timeout {A}.

Definition M (A : Type) : Type := mem -> res A.

Definition ret {A} (a : A) : M A := fun m => Ok a m.

Definition bind {A B} (c : M A) (k : A -> M B) : M B :=
  fun m => match c m with
           | Ok a m' => k a m'
           | UB => UB
           | Timeout => Timeout
           end.

Definition ub {A} : M A := fun _ => UB.
Definition timeout {A} : M A := fun _ => Timeout.

Notation "x <- c ;; k" := (bind c (fun x => k))
  (at level 100, c at next level, right associativity).
Notation "'let*' p := c 'in' k" := (bind c (fun x => let 'p := x in k))
  (at level 10, p pattern, c at level 200, k at level 200).
Notation "c ;; k" := (bind c (fun _ => k))
  (at level 100, right associativity).

(** The result of an [int] computation, or [UB] on overflow. *)
Definition int (z : Z) : M Z := if in_int z then ret z else ub.

(** [malloc]: a fresh address, never [NULL], never handed out before. *)
Definition malloc (o : obj) : M ptr :=
  fun m => Ok (brk m) (Mem (<[brk m := o]> (heap m)) (brk m + 1) (trace m)).

(** [free(p)]: nothing for [NULL], otherwise [p] must be live. *)
Definition free (p : ptr) : M unit :=
  fun m => if p =? NULL then Ok tt m
           else match heap m !! p with
                | Some _ => Ok tt (Mem (delete p (heap m)) (brk m) (trace m))
                | None => UB
                end.

Definition load (p : ptr) : M obj :=
  fun m => if p =? NULL then UB
           else match heap m !! p with
                | Some o => Ok o m
                | None => UB
                end.

Definition store (p : ptr) (o : obj) : M unit :=
  fun m => if p =? NULL then UB
           else match heap m !! p with
                | Some _ => Ok tt (Mem (<[p := o]> (heap m)) (brk m) (trace m))
                | None => UB
                end.

Definition log (e : event) : M unit :=
  fun m => Ok tt (Mem (heap m) (brk m) (trace m ++ [e])).

Definition list_at (p : ptr) : M LinkedList.t :=
  o <- load p ;; match o with OList L => ret L | _ => ub end.

Definition node_at (p : ptr) : M ListNode.t :=
  o <- load p ;; match o with ONode n => ret n | _ => ub end.

Definition array_at (p : ptr) : M (list (option ptr)) :=
  o <- load p ;; match o with OArray a => ret a | _ => ub end.

(** Field reads [p->f] and writes [p->f = v]. *)
Definition get_head (l : ptr) : M ptr := L <- list_at l ;; ret (LinkedList.head L).
Definition get_tail (l : ptr) : M ptr := L <- list_at l ;; ret (LinkedList.tail L).
Definition get_destructor (l : ptr) : M funptr :=
  L <- list_at l ;; ret (LinkedList.destructor L).
Definition get_size (l : ptr) : M Z := L <- list_at l ;; ret (LinkedList.size L).

Definition set_head (l v : ptr) : M unit :=
  L <- list_at l ;; store l (OList (LinkedList.with_head v L)).
Definition set_tail (l v : ptr) : M unit :=
  L <- list_at l ;; store l (OList (LinkedList.with_tail v L)).
Definition set_destructor (l : ptr) (f : funptr) : M unit :=
  L <- list_at l ;; store l (OList (LinkedList.with_destructor f L)).
Definition set_size (l : ptr) (z : Z) : M unit :=
  L <- list_at l ;; store l (OList (LinkedList.with_size z L)).

Definition get_value (n : ptr) : M ptr := N <- node_at n ;; ret (ListNode.value N).
Definition get_next (n : ptr) : M ptr := N <- node_at n ;; ret (ListNode.next N).

Definition set_value (n v : ptr) : M unit :=
  N <- node_at n ;; store n (ONode (ListNode.mk v (ListNode.next N))).
Definition set_next (n v : ptr) : M unit :=
  N <- node_at n ;; store n (ONode (ListNode.mk (ListNode.value N) v)).

(** [array[i]] as a read and as a write.  Reading a cell that was never
    written, or any access outside the array, is undefined. *)
Definition array_get (a : ptr) (i : Z) : M ptr :=
  cells <- array_at a ;;
  if i <? 0 then ub
  else match cells !! Z.to_nat i with
       | Some (Some v) => ret v
       | _ => ub
       end.

Definition array_set (a : ptr) (i : Z) (v : ptr) : M unit :=
  cells <- array_at a ;;
  if (0 <=? i) && (i <? Z.of_nat (length cells))
  then store a (OArray (<[Z.to_nat i := Some v]> cells))
  else ub.

(** [list->size++] and [list->size--]. *)
Definition incr_size (l : ptr) : M unit :=
  s <- get_size l ;; s' <- int (s + 1) ;; set_size l s'.
Definition decr_size (l : ptr) : M unit :=
  s <- get_size l ;; s' <- int (s - 1) ;; set_size l s'.

(** ** Destructors, predicates *)

(** [static void destructor(void* value)]: the default destructor. *)
Definition destructor (value : ptr) : M unit :=
  if negb (value =? NULL) then free value else ret tt.

(** A call through a destructor pointer, [( *f )(arg)]. *)
Definition call (f : funptr) (arg : ptr) : M unit :=
  match f with
  | Fdestructor => destructor arg
  | Fextern id => log (Ecall id arg)
  end.

(** [static bool equality(void* element, void* reference)]. *)
Definition equality (element reference : ptr) : bool := element =? reference.

Definition c_predicate (func : ptr -> ptr -> bool) (params : ptr) : Predicate.t :=
  Predicate.mk func params.

(** A parameter whose address is taken ([&value]) is an object of its own
    for the duration of the call: one [void*] cell, at an address distinct
    from that of every other live object. *)
Definition addressable (v : ptr) : M ptr := malloc (OArray [Some v]).

(** ** Construction and insertion *)

(** [l_create]: a new struct with [head = tail = NULL], [size = 0] and the
    default destructor. *)
Definition l_create : M ptr :=
  malloc (OList (LinkedList.mk NULL NULL Fdestructor 0)).

(** [node = malloc(sizeof(ListNode)); node->value = value;] with [next] as
    the content of the [next] field.  Every caller assigns [node->next]
    before anything reads it. *)
Definition new_node (value next : ptr) : M ptr :=
  malloc (ONode (ListNode.mk value next)).

(** [l_addFirst]: on an empty list the node also becomes the tail. *)
Definition l_addFirst (list value : ptr) : M unit :=
  node <- new_node value NULL ;;
  s <- get_size list ;;
  (if s =? 0
   then set_tail list node ;; set_next node NULL
   else ret tt) ;;
  h <- get_head list ;;
  set_next node h ;;
  set_head list node ;;
  incr_size list.

(** [l_addLast]: the old tail, if any, is pointed at the node; on an empty
    list the node also becomes the head. *)
Definition l_addLast (list value : ptr) : M unit :=
  node <- new_node value NULL ;;
  s <- get_size list ;;
  (if negb (s =? 0)
   then t <- get_tail list ;; set_next t node
   else set_head list node) ;;
  set_tail list node ;;
  incr_size list.

(** [for (i = 0; i < n; i++) tracker = tracker->next;] *)
Fixpoint follow (n : nat) (tracker : ptr) : M ptr :=
  match n with
  | O => ret tracker
  | S n' => nx <- get_next tracker ;; follow n' nx
  end.

(** [l_add]: the three branches of the source, in their order; no branch is
    taken for an index below 0 or above the size. *)
Definition l_add (list value : ptr) (index : Z) : M unit :=
  if index =? 0 then l_addFirst list value
  else
    s <- get_size list ;;
    if index =? s then l_addLast list value
    else if (0 <? index) && (index <? s) then
      tracker <- get_head list ;;
      bound <- int (index - 1) ;;
      tracker <- follow (Z.to_nat bound) tracker ;;
      nx <- get_next tracker ;;
      new <- new_node value nx ;;
      set_next tracker new ;;
      incr_size list
    else ret tt.

(** ** Positional removal *)

(** [l_removeFirst], [l_removeLast] and [l_remove] declare [void* value;]
    without initialiser, assign it only on the paths that remove a node, and
    return it on every path. *)
Definition l_removeFirst (list : ptr) : M local :=
  s <- get_size list ;;
  if negb (s =? 0) then
    h <- get_head list ;;
    value <- get_value h ;;
    old <- get_head list ;;
    nx <- get_next old ;;
    set_head list nx ;;
    free old ;;
    s1 <- get_size list ;;
    (if s1 =? 1 then set_tail list NULL else ret tt) ;;
    decr_size list ;;
    ret (Value value)
  else ret Indeterminate.

Definition l_removeLast (list : ptr) : M local :=
  s <- get_size list ;;
  if negb (s =? 0) then
    t <- get_tail list ;;
    value <- get_value t ;;
    free t ;;
    s1 <- get_size list ;;
    (if s1 =? 1
     then set_head list NULL ;; set_tail list NULL
     else
       tracker <- get_head list ;;
       bound <- int (s1 - 2) ;;
       tracker <- follow (Z.to_nat bound) tracker ;;
       set_next tracker NULL ;;
       set_tail list tracker) ;;
    decr_size list ;;
    ret (Value value)
  else ret Indeterminate.

Definition l_remove (list : ptr) (index : Z) : M local :=
  if index =? 0 then l_removeFirst list
  else
    s <- get_size list ;;
    last <- int (s - 1) ;;
    if index =? last then l_removeLast list
    else if (0 <? index) && (index <? last) then
      tracker <- get_head list ;;
      bound <- int (index - 1) ;;
      tracker <- follow (Z.to_nat bound) tracker ;;
      old <- get_next tracker ;;
      value <- get_value old ;;
      nx <- get_next old ;;
      set_next tracker nx ;;
      free old ;;
      decr_size list ;;
      ret (Value value)
    else ret Indeterminate.

(** ** Iterators *)

(** [l_iterator]: [next] is the head, [current] and [previous] are null,
    the index is -1. *)
Definition l_iterator (list : ptr) : M Iterator.t :=
  h <- get_head list ;;
  ret (Iterator.mk NULL NULL h list (-1)).

Definition i_hasNext (itr : Iterator.t) : bool :=
  negb (Iterator.next itr =? NULL).

(** [i_next]: [previous] follows [current] only when [current] is not null,
    that is, when the element returned last was not removed. *)
Definition i_next (itr : Iterator.t) : M (ptr * Iterator.t) :=
  if negb (Iterator.next itr =? NULL) then
    let previous := if negb (Iterator.current itr =? NULL)
                    then Iterator.current itr
                    else Iterator.previous itr in
    let current := Iterator.next itr in
    nx <- get_next (Iterator.next itr) ;;
    value <- get_value current ;;
    index <- int (Iterator.index itr + 1) ;;
    ret (value, Iterator.mk previous current nx (Iterator.list itr) index)
  else ret (NULL, itr).

(** [i_remove]: [itr->previous->next = itr->next; free(itr->current);
    itr->current = NULL; itr->list->size--;] and nothing else. *)
Definition i_remove (itr : Iterator.t) : M (ptr * Iterator.t) :=
  if negb (Iterator.current itr =? NULL) then
    value <- get_value (Iterator.current itr) ;;
    set_next (Iterator.previous itr) (Iterator.next itr) ;;
    free (Iterator.current itr) ;;
    decr_size (Iterator.list itr) ;;
    ret (value, Iterator.mk (Iterator.previous itr) NULL (Iterator.next itr)
                            (Iterator.list itr) (Iterator.index itr))
  else ret (NULL, itr).

(** [i_delete]: [( *itr->list->destructor )(i_remove(itr));] *)
Definition i_delete (itr : Iterator.t) : M Iterator.t :=
  let* (value, itr') := i_remove itr in
  d <- get_destructor (Iterator.list itr') ;;
  call d value ;;
  ret itr'.

(** ** Removal by predicate *)

Fixpoint l_removeIf_loop (fuel : nat) (selector : Predicate.t) (itr : Iterator.t)
  : M Iterator.t :=
  match fuel with
  | O => timeout
  | S fuel' =>
    if i_hasNext itr then
      let* (value, itr1) := i_next itr in
      if Predicate.func selector value (Predicate.params selector) then
        let* (_, itr2) := i_remove itr1 in
        l_removeIf_loop fuel' selector itr2
      else l_removeIf_loop fuel' selector itr1
    else ret itr
  end.

Definition l_removeIf (fuel : nat) (list : ptr) (selector : Predicate.t) : M unit :=
  itr <- l_iterator list ;;
  l_removeIf_loop fuel selector itr ;;
  ret tt.

(** [l_removeValue]: [l_removeIf(list, c_predicate(&equality, &value));]
    the closure's [params] is the address of the parameter [value]. *)
Definition l_removeValue (fuel : nat) (list value : ptr) : M unit :=
  value_addr <- addressable value ;;
  l_removeIf fuel list (c_predicate equality value_addr) ;;
  free value_addr.

(** ** Search *)

(** The loops of [l_findFirst] and [l_findLast] also return the iterator as
    they leave it, to tell how far the scan went. *)
Fixpoint l_findFirst_loop (fuel : nat) (selector : Predicate.t) (itr : Iterator.t)
    (index : Z) : M (Z * Iterator.t) :=
  match fuel with
  | O => timeout
  | S fuel' =>
    if i_hasNext itr && (index =? -1) then
      let* (value, itr1) := i_next itr in
      if Predicate.func selector value (Predicate.params selector)
      then l_findFirst_loop fuel' selector itr1 (Iterator.index itr1)
      else l_findFirst_loop fuel' selector itr1 index
    else ret (index, itr)
  end.

Definition l_findFirst (fuel : nat) (list : ptr) (selector : Predicate.t) : M Z :=
  itr <- l_iterator list ;;
  let* (index, _) := l_findFirst_loop fuel selector itr (-1) in
  ret index.

Fixpoint l_findLast_loop (fuel : nat) (selector : Predicate.t) (itr : Iterator.t)
    (index : Z) : M (Z * Iterator.t) :=
  match fuel with
  | O => timeout
  | S fuel' =>
    if i_hasNext itr then
      let* (value, itr1) := i_next itr in
      if Predicate.func selector value (Predicate.params selector)
      then l_findLast_loop fuel' selector itr1 (Iterator.index itr1)
      else l_findLast_loop fuel' selector itr1 index
    else ret (index, itr)
  end.

Definition l_findLast (fuel : nat) (list : ptr) (selector : Predicate.t) : M Z :=
  itr <- l_iterator list ;;
  let* (index, _) := l_findLast_loop fuel selector itr (-1) in
  ret index.

(** [l_firstIndexOf]: [l_findFirst(list, c_predicate(&equality, &value));] *)
Definition l_firstIndexOf (fuel : nat) (list value : ptr) : M Z :=
  value_addr <- addressable value ;;
  index <- l_findFirst fuel list (c_predicate equality value_addr) ;;
  free value_addr ;;
  ret index.

Fixpoint l_matches_loop (fuel : nat) (selector : Predicate.t) (itr : Iterator.t)
    (contains : bool) : M bool :=
  match fuel with
  | O => timeout
  | S fuel' =>
    if i_hasNext itr && negb contains then
      let* (value, itr1) := i_next itr in
      l_matches_loop fuel' selector itr1
        (contains || Predicate.func selector value (Predicate.params selector))
    else ret contains
  end.

Definition l_matches (fuel : nat) (list : ptr) (selector : Predicate.t) : M bool :=
  itr <- l_iterator list ;;
  l_matches_loop fuel selector itr false.

(** [l_contains]: [l_matches(list, c_predicate(&equality, &value));] *)
Definition l_contains (fuel : nat) (list value : ptr) : M bool :=
  value_addr <- addressable value ;;
  contains <- l_matches fuel list (c_predicate equality value_addr) ;;
  free value_addr ;;
  ret contains.

(** ** Equality and arrays *)

Fixpoint l_equal_loop (fuel : nat) (itr1 itr2 : Iterator.t) (equal : bool) : M bool :=
  match fuel with
  | O => timeout
  | S fuel' =>
    if i_hasNext itr1 && i_hasNext itr2 && equal then
      let* (v1, itr1') := i_next itr1 in
      let* (v2, itr2') := i_next itr2 in
      l_equal_loop fuel' itr1' itr2' (equal && (v1 =? v2))
    else ret equal
  end.

Definition l_equal (fuel : nat) (list1 list2 : ptr) : M bool :=
  s1 <- get_size list1 ;;
  s2 <- get_size list2 ;;
  itr1 <- l_iterator list1 ;;
  itr2 <- l_iterator list2 ;;
  l_equal_loop fuel itr1 itr2 (s1 =? s2).

(** [for (i = 0; i < size; i++) l_addLast(list, array[i]);] with [n] rounds
    left, the counter at [i]. *)
Fixpoint l_addArray_loop (n : nat) (list array : ptr) (i : Z) : M unit :=
  match n with
  | O => ret tt
  | S n' =>
    v <- array_get array i ;;
    l_addLast list v ;;
    l_addArray_loop n' list array (i + 1)
  end.

Definition l_addArray (list array : ptr) (size : Z) : M unit :=
  l_addArray_loop (Z.to_nat size) list array 0.

Definition l_fromArray (array : ptr) (size : Z) : M ptr :=
  list <- l_create ;;
  l_addArray list array size ;;
  ret list.

Fixpoint l_toArray_loop (fuel : nat) (array : ptr) (itr : Iterator.t) (i : Z) : M unit :=
  match fuel with
  | O => timeout
  | S fuel' =>
    if i_hasNext itr then
      let* (value, itr1) := i_next itr in
      array_set array i value ;;
      l_toArray_loop fuel' array itr1 (i + 1)
    else ret tt
  end.

(** [l_toArray]: an array of [size] cells, none of them written yet, filled
    from the front while the iterator has elements. *)
Definition l_toArray (fuel : nat) (list : ptr) : M ptr :=
  itr <- l_iterator list ;;
  s <- get_size list ;;
  array <- malloc (OArray (replicate (Z.to_nat s) None)) ;;
  l_toArray_loop fuel array itr 0 ;;
  ret array.

(** ** What a well-formed list looks like in memory *)

(** [chain h p ns vs q]: starting at [p] and following [next], the memory
    holds the nodes at addresses [ns], carrying the values [vs], and the
    last of them points at [q]. *)
Fixpoint chain (h : gmap Z obj) (p : ptr) (ns vs : list ptr) (q : ptr) : Prop :=
  match ns, vs with
  | [], [] => p = q
  | n :: ns', v :: vs' =>
    p = n /\ n <> NULL /\
    exists nx, h !! n = Some (ONode (ListNode.mk v nx)) /\ chain h nx ns' vs' q
  | _, _ => False
  end.

(** Every live address lies strictly between [NULL] and the next address
    [malloc] will hand out. *)
Definition valid_mem (m : mem) : Prop :=
  0 < brk m /\ forall p, is_Some (heap m !! p) -> 0 < p < brk m.

(** [is_list m l ns vs]: at address [l] there is a [LinkedList] whose nodes
    are [ns], in order, carrying the values [vs]. *)
Definition is_list (m : mem) (l : ptr) (ns vs : list ptr) : Prop :=
  l <> NULL /\
  exists L, heap m !! l = Some (OList L) /\
    chain (heap m) (LinkedList.head L) ns vs NULL /\
    NoDup ns /\
    LinkedList.tail L = List.last ns NULL /\
    LinkedList.size L = Z.of_nat (length vs) /\
    LinkedList.size L <= INT_MAX.

(** The node reached from [p] after following [next] [n] times. *)
Fixpoint nth_next (h : gmap Z obj) (n : nat) (p : ptr) : option ptr :=
  match n with
  | O => Some p
  | S n' =>
    if p =? NULL then None
    else match h !! p with
         | Some (ONode N) => nth_next h n' (ListNode.next N)
         | _ => None
         end
  end.

(** The structural invariant: [head] is none iff [tail] is none iff the size
    is 0, and following [next] from [head] visits exactly [size] nodes, the
    last of which is [tail], and then reaches none. *)
Definition invariant (m : mem) (l : ptr) : Prop :=
  exists L, heap m !! l = Some (OList L) /\
    (LinkedList.head L = NULL <-> LinkedList.tail L = NULL) /\
    (LinkedList.tail L = NULL <-> LinkedList.size L = 0) /\
    0 <= LinkedList.size L /\
    (LinkedList.size L <> 0 ->
     nth_next (heap m) (Z.to_nat (LinkedList.size L - 1)) (LinkedList.head L)
       = Some (LinkedList.tail L)) /\
    nth_next (heap m) (Z.to_nat (LinkedList.size L)) (LinkedList.head L) = Some NULL.

(** ** Client programs used as test inputs *)

(** [l_addLast(l, v)] for each [v] in turn. *)
Fixpoint add_each (l : ptr) (vs : list ptr) : M unit :=
  match vs with
  | [] => ret tt
  | v :: vs' => l_addLast l v ;; add_each l vs'
  end.

(** [l = l_create(); l_addLast(l, v1); ...; l_addLast(l, vn);] *)
Definition list_of (vs : list ptr) : M ptr :=
  l <- l_create ;; add_each l vs ;; ret l.

(** [n] calls of [i_next]. *)
Fixpoint advance (n : nat) (itr : Iterator.t) : M Iterator.t :=
  match n with
  | O => ret itr
  | S n' => let* (_, itr') := i_next itr in advance n' itr'
  end.

(** A list of the given values and an iterator on it that has been advanced
    [n] times. *)
Definition list_and_iterator (vs : list ptr) (n : nat) : M (ptr * Iterator.t) :=
  l <- list_of vs ;;
  itr <- l_iterator l ;;
  itr' <- advance n itr ;;
  ret (l, itr').

(** A predicate that accepts every element. *)
Definition always : Predicate.t := c_predicate (fun _ _ => true) NULL.

(** A new iterator on the list, then [i_next], [i_remove] and [i_remove]
    again; the result is what the second [i_remove] returned and the list's
    size after it. *)
Definition next_remove_remove (list : ptr) : M (ptr * Z) :=
  itr <- l_iterator list ;;
  let* (_, itr1) := i_next itr in
  let* (_, itr2) := i_remove itr1 in
  let* (value, _) := i_remove itr2 in
  size <- get_size list ;;
  ret (value, size).

(** The memory holding the list [[1; 2]] at address 1000. *)
Definition mem_1_2 : mem :=
  Mem (list_to_map
         [(1000, OList (LinkedList.mk 1001 1002 Fdestructor 2));
          (1001, ONode (ListNode.mk 1 1002));
          (1002, ONode (ListNode.mk 2 NULL))])
      1003 [].

(** The memory holding the list [[1; 2; 2; 3; 2]] at address 1000. *)
Definition mem_1_2_2_3_2 : mem :=
  Mem (list_to_map
         [(1000, OList (LinkedList.mk 1001 1005 Fdestructor 5));
          (1001, ONode (ListNode.mk 1 1002));
          (1002, ONode (ListNode.mk 2 1003));
          (1003, ONode (ListNode.mk 2 1004));
          (1004, ONode (ListNode.mk 3 1005));
          (1005, ONode (ListNode.mk 2 NULL))])
      1006 [].

(** The memory after the node holding 2 was removed from [[1; 2]] through an
    iterator: the node at 1002 is gone, the list's tail still names it. *)
Definition mem_1_stale_tail : mem :=
  Mem (list_to_map
         [(1000, OList (LinkedList.mk 1001 1002 Fdestructor 1));
          (1001, ONode (ListNode.mk 1 NULL))])
      1003 [].

(** The memory holding an empty list at address 1000. *)
Definition mem_empty_list : mem :=
  Mem {[ 1000 := OList (LinkedList.mk NULL NULL Fdestructor 0) ]} 1001 [].

(** The memory holding the list [[5]] at address 1000, with a destructor
    supplied by the caller. *)
Definition mem_5_extern : mem :=
  Mem (list_to_map
         [(1000, OList (LinkedList.mk 1001 1001 (Fextern 7) 1));
          (1001, ONode (ListNode.mk 5 NULL))])
      1002 [].

(** The memory after every 2 was removed from [[1; 2; 2; 3; 2]] by
    [l_removeIf]: the nodes holding 1 and 3 remain. *)
Definition mem_1_3 : mem :=
  Mem (list_to_map
         [(1000, OList (LinkedList.mk 1001 1005 Fdestructor 2));
          (1001, ONode (ListNode.mk 1 1004));
          (1004, ONode (ListNode.mk 3 NULL))])
      1006 [].

(** ** Auxiliary notions for the proofs *)

(** What a predicate answers on an element: [( *selector->func )(v, selector->params)]. *)
Definition accepts (selector : Predicate.t) (v : ptr) : bool :=
  Predicate.func selector v (Predicate.params selector).

(** Pairwise identity of two sequences, up to the end of the shorter one. *)
Fixpoint same_prefix (vs1 vs2 : list ptr) : bool :=
  match vs1, vs2 with
  | v1 :: vs1', v2 :: vs2' => (v1 =? v2) && same_prefix vs1' vs2'
  | _, _ => true
  end.

(** The memory holding the list [[1002; 1004]] at address 1000, whose
    elements are the addresses of two value blocks owned by the caller. *)
Definition mem_two_blocks : mem :=
  Mem (list_to_map
         [(1000, OList (LinkedList.mk 1001 1003 Fdestructor 2));
          (1001, ONode (ListNode.mk 1002 1003));
          (1002, OBlock);
          (1003, ONode (ListNode.mk 1004 NULL));
          (1004, OBlock)])
      1005 [].

(** ** The rest of the list's operations *)

(** A mapping function computes a pointer from the element and the closure's
    [params]; like a predicate, it is taken not to touch the memory. *)
Module Function.
Record t := mk { func : ptr -> ptr -> ptr; params : ptr }.
End Function.

(** A consumer returns nothing: all it does is its effect on the memory. *)
Module Consumer.
Record t := mk { func : ptr -> ptr -> M unit; params : ptr }.
End Consumer.

Definition c_function (func : ptr -> ptr -> ptr) (params : ptr) : Function.t :=
  Function.mk func params.


(** [l_getLast]: [value] starts as [NULL]. *)
Definition l_getLast (list : ptr) : M ptr :=
  s <- get_size list ;;
  if negb (s =? 0) then
    t <- get_tail list ;;
    get_value t
  else ret NULL.

(** [l_get]: the last index goes to [l_getLast]; the other valid indices walk
    from the head; [value] starts as [NULL]. *)
Definition l_get (list : ptr) (index : Z) : M ptr :=
  s <- get_size list ;;
  last <- int (s - 1) ;;
  if index =? last then l_getLast list
  else if (0 <=? index) && (index <? last) then
    tracker <- get_head list ;;
    tracker <- follow (Z.to_nat index) tracker ;;
    get_value tracker
  else ret NULL.

Definition l_getFirst (list : ptr) : M ptr := l_get list 0.

(** [l_setLast]: [oldValue] starts as [NULL]. *)
Definition l_setLast (list value : ptr) : M ptr :=
  s <- get_size list ;;
  if negb (s =? 0) then
    t <- get_tail list ;;
    oldValue <- get_value t ;;
    t' <- get_tail list ;;
    set_value t' value ;;
    ret oldValue
  else ret NULL.

Definition l_set (list value : ptr) (index : Z) : M ptr :=
  s <- get_size list ;;
  last <- int (s - 1) ;;
  if index =? last then l_setLast list value
  else if (0 <=? index) && (index <? last) then
    tracker <- get_head list ;;
    tracker <- follow (Z.to_nat index) tracker ;;
    oldValue <- get_value tracker ;;
    set_value tracker value ;;
    ret oldValue
  else ret NULL.

Definition l_setFirst (list value : ptr) : M ptr := l_set list value 0.

(** [l_addAll]: [while (i_hasNext(itr)) l_addLast(dest, i_next(itr));] *)
Fixpoint l_addAll_loop (fuel : nat) (dest : ptr) (itr : Iterator.t) : M unit :=
  match fuel with
  | O => timeout
  | S fuel' =>
    if i_hasNext itr then
      let* (value, itr1) := i_next itr in
      l_addLast dest value ;;
      l_addAll_loop fuel' dest itr1
    else ret tt
  end.

Definition l_addAll (fuel : nat) (dest src : ptr) : M unit :=
  itr <- l_iterator src ;;
  l_addAll_loop fuel dest itr.

(** [l_copy]: a new list, the elements of the original appended one by one,
    then the original's destructor. *)
Fixpoint l_copy_loop (fuel : nat) (copy : ptr) (itr : Iterator.t) : M unit :=
  match fuel with
  | O => timeout
  | S fuel' =>
    if i_hasNext itr then
      let* (value, itr1) := i_next itr in
      l_addLast copy value ;;
      l_copy_loop fuel' copy itr1
    else ret tt
  end.

Definition l_copy (fuel : nat) (original : ptr) : M ptr :=
  copy <- l_create ;;
  itr <- l_iterator original ;;
  l_copy_loop fuel copy itr ;;
  d <- get_destructor original ;;
  set_destructor copy d ;;
  ret copy.

(** [l_removeAll]: every node is freed, following [next] from the head until
    [NULL]; then [head], [tail] and [size] are reset. *)
Fixpoint l_removeAll_loop (fuel : nat) (tracker : ptr) : M unit :=
  match fuel with
  | O => timeout
  | S fuel' =>
    if negb (tracker =? NULL) then
      next <- get_next tracker ;;
      free tracker ;;
      l_removeAll_loop fuel' next
    else ret tt
  end.

Definition l_removeAll (fuel : nat) (list : ptr) : M unit :=
  tracker <- get_head list ;;
  l_removeAll_loop fuel tracker ;;
  set_head list NULL ;;
  set_tail list NULL ;;
  set_size list 0.

Definition l_clear (fuel : nat) (list : ptr) : M unit :=
  l_removeAll fuel list ;;
  free list.

(** [l_deleteAll]: the destructor on every element, then [l_removeAll]. *)
Fixpoint l_deleteAll_loop (fuel : nat) (list : ptr) (itr : Iterator.t) : M unit :=
  match fuel with
  | O => timeout
  | S fuel' =>
    if i_hasNext itr then
      let* (value, itr1) := i_next itr in
      d <- get_destructor list ;;
      call d value ;;
      l_deleteAll_loop fuel' list itr1
    else ret tt
  end.

Definition l_deleteAll (fuel : nat) (list : ptr) : M unit :=
  itr <- l_iterator list ;;
  l_deleteAll_loop fuel list itr ;;
  l_removeAll fuel list.

Definition l_destroy (fuel : nat) (list : ptr) : M unit :=
  l_deleteAll fuel list ;;
  free list.

(** [l_deleteFirst], [l_deleteLast], [l_delete]: the destructor on the
    element, then the removal; nothing on an empty list or outside the
    range. *)
Definition l_deleteFirst (list : ptr) : M unit :=
  s <- get_size list ;;
  if negb (s =? 0) then
    d <- get_destructor list ;;
    h <- get_head list ;;
    v <- get_value h ;;
    call d v ;;
    l_removeFirst list ;;
    ret tt
  else ret tt.

Definition l_deleteLast (list : ptr) : M unit :=
  s <- get_size list ;;
  if negb (s =? 0) then
    d <- get_destructor list ;;
    t <- get_tail list ;;
    v <- get_value t ;;
    call d v ;;
    l_removeLast list ;;
    ret tt
  else ret tt.

Definition l_delete (list : ptr) (index : Z) : M unit :=
  s <- get_size list ;;
  if (0 <=? index) && (index <? s) then
    d <- get_destructor list ;;
    v <- l_get list index ;;
    call d v ;;
    l_remove list index ;;
    ret tt
  else ret tt.

(** [l_deleteIf]: as [l_removeIf], with [i_delete] for [i_remove]. *)
Fixpoint l_deleteIf_loop (fuel : nat) (selector : Predicate.t) (itr : Iterator.t)
  : M Iterator.t :=
  match fuel with
  | O => timeout
  | S fuel' =>
    if i_hasNext itr then
      let* (value, itr1) := i_next itr in
      if Predicate.func selector value (Predicate.params selector) then
        itr2 <- i_delete itr1 ;;
        l_deleteIf_loop fuel' selector itr2
      else l_deleteIf_loop fuel' selector itr1
    else ret itr
  end.

Definition l_deleteIf (fuel : nat) (list : ptr) (selector : Predicate.t) : M unit :=
  itr <- l_iterator list ;;
  l_deleteIf_loop fuel selector itr ;;
  ret tt.

Definition l_deleteValue (fuel : nat) (list value : ptr) : M unit :=
  value_addr <- addressable value ;;
  l_deleteIf fuel list (c_predicate equality value_addr) ;;
  free value_addr.

(** [l_lastIndexOf]: [l_findLast(list, c_predicate(&equality, &value));] *)
Definition l_lastIndexOf (fuel : nat) (list value : ptr) : M Z :=
  value_addr <- addressable value ;;
  index <- l_findLast fuel list (c_predicate equality value_addr) ;;
  free value_addr ;;
  ret index.





(** [l_dmap]: as [l_map], with the destructor on the value that is still in
    the node, before it is overwritten. *)
Fixpoint l_dmap_loop (fuel : nat) (list : ptr) (mapper : Function.t) (itr : Iterator.t)
  : M unit :=
  match fuel with
  | O => timeout
  | S fuel' =>
    if i_hasNext itr then
      let* (element, itr1) := i_next itr in
      let value := Function.func mapper element (Function.params mapper) in
      d <- get_destructor list ;;
      old <- get_value (Iterator.current itr1) ;;
      call d old ;;
      set_value (Iterator.current itr1) value ;;
      l_dmap_loop fuel' list mapper itr1
    else ret tt
  end.

Definition l_dmap (fuel : nat) (list : ptr) (mapper : Function.t) : M unit :=
  itr <- l_iterator list ;;
  l_dmap_loop fuel list mapper itr.

(** The memory without the objects at the given addresses. *)
Definition without (ns : list ptr) (h : gmap Z obj) : gmap Z obj :=
  foldl (fun h n => delete n h) h ns.

(** What a mapping function returns on an element:
    [( *mapper->func )(v, mapper->params)]. *)
Definition image (mapper : Function.t) (v : ptr) : ptr :=
  Function.func mapper v (Function.params mapper).


(** The elements the default destructor frees: those that are not null. *)
Definition blocks (vs : list ptr) : list ptr :=
  List.filter (fun v => negb (v =? NULL)) vs.

(** ** The string form of a list *)

(** [l_toString] builds its result in a [char] buffer that it allocates and
    returns.  The buffer is a block of the heap; the string it holds, that
    is the characters before the terminator, is passed along as a value,
    next to the number of bytes that were allocated. *)

(** [strcpy(dest, src)] into a buffer of [bytes] bytes: the characters and
    the terminator have to fit. *)
Definition strcpy (bytes : Z) (src : string) : M string :=
  if Z.of_nat (String.length src) + 1 <=? bytes then ret src else ub.

(** [strcat(dest, src)], likewise. *)
Definition strcat (bytes : Z) (dest src : string) : M string :=
  if Z.of_nat (String.length dest) + Z.of_nat (String.length src) + 1 <=? bytes
  then ret (dest +:+ src)
  else ub.

(** [( *stringFunction )(value)]: a string of the caller's making, in a block
    that [l_toString] frees after use. *)
Definition call_stringFunction (stringFunction : ptr -> string) (value : ptr)
  : M (ptr * string) :=
  element <- malloc OBlock ;;
  ret (element, stringFunction value).

Fixpoint l_toString_loop (fuel : nat) (list : ptr) (stringFunction : ptr -> string)
    (bytes : Z) (itr : Iterator.t) (string : string) : M String.string :=
  match fuel with
  | O => timeout
  | S fuel' =>
    if i_hasNext itr then
      let* (value, itr1) := i_next itr in
      let* (element, chars) := call_stringFunction stringFunction value in
      string1 <- strcat bytes string chars ;;
      free element ;;
      s <- get_size list ;;
      last <- int (s - 1) ;;
      string2 <- (if negb (Iterator.index itr1 =? last)
                  then strcat bytes string1 ", "
                  else ret string1) ;;
      l_toString_loop fuel' list stringFunction bytes itr1 string2
    else ret string
  end.

(** [l_toString]: [size * (length + 2) + 1] bytes for the brackets, the
    elements and the separators. *)
Definition l_toString (fuel : nat) (list : ptr) (stringFunction : ptr -> string)
    (length : Z) : M (ptr * string) :=
  s <- get_size list ;;
  width <- int (length + 2) ;;
  product <- int (s * width) ;;
  bytes <- int (product + 1) ;;
  buffer <- malloc OBlock ;;
  itr <- l_iterator list ;;
  string <- strcpy bytes "[" ;;
  string <- l_toString_loop fuel list stringFunction bytes itr string ;;
  string <- strcat bytes string "]" ;;
  ret (buffer, string).


(** ** More example memories *)

(** The memory holding the list [[5; 6; 7]] at address 1000, with a
    destructor supplied by the caller. *)
Definition mem_5_6_7_extern : mem :=
  Mem (list_to_map
         [(1000, OList (LinkedList.mk 1001 1003 (Fextern 7) 3));
          (1001, ONode (ListNode.mk 5 1002));
          (1002, ONode (ListNode.mk 6 1003));
          (1003, ONode (ListNode.mk 7 NULL))])
      1004 [].

(** The memory holding the lists [[1; 2]] at address 1000 and [[3; 4]] at
    address 1003. *)
Definition mem_two_lists : mem :=
  Mem (list_to_map
         [(1000, OList (LinkedList.mk 1001 1002 Fdestructor 2));
          (1001, ONode (ListNode.mk 1 1002));
          (1002, ONode (ListNode.mk 2 NULL));
          (1003, OList (LinkedList.mk 1004 1005 Fdestructor 2));
          (1004, ONode (ListNode.mk 3 1005));
          (1005, ONode (ListNode.mk 4 NULL))])
      1006 [].

(** The memory holding the list [[1; 2]] at address 1000 and an array with
    the cells 8 and 9 at address 1003. *)
Definition mem_list_and_array : mem :=
  Mem (list_to_map
         [(1000, OList (LinkedList.mk 1001 1002 Fdestructor 2));
          (1001, ONode (ListNode.mk 1 1002));
          (1002, ONode (ListNode.mk 2 NULL));
          (1003, OArray [Some 8; Some 9])])
      1004 [].


(** A mapping function that adds its [params] to the element. *)
Definition shift : Function.t := c_function (fun value params => value + params) 10.


(** A string function that knows two names. *)
Definition name_of (value : ptr) : string :=
  if value =? 1 then "one" else "other".

(** * Properties *)

(** ** Running the monad *)

Lemma bind_ok {A B} (c : M A) (k : A -> M B) m a m' :
  c m = Ok a m' -> bind c k m = k a m'.
Proof. intros H. unfold bind. now rewrite H. Qed.

Lemma bind_inv {A B} (c : M A) (k : A -> M B) m b m2 :
  bind c k m = Ok b m2 -> exists a m1, c m = Ok a m1 /\ k a m1 = Ok b m2.
Proof.
  unfold bind. destruct (c m) as [a m1| |]; try discriminate.
  intros H. now exists a, m1.
Qed.

Lemma bind_assoc {A B C} (c : M A) (k1 : A -> M B) (k2 : B -> M C) m :
  bind (bind c k1) k2 m = bind c (fun x => bind (k1 x) k2) m.
Proof. unfold bind. now destruct (c m). Qed.

Lemma bind_ret {A B} (a : A) (k : A -> M B) m : bind (ret a) k m = k a m.
Proof. reflexivity. Qed.

Lemma eqb_NULL p : p <> NULL -> (p =? NULL) = false.
Proof. intros H. now apply Z.eqb_neq. Qed.

Lemma int_ok z : INT_MIN <= z <= INT_MAX -> forall m, int z m = Ok z m.
Proof.
  intros [H1 H2] m. unfold int, in_int.
  now rewrite (proj2 (Z.leb_le _ _) H1), (proj2 (Z.leb_le _ _) H2).
Qed.

Lemma malloc_ok o m :
  malloc o m = Ok (brk m) (Mem (<[brk m := o]> (heap m)) (brk m + 1) (trace m)).
Proof. reflexivity. Qed.

Lemma free_ok p o m :
  p <> NULL -> heap m !! p = Some o ->
  free p m = Ok tt (Mem (delete p (heap m)) (brk m) (trace m)).
Proof. intros Hp Hl. unfold free. now rewrite (eqb_NULL _ Hp), Hl. Qed.

Lemma load_ok p o m : p <> NULL -> heap m !! p = Some o -> load p m = Ok o m.
Proof. intros Hp Hl. unfold load. now rewrite (eqb_NULL _ Hp), Hl. Qed.

Lemma store_ok p o o' m :
  p <> NULL -> heap m !! p = Some o ->
  store p o' m = Ok tt (Mem (<[p := o']> (heap m)) (brk m) (trace m)).
Proof. intros Hp Hl. unfold store. now rewrite (eqb_NULL _ Hp), Hl. Qed.

Lemma list_at_ok l L m :
  l <> NULL -> heap m !! l = Some (OList L) -> list_at l m = Ok L m.
Proof. intros Hp Hl. unfold list_at. now rewrite (bind_ok _ _ _ _ _ (load_ok _ _ _ Hp Hl)). Qed.

Lemma node_at_ok n N m :
  n <> NULL -> heap m !! n = Some (ONode N) -> node_at n m = Ok N m.
Proof. intros Hp Hl. unfold node_at. now rewrite (bind_ok _ _ _ _ _ (load_ok _ _ _ Hp Hl)). Qed.

Lemma array_at_ok a cells m :
  a <> NULL -> heap m !! a = Some (OArray cells) -> array_at a m = Ok cells m.
Proof. intros Hp Hl. unfold array_at. now rewrite (bind_ok _ _ _ _ _ (load_ok _ _ _ Hp Hl)). Qed.

Lemma get_head_ok l L m :
  l <> NULL -> heap m !! l = Some (OList L) -> get_head l m = Ok (LinkedList.head L) m.
Proof. intros Hp Hl. unfold get_head. now rewrite (bind_ok _ _ _ _ _ (list_at_ok _ _ _ Hp Hl)). Qed.

Lemma get_tail_ok l L m :
  l <> NULL -> heap m !! l = Some (OList L) -> get_tail l m = Ok (LinkedList.tail L) m.
Proof. intros Hp Hl. unfold get_tail. now rewrite (bind_ok _ _ _ _ _ (list_at_ok _ _ _ Hp Hl)). Qed.

Lemma get_size_ok l L m :
  l <> NULL -> heap m !! l = Some (OList L) -> get_size l m = Ok (LinkedList.size L) m.
Proof. intros Hp Hl. unfold get_size. now rewrite (bind_ok _ _ _ _ _ (list_at_ok _ _ _ Hp Hl)). Qed.

Lemma get_destructor_ok l L m :
  l <> NULL -> heap m !! l = Some (OList L) ->
  get_destructor l m = Ok (LinkedList.destructor L) m.
Proof.
  intros Hp Hl. unfold get_destructor.
  now rewrite (bind_ok _ _ _ _ _ (list_at_ok _ _ _ Hp Hl)).
Qed.

Lemma set_head_ok l L v m :
  l <> NULL -> heap m !! l = Some (OList L) ->
  set_head l v m
  = Ok tt (Mem (<[l := OList (LinkedList.with_head v L)]> (heap m)) (brk m) (trace m)).
Proof.
  intros Hp Hl. unfold set_head.
  rewrite (bind_ok _ _ _ _ _ (list_at_ok _ _ _ Hp Hl)). now apply store_ok with (OList L).
Qed.

Lemma set_tail_ok l L v m :
  l <> NULL -> heap m !! l = Some (OList L) ->
  set_tail l v m
  = Ok tt (Mem (<[l := OList (LinkedList.with_tail v L)]> (heap m)) (brk m) (trace m)).
Proof.
  intros Hp Hl. unfold set_tail.
  rewrite (bind_ok _ _ _ _ _ (list_at_ok _ _ _ Hp Hl)). now apply store_ok with (OList L).
Qed.

Lemma set_size_ok l L z m :
  l <> NULL -> heap m !! l = Some (OList L) ->
  set_size l z m
  = Ok tt (Mem (<[l := OList (LinkedList.with_size z L)]> (heap m)) (brk m) (trace m)).
Proof.
  intros Hp Hl. unfold set_size.
  rewrite (bind_ok _ _ _ _ _ (list_at_ok _ _ _ Hp Hl)). now apply store_ok with (OList L).
Qed.

Lemma get_value_ok n N m :
  n <> NULL -> heap m !! n = Some (ONode N) -> get_value n m = Ok (ListNode.value N) m.
Proof.
  intros Hp Hl. unfold get_value.
  now rewrite (bind_ok _ _ _ _ _ (node_at_ok _ _ _ Hp Hl)).
Qed.

Lemma get_next_ok n N m :
  n <> NULL -> heap m !! n = Some (ONode N) -> get_next n m = Ok (ListNode.next N) m.
Proof. intros Hp Hl. unfold get_next. now rewrite (bind_ok _ _ _ _ _ (node_at_ok _ _ _ Hp Hl)). Qed.

Lemma set_next_ok n N v m :
  n <> NULL -> heap m !! n = Some (ONode N) ->
  set_next n v m
  = Ok tt (Mem (<[n := ONode (ListNode.mk (ListNode.value N) v)]> (heap m)) (brk m) (trace m)).
Proof.
  intros Hp Hl. unfold set_next.
  rewrite (bind_ok _ _ _ _ _ (node_at_ok _ _ _ Hp Hl)). now apply store_ok with (ONode N).
Qed.

(** [set_next] on [NULL] is undefined, whatever the memory. *)
Lemma set_next_NULL v m : set_next NULL v m = UB.
Proof. reflexivity. Qed.

Lemma incr_size_ok l L m :
  l <> NULL -> heap m !! l = Some (OList L) ->
  INT_MIN <= LinkedList.size L + 1 <= INT_MAX ->
  incr_size l m
  = Ok tt (Mem (<[l := OList (LinkedList.with_size (LinkedList.size L + 1) L)]> (heap m))
               (brk m) (trace m)).
Proof.
  intros Hp Hl Hr. unfold incr_size.
  rewrite (bind_ok _ _ _ _ _ (get_size_ok _ _ _ Hp Hl)).
  rewrite (bind_ok _ _ _ _ _ (int_ok _ Hr _)).
  now apply set_size_ok.
Qed.

Lemma decr_size_ok l L m :
  l <> NULL -> heap m !! l = Some (OList L) ->
  INT_MIN <= LinkedList.size L - 1 <= INT_MAX ->
  decr_size l m
  = Ok tt (Mem (<[l := OList (LinkedList.with_size (LinkedList.size L - 1) L)]> (heap m))
               (brk m) (trace m)).
Proof.
  intros Hp Hl Hr. unfold decr_size.
  rewrite (bind_ok _ _ _ _ _ (get_size_ok _ _ _ Hp Hl)).
  rewrite (bind_ok _ _ _ _ _ (int_ok _ Hr _)).
  now apply set_size_ok.
Qed.

Lemma array_set_ok a cells i v m :
  a <> NULL -> heap m !! a = Some (OArray cells) ->
  0 <= i < Z.of_nat (length cells) ->
  array_set a i v m
  = Ok tt (Mem (<[a := OArray (<[Z.to_nat i := Some v]> cells)]> (heap m)) (brk m) (trace m)).
Proof.
  intros Ha Hh [Hi1 Hi2]. unfold array_set.
  rewrite (bind_ok _ _ _ _ _ (array_at_ok _ _ _ Ha Hh)).
  rewrite (proj2 (Z.leb_le _ _) Hi1), (proj2 (Z.ltb_lt _ _) Hi2). cbn [andb].
  now apply store_ok with (OArray cells).
Qed.

Lemma array_get_ok a cells i v m :
  a <> NULL -> heap m !! a = Some (OArray cells) ->
  0 <= i -> cells !! Z.to_nat i = Some (Some v) ->
  array_get a i m = Ok v m.
Proof.
  intros Ha Hh Hi Hc. unfold array_get.
  rewrite (bind_ok _ _ _ _ _ (array_at_ok _ _ _ Ha Hh)).
  destruct (Z.ltb_spec i 0); [lia|]. now rewrite Hc.
Qed.

(** Symbolic execution: [step] runs the first primitive of a computation,
    looking up what it needs in the hypotheses. *)
Ltac simpl_fields :=
  unfold LinkedList.with_head, LinkedList.with_tail, LinkedList.with_size,
    LinkedList.with_destructor in *;
  cbn [heap brk trace
       LinkedList.head LinkedList.tail LinkedList.destructor LinkedList.size
       LinkedList.with_head LinkedList.with_tail LinkedList.with_size
       LinkedList.with_destructor
       ListNode.value ListNode.next
       Iterator.previous Iterator.current Iterator.next Iterator.list Iterator.index] in *.

Ltac solve_lookup :=
  simpl_fields;
  repeat (rewrite lookup_insert_ne by congruence);
  first [ apply lookup_insert_eq | eassumption ].

Ltac solve_side :=
  first [ assumption | congruence | solve_lookup
        | unfold INT_MIN, INT_MAX in *; lia ].

Ltac step_by lem := erewrite bind_ok; [ | eapply lem; solve_side ].

Ltac step :=
  rewrite ?bind_assoc;
  lazymatch goal with
  | |- bind (ret _) _ _ = _ => rewrite bind_ret
  | |- bind (malloc _) _ _ = _ => rewrite (bind_ok _ _ _ _ _ (malloc_ok _ _))
  | |- bind (get_size _) _ _ = _ => step_by get_size_ok
  | |- bind (get_head _) _ _ = _ => step_by get_head_ok
  | |- bind (get_tail _) _ _ = _ => step_by get_tail_ok
  | |- bind (get_value _) _ _ = _ => step_by get_value_ok
  | |- bind (get_next _) _ _ = _ => step_by get_next_ok
  | |- bind (set_head _ _) _ _ = _ => step_by set_head_ok
  | |- bind (set_tail _ _) _ _ = _ => step_by set_tail_ok
  | |- bind (set_size _ _) _ _ = _ => step_by set_size_ok
  | |- bind (set_next _ _) _ _ = _ => step_by set_next_ok
  | |- bind (int _) _ _ = _ => step_by int_ok
  end;
  simpl_fields.

(** ** Valid memories *)

Lemma valid_mem_fresh m p : valid_mem m -> is_Some (heap m !! p) -> p <> brk m.
Proof. intros [_ Hv] Hp. specialize (Hv p Hp). lia. Qed.

Lemma valid_mem_brk m : valid_mem m -> brk m <> NULL.
Proof. intros [Hb _]. unfold NULL. lia. Qed.

Lemma valid_mem_malloc m o :
  valid_mem m -> valid_mem (Mem (<[brk m := o]> (heap m)) (brk m + 1) (trace m)).
Proof.
  intros [Hb Hv]. split; cbn [heap brk]; [lia|].
  intros p Hp. rewrite lookup_insert in Hp. case_decide as Hd.
  - subst p. lia.
  - specialize (Hv p Hp). lia.
Qed.

Lemma valid_mem_store h b t p o :
  valid_mem (Mem h b t) -> is_Some (h !! p) -> valid_mem (Mem (<[p := o]> h) b t).
Proof.
  intros [Hb Hv] Hlive. split; cbn [heap brk] in *; [lia|].
  intros q Hq. rewrite lookup_insert in Hq. case_decide as Hd.
  - subst q. now apply Hv.
  - now apply Hv.
Qed.

Lemma valid_mem_initial : valid_mem initial_mem.
Proof. split; [reflexivity|]. intros p [o Hp]. cbn in Hp. now rewrite lookup_empty in Hp. Qed.

Lemma valid_mem_free h b t p :
  valid_mem (Mem h b t) -> valid_mem (Mem (delete p h) b t).
Proof.
  intros [Hb Hv]. split; cbn [heap brk] in *; [lia|].
  intros q Hq. apply Hv. rewrite lookup_delete in Hq. case_decide; [|exact Hq].
  destruct Hq as [o Ho]. discriminate.
Qed.

(** ** Chains of nodes *)

Lemma chain_nil_inv h p ns q : chain h p ns [] q -> ns = [] /\ p = q.
Proof. destruct ns; cbn; intuition. Qed.

Lemma chain_no_nodes_inv h p vs q : chain h p [] vs q -> vs = [] /\ p = q.
Proof. destruct vs; cbn; intuition. Qed.

Lemma chain_cons_inv h p ns v vs q :
  chain h p ns (v :: vs) q ->
  exists ns' nx, ns = p :: ns' /\ p <> NULL /\
    h !! p = Some (ONode (ListNode.mk v nx)) /\ chain h nx ns' vs q.
Proof.
  destruct ns as [|n ns']; cbn; [tauto|].
  intros (-> & Hn & nx & Hh & Hc). now exists ns', nx.
Qed.

Lemma chain_length h p ns vs q : chain h p ns vs q -> length ns = length vs.
Proof.
  revert p vs. induction ns as [|n ns IH]; intros p [|v vs]; cbn; try tauto.
  intros (_ & _ & nx & _ & Hc). f_equal. eauto.
Qed.

Lemma chain_frame h h' p ns vs q :
  chain h p ns vs q -> (forall n, n ∈ ns -> h' !! n = h !! n) -> chain h' p ns vs q.
Proof.
  revert p vs. induction ns as [|n ns IH]; intros p [|v vs]; cbn; try tauto.
  intros (-> & Hn & nx & Hh & Hc) Hsame. repeat split; auto.
  exists nx. split.
  - rewrite Hsame; [exact Hh | apply elem_of_cons; now left].
  - apply IH; auto. intros n' Hn'. apply Hsame. apply elem_of_cons. now right.
Qed.

Lemma chain_live h p ns vs q n : chain h p ns vs q -> n ∈ ns -> is_Some (h !! n).
Proof.
  revert p vs. induction ns as [|n' ns IH]; intros p [|v vs]; cbn; try tauto.
  - intros _ Hn. inversion Hn.
  - intros (-> & _ & nx & Hh & Hc) Hn.
    apply elem_of_cons in Hn as [->|Hn]; [eauto | eapply IH; eauto].
Qed.

Lemma chain_node h p ns vs q n :
  chain h p ns vs q -> n ∈ ns -> exists N, h !! n = Some (ONode N).
Proof.
  revert p vs. induction ns as [|n' ns IH]; intros p [|v vs]; cbn; try tauto.
  - intros _ Hn. inversion Hn.
  - intros (-> & _ & nx & Hh & Hc) Hn.
    apply elem_of_cons in Hn as [->|Hn]; [eauto | eapply IH; eauto].
Qed.

Lemma chain_nonnull h p ns vs q n : chain h p ns vs q -> n ∈ ns -> n <> NULL.
Proof.
  revert p vs. induction ns as [|n' ns IH]; intros p [|v vs]; cbn; try tauto.
  - intros _ Hn. inversion Hn.
  - intros (-> & Hnn & nx & Hh & Hc) Hn.
    apply elem_of_cons in Hn as [->|Hn]; [exact Hnn | eapply IH; eauto].
Qed.

Lemma chain_not_list h p ns vs q l L n :
  chain h p ns vs q -> h !! l = Some (OList L) -> n ∈ ns -> n <> l.
Proof.
  intros Hc HL Hn ->. destruct (chain_node _ _ _ _ _ _ Hc Hn) as [N HN]. congruence.
Qed.

Lemma last_elem_of (ns : list Z) d : ns <> [] -> List.last ns d ∈ ns.
Proof.
  induction ns as [|n ns IH]; [congruence|]. intros _.
  destruct ns as [|n2 ns].
  - cbn. apply elem_of_cons. now left.
  - change (List.last (n :: n2 :: ns) d) with (List.last (n2 :: ns) d).
    apply elem_of_cons. right. apply IH. discriminate.
Qed.

Lemma last_snoc (ns : list Z) n d : List.last (ns ++ [n]) d = n.
Proof. apply List.last_last. Qed.

Lemma chain_last h p ns vs :
  chain h p ns vs NULL -> ns <> [] ->
  List.last ns NULL <> NULL /\
  exists tv, h !! List.last ns NULL = Some (ONode (ListNode.mk tv NULL)).
Proof.
  revert p vs. induction ns as [|n ns IH]; intros p [|v vs]; cbn [chain]; try tauto.
  intros (-> & Hn & nx & Hh & Hc) _.
  destruct ns as [|n2 ns].
  - apply chain_no_nodes_inv in Hc as [_ ->]. cbn. eauto.
  - change (List.last (n :: n2 :: ns) NULL) with (List.last (n2 :: ns) NULL).
    apply (IH nx vs Hc). discriminate.
Qed.

Lemma chain_app h p ns1 vs1 q ns2 vs2 r :
  chain h p ns1 vs1 q -> chain h q ns2 vs2 r ->
  chain h p (ns1 ++ ns2) (vs1 ++ vs2) r.
Proof.
  revert p vs1. induction ns1 as [|n ns1 IH]; intros p [|v vs1]; cbn [chain]; try tauto.
  - now intros ->.
  - intros (-> & Hn & nx & Hh & Hc) H2. cbn [app chain]. repeat split; auto.
    exists nx. split; [exact Hh|]. now apply IH.
Qed.

(** Redirecting the last node of a chain to a new node [a] extends the
    chain by [a]. *)
Lemma chain_snoc h h' a v :
  forall ns vs p,
    chain h p ns vs NULL -> ns <> [] -> NoDup ns ->
    a <> NULL ->
    h' !! a = Some (ONode (ListNode.mk v NULL)) ->
    (forall n, n ∈ ns -> n <> List.last ns NULL -> h' !! n = h !! n) ->
    (forall tv, h !! List.last ns NULL = Some (ONode (ListNode.mk tv NULL)) ->
                h' !! List.last ns NULL = Some (ONode (ListNode.mk tv a))) ->
    chain h' p (ns ++ [a]) (vs ++ [v]) NULL.
Proof.
  induction ns as [|n ns IH]; intros vs p Hc Hne Hnd Ha Hnew Hsame Hlast; [congruence|].
  destruct vs as [|v0 vs]; [cbn in Hc; tauto|].
  cbn [chain] in Hc. destruct Hc as (-> & Hn & nx & Hh & Hc).
  apply NoDup_cons in Hnd as [Hnin Hnd].
  destruct ns as [|n2 ns].
  - apply chain_no_nodes_inv in Hc as [-> ->]. cbn [List.last] in *.
    cbn. repeat split; auto. exists a. split; [now apply Hlast|].
    repeat split; auto. now exists NULL.
  - change (List.last (n :: n2 :: ns) NULL) with (List.last (n2 :: ns) NULL) in *.
    cbn [app chain]. repeat split; auto. exists nx. split.
    + rewrite Hsame; [exact Hh | apply elem_of_cons; now left |].
      intros ->. apply Hnin. apply last_elem_of. discriminate.
    + apply IH; auto.
      intros n' Hn' Hne'. apply Hsame; auto. apply elem_of_cons. now right.
Qed.

(** Redirecting the last node of a chain to [q'] gives the chain with the
    same nodes, ending at [q']. *)
Lemma chain_redirect h h' q q' :
  forall ns vs p,
    chain h p ns vs q -> ns <> [] -> NoDup ns ->
    (forall n, n ∈ ns -> n <> List.last ns NULL -> h' !! n = h !! n) ->
    (forall tv nx, h !! List.last ns NULL = Some (ONode (ListNode.mk tv nx)) ->
                   h' !! List.last ns NULL = Some (ONode (ListNode.mk tv q'))) ->
    chain h' p ns vs q'.
Proof.
  induction ns as [|n ns IH]; intros vs p Hc Hne Hnd Hsame Hlast; [congruence|].
  destruct vs as [|v0 vs]; [cbn in Hc; tauto|].
  cbn [chain] in Hc. destruct Hc as (-> & Hn & nx & Hh & Hc).
  apply NoDup_cons in Hnd as [Hnin Hnd].
  destruct ns as [|n2 ns].
  - apply chain_no_nodes_inv in Hc as [-> ->]. cbn [List.last] in *.
    cbn. repeat split; auto. exists q'. split; [now apply Hlast with q|reflexivity].
  - change (List.last (n :: n2 :: ns) NULL) with (List.last (n2 :: ns) NULL) in *.
    cbn [chain]. repeat split; auto. exists nx. split.
    + rewrite Hsame; [exact Hh | apply elem_of_cons; now left |].
      intros ->. apply Hnin. apply last_elem_of. discriminate.
    + apply IH; auto.
      intros n' Hn' Hne'. apply Hsame; auto. apply elem_of_cons. now right.
Qed.



Lemma is_list_frame m m' l ns vs :
  is_list m l ns vs ->
  heap m' !! l = heap m !! l ->
  (forall n, n ∈ ns -> heap m' !! n = heap m !! n) ->
  is_list m' l ns vs.
Proof.
  intros (Hl & L & HL & Hc & Hrest) Hsame Hnodes.
  split; [exact Hl|]. exists L. split; [now rewrite Hsame|].
  split; [now apply chain_frame with (heap m)|exact Hrest].
Qed.

Lemma is_list_below_brk m l ns vs :
  valid_mem m -> is_list m l ns vs -> l < brk m /\ forall n, n ∈ ns -> n < brk m.
Proof.
  intros [_ Hv] (_ & L & HL & Hc & _). split.
  - apply Hv. eauto.
  - intros n Hn. apply Hv. eapply chain_live; eauto.
Qed.

(** ** Well-formed lists satisfy the structural invariant *)

Lemma nth_next_chain h p ns vs q :
  chain h p ns vs q -> nth_next h (length ns) p = Some q.
Proof.
  revert p vs. induction ns as [|n ns IH]; intros p [|v vs]; cbn [chain]; try tauto.
  - intros ->. reflexivity.
  - intros (-> & Hn & nx & Hh & Hc). cbn [length nth_next].
    rewrite (eqb_NULL _ Hn), Hh. cbn [ListNode.next]. eauto.
Qed.

Lemma nth_next_chain_last h p ns vs q :
  chain h p ns vs q -> ns <> [] ->
  nth_next h (length ns - 1) p = Some (List.last ns NULL).
Proof.
  revert p vs. induction ns as [|n ns IH]; intros p [|v vs]; cbn [chain]; try tauto.
  intros (-> & Hn & nx & Hh & Hc) _.
  destruct ns as [|n2 ns].
  - reflexivity.
  - change (List.last (n :: n2 :: ns) NULL) with (List.last (n2 :: ns) NULL).
    replace (length (n :: n2 :: ns) - 1)%nat with (S (length (n2 :: ns) - 1))
      by (cbn [length]; lia).
    cbn [nth_next]. rewrite (eqb_NULL _ Hn), Hh. cbn [ListNode.next].
    apply (IH nx vs Hc). discriminate.
Qed.

Lemma is_list_invariant m l ns vs : is_list m l ns vs -> invariant m l.
Proof.
  intros (Hl & L & HL & Hc & Hnd & Ht & Hs & Hmax).
  pose proof (chain_length _ _ _ _ _ Hc) as Hlen.
  exists L. split; [exact HL|].
  destruct ns as [|n0 ns0].
  - apply chain_no_nodes_inv in Hc as [-> Hh]. cbn in Ht, Hs.
    rewrite Hh, Ht, Hs. repeat split; auto; try lia.
  - destruct (chain_last _ _ _ _ Hc ltac:(discriminate)) as [Htn _].
    assert (Hhn : LinkedList.head L <> NULL).
    { cbn [chain] in Hc. destruct vs; [tauto|]. destruct Hc as (-> & Hn & _). exact Hn. }
    rewrite <- Ht in Htn.
    assert (Hsz : LinkedList.size L = Z.of_nat (length (n0 :: ns0))) by (rewrite Hlen; exact Hs).
    assert (Hpos : LinkedList.size L <> 0) by (rewrite Hsz; cbn [length]; lia).
    split; [tauto|]. split; [tauto|]. split; [lia|]. split.
    + intros _. rewrite Ht.
      replace (Z.to_nat (LinkedList.size L - 1)) with (length (n0 :: ns0) - 1)%nat
        by (rewrite Hsz; cbn [length]; lia).
      eapply nth_next_chain_last; [exact Hc | discriminate].
    + rewrite Hsz, Nat2Z.id. eapply nth_next_chain; eauto.
Qed.

(** ** The test inputs are what they say *)

Lemma list_of_1_2 : list_of [1; 2] initial_mem = Ok 1000 mem_1_2.
Proof. vm_compute. reflexivity. Qed.

Lemma list_of_1_2_2_3_2 : list_of [1; 2; 2; 3; 2] initial_mem = Ok 1000 mem_1_2_2_3_2.
Proof. vm_compute. reflexivity. Qed.

Lemma valid_mem_empty_list : valid_mem mem_empty_list.
Proof.
  split; [reflexivity|]. intros p [o Hp].
  assert (Hd : p ∈ dom (heap mem_empty_list)) by (apply elem_of_dom; eauto).
  assert (He : dom (heap mem_empty_list) = {[1000]}) by (vm_compute; reflexivity).
  rewrite He in Hd. cbn [brk mem_empty_list].
  rewrite elem_of_singleton in Hd. lia.
Qed.

Lemma valid_mem_1_2 : valid_mem mem_1_2.
Proof.
  split; [reflexivity|]. intros p [o Hp].
  assert (Hd : p ∈ dom (heap mem_1_2)) by (apply elem_of_dom; eauto).
  assert (He : dom (heap mem_1_2) = {[1000; 1001; 1002]}) by (vm_compute; reflexivity).
  rewrite He in Hd. cbn [brk mem_1_2].
  rewrite !elem_of_union, !elem_of_singleton in Hd. lia.
Qed.

Lemma valid_mem_1_2_2_3_2 : valid_mem mem_1_2_2_3_2.
Proof.
  split; [reflexivity|]. intros p [o Hp].
  assert (Hd : p ∈ dom (heap mem_1_2_2_3_2)) by (apply elem_of_dom; eauto).
  assert (He : dom (heap mem_1_2_2_3_2) = {[1000; 1001; 1002; 1003; 1004; 1005]})
    by (vm_compute; reflexivity).
  rewrite He in Hd. cbn [brk mem_1_2_2_3_2].
  rewrite !elem_of_union, !elem_of_singleton in Hd. lia.
Qed.

Lemma is_list_1_2_2_3_2 :
  is_list mem_1_2_2_3_2 1000 [1001; 1002; 1003; 1004; 1005] [1; 2; 2; 3; 2].
Proof.
  split; [discriminate|].
  exists (LinkedList.mk 1001 1005 Fdestructor 5).
  split; [reflexivity|].
  split; [cbn; repeat (split; [reflexivity|]; split; [discriminate|];
                       eexists; split; [vm_compute; reflexivity|]); reflexivity|].
  split; [apply (bool_decide_unpack _); vm_compute; exact I|].
  repeat split. discriminate.
Qed.

(** ** The iterator *)

Lemma i_hasNext_true itr : Iterator.next itr <> NULL -> i_hasNext itr = true.
Proof. intros H. unfold i_hasNext. now rewrite (eqb_NULL _ H). Qed.

Lemma i_hasNext_false itr : Iterator.next itr = NULL -> i_hasNext itr = false.
Proof. intros H. unfold i_hasNext. now rewrite H. Qed.

Lemma i_next_ok m itr v nx :
  Iterator.next itr <> NULL ->
  heap m !! Iterator.next itr = Some (ONode (ListNode.mk v nx)) ->
  INT_MIN <= Iterator.index itr + 1 <= INT_MAX ->
  i_next itr m
  = Ok (v, Iterator.mk (if negb (Iterator.current itr =? NULL)
                        then Iterator.current itr else Iterator.previous itr)
                       (Iterator.next itr) nx (Iterator.list itr)
                       (Iterator.index itr + 1)) m.
Proof.
  intros Hn Hh Hi. unfold i_next. rewrite (eqb_NULL _ Hn). cbn [negb].
  do 3 step. reflexivity.
Qed.

(** With no removal pending, [remove] changes nothing and returns [NULL]. *)
Lemma i_remove_nothing_pending itr m :
  Iterator.current itr = NULL -> i_remove itr m = Ok (NULL, itr) m.
Proof. intros Hc. unfold i_remove. now rewrite Hc. Qed.

(** After a [remove] that returned, no removal is pending. *)
Lemma i_remove_clears_current itr m v itr' m' :
  i_remove itr m = Ok (v, itr') m' -> Iterator.current itr' = NULL.
Proof.
  unfold i_remove. destruct (Iterator.current itr =? NULL) eqn:Hc; cbn [negb].
  - intros H. injection H as <- <- <-. now apply Z.eqb_eq.
  - intros H.
    apply bind_inv in H as (v1 & m1 & _ & H).
    apply bind_inv in H as ([] & m2 & _ & H).
    apply bind_inv in H as ([] & m3 & _ & H).
    apply bind_inv in H as ([] & m4 & _ & H).
    injection H as <- <- <-. reflexivity.
Qed.

(** With no node before the current one, [i_remove] writes through the null
    [previous] pointer. *)
Lemma i_remove_without_previous itr m :
  Iterator.current itr <> NULL -> Iterator.previous itr = NULL ->
  i_remove itr m = UB.
Proof.
  intros Hc Hp. unfold i_remove. rewrite (eqb_NULL _ Hc), Hp. cbn [negb].
  unfold get_value, node_at, load, bind. rewrite (eqb_NULL _ Hc).
  destruct (heap m !! Iterator.current itr) as [[L|N|a|]|]; reflexivity.
Qed.

(** What [i_remove] does when a removal is pending and there is a node
    before the current one: it redirects that node to [next], frees the
    current node, decrements the size and clears [current].  The list's
    [head] and [tail] are not written. *)
Lemma i_remove_ok m prev cur nxt l idx v cnx Nprev L :
  cur <> NULL -> heap m !! cur = Some (ONode (ListNode.mk v cnx)) ->
  prev <> NULL -> prev <> cur -> heap m !! prev = Some (ONode Nprev) ->
  l <> NULL -> heap m !! l = Some (OList L) ->
  INT_MIN <= LinkedList.size L - 1 <= INT_MAX ->
  i_remove (Iterator.mk prev cur nxt l idx) m
  = Ok (v, Iterator.mk prev NULL nxt l idx)
       (Mem (<[l := OList (LinkedList.with_size (LinkedList.size L - 1) L)]>
               (delete cur (<[prev := ONode (ListNode.mk (ListNode.value Nprev) nxt)]>
                              (heap m))))
            (brk m) (trace m)).
Proof.
  intros Hc Hcur Hp Hpc Hprev Hl HL Hrange.
  assert (Hlc : l <> cur) by (intros E; rewrite E in HL; congruence).
  assert (Hlp : l <> prev) by (intros E; rewrite E in HL; congruence).
  unfold i_remove. simpl_fields. rewrite (eqb_NULL _ Hc). cbn [negb].
  do 2 step.
  set (h1 := <[prev := ONode (ListNode.mk (ListNode.value Nprev) nxt)]> (heap m)).
  assert (Hc1 : h1 !! cur = Some (ONode (ListNode.mk v cnx)))
    by (unfold h1; rewrite lookup_insert_ne by congruence; exact Hcur).
  rewrite (bind_ok _ _ _ _ _ (free_ok cur _ (Mem h1 (brk m) (trace m)) Hc Hc1)).
  simpl_fields.
  assert (Hl2 : delete cur h1 !! l = Some (OList L))
    by (unfold h1; rewrite lookup_delete_ne, lookup_insert_ne by congruence; exact HL).
  rewrite (bind_ok _ _ _ _ _
             (decr_size_ok l L (Mem (delete cur h1) (brk m) (trace m)) Hl Hl2 Hrange)).
  reflexivity.
Qed.

(** C1, on the code: [i_remove] neither updates the list's head nor its tail.
    On the list [[1; 2]], removing through an iterator that stands on the
    head (after one [next]) is undefined behaviour, because the null
    [previous] pointer is written through; removing through an iterator that
    stands on the tail (after two [next]) returns the value 2 and decrements
    the size, but the list's tail reference still holds address 1002, the
    node that was just freed, instead of [previous] (1001). *)
Theorem i_remove_misses_head_and_tail :
  list_and_iterator [1; 2] 1 initial_mem
    = Ok (1000, Iterator.mk NULL 1001 1002 1000 0) mem_1_2 /\
  i_remove (Iterator.mk NULL 1001 1002 1000 0) mem_1_2 = UB /\
  list_and_iterator [1; 2] 2 initial_mem
    = Ok (1000, Iterator.mk 1001 1002 NULL 1000 1) mem_1_2 /\
  i_remove (Iterator.mk 1001 1002 NULL 1000 1) mem_1_2
    = Ok (2, Iterator.mk 1001 NULL NULL 1000 1) mem_1_stale_tail /\
  heap mem_1_stale_tail !! 1000 = Some (OList (LinkedList.mk 1001 1002 Fdestructor 1)) /\
  heap mem_1_stale_tail !! 1002 = None.
Proof. repeat split; vm_compute; reflexivity. Qed.

(** On every well-formed list that is not empty, a new iterator, one
    [next()] and a [remove()] is undefined behaviour: the iterator stands on
    the head, its [previous] is null, and [i_remove] writes through it. *)
Lemma next_remove_remove_undefined m l ns v vs :
  is_list m l ns (v :: vs) -> next_remove_remove l m = UB.
Proof.
  intros (Hl & L & HL & Hc & _).
  apply chain_cons_inv in Hc as (ns' & nx & -> & Hn & Hh & Hc).
  unfold next_remove_remove, l_iterator.
  rewrite bind_assoc.
  rewrite (bind_ok _ _ _ _ _ (get_head_ok l L m Hl HL)), bind_ret.
  rewrite (bind_ok _ _ _ _ _
             (i_next_ok m (Iterator.mk NULL NULL (LinkedList.head L) l (-1)) v nx Hn Hh
                ltac:(vm_compute; intuition discriminate))).
  cbv beta iota. unfold bind at 1.
  now rewrite i_remove_without_previous.
Qed.

(** C6, on the code: on the lists [[1; 2]] and [[7]], a new iterator, one
    [next()], a [remove()] and a second [remove()] is undefined behaviour at
    the first [remove()], which writes through the null [previous] pointer of
    an iterator that stands on the head.  The second [remove()] is never
    reached, so it neither returns [NULL] nor leaves the size as it was. *)
Theorem i_remove_twice_undefined_on_head :
  (l <- list_of [1; 2] ;; next_remove_remove l) initial_mem = UB /\
  (l <- list_of [7] ;; next_remove_remove l) initial_mem = UB /\
  l_iterator 1000 mem_1_2 = Ok (Iterator.mk NULL NULL 1001 1000 (-1)) mem_1_2 /\
  i_next (Iterator.mk NULL NULL 1001 1000 (-1)) mem_1_2
    = Ok (1, Iterator.mk NULL 1001 1002 1000 0) mem_1_2 /\
  i_remove (Iterator.mk NULL 1001 1002 1000 0) mem_1_2 = UB.
Proof. repeat split; vm_compute; reflexivity. Qed.

(** After [next()] and a [remove()] that returned, which it does only when
    the iterator stood behind the head, a second [remove()] returns [NULL]
    and leaves the iterator and the whole memory, hence the list's size, as
    the first removal left them. *)
Lemma i_remove_twice itr m v1 itr1 m1 v2 itr2 m2 :
  i_next itr m = Ok (v1, itr1) m1 ->
  i_remove itr1 m1 = Ok (v2, itr2) m2 ->
  i_remove itr2 m2 = Ok (NULL, itr2) m2 /\
  (i_remove itr2 ;; get_size (Iterator.list itr2)) m2 = get_size (Iterator.list itr2) m2.
Proof.
  intros _ H2. apply i_remove_clears_current in H2.
  split.
  - now apply i_remove_nothing_pending.
  - now rewrite (bind_ok _ _ _ _ _ (i_remove_nothing_pending _ _ H2)).
Qed.

Lemma i_remove_twice_witness :
  i_next (Iterator.mk NULL 1001 1002 1000 0) mem_1_2
    = Ok (2, Iterator.mk 1001 1002 NULL 1000 1) mem_1_2 /\
  i_remove (Iterator.mk 1001 1002 NULL 1000 1) mem_1_2
    = Ok (2, Iterator.mk 1001 NULL NULL 1000 1) mem_1_stale_tail /\
  i_remove (Iterator.mk 1001 NULL NULL 1000 1) mem_1_stale_tail
    = Ok (NULL, Iterator.mk 1001 NULL NULL 1000 1) mem_1_stale_tail /\
  (i_remove (Iterator.mk 1001 NULL NULL 1000 1) ;; get_size 1000) mem_1_stale_tail
    = get_size 1000 mem_1_stale_tail.
Proof.
  split; [vm_compute; reflexivity|].
  split; [vm_compute; reflexivity|].
  apply (i_remove_twice (Iterator.mk NULL 1001 1002 1000 0) mem_1_2
           2 (Iterator.mk 1001 1002 NULL 1000 1) mem_1_2 2
           (Iterator.mk 1001 NULL NULL 1000 1) mem_1_stale_tail).
  - vm_compute. reflexivity.
  - vm_compute. reflexivity.
Defined.

(** C10: with no removal pending, [i_delete] still calls the list's
    destructor, on the [NULL] that [i_remove] returned.  The default
    destructor does nothing for [NULL]; a destructor supplied by the caller
    is entered with [NULL] as its argument. *)
Theorem i_delete_nothing_pending itr m L :
  Iterator.current itr = NULL ->
  Iterator.list itr <> NULL ->
  heap m !! Iterator.list itr = Some (OList L) ->
  i_delete itr m = (call (LinkedList.destructor L) NULL ;; ret itr) m /\
  call Fdestructor NULL m = Ok tt m /\
  forall id, call (Fextern id) NULL m
             = Ok tt (Mem (heap m) (brk m) (trace m ++ [Ecall id NULL])).
Proof.
  intros Hc Hl HL. repeat split.
  unfold i_delete.
  rewrite (bind_ok _ _ _ _ _ (i_remove_nothing_pending _ _ Hc)).
  now rewrite (bind_ok _ _ _ _ _ (get_destructor_ok _ _ _ Hl HL)).
Qed.

Lemma i_delete_nothing_pending_witness :
  Iterator.current (Iterator.mk NULL NULL 1001 1000 (-1)) = NULL /\
  Iterator.list (Iterator.mk NULL NULL 1001 1000 (-1)) <> NULL /\
  heap mem_5_extern !! 1000 = Some (OList (LinkedList.mk 1001 1001 (Fextern 7) 1)) /\
  i_delete (Iterator.mk NULL NULL 1001 1000 (-1)) mem_5_extern
    = (call (Fextern 7) NULL ;; ret (Iterator.mk NULL NULL 1001 1000 (-1))) mem_5_extern /\
  call Fdestructor NULL mem_5_extern = Ok tt mem_5_extern /\
  forall id, call (Fextern id) NULL mem_5_extern
             = Ok tt (Mem (heap mem_5_extern) (brk mem_5_extern)
                          (trace mem_5_extern ++ [Ecall id NULL])).
Proof.
  split; [reflexivity|].
  split; [vm_compute; discriminate|].
  split; [vm_compute; reflexivity|].
  apply (i_delete_nothing_pending (Iterator.mk NULL NULL 1001 1000 (-1)) mem_5_extern
           (LinkedList.mk 1001 1001 (Fextern 7) 1)).
  - reflexivity.
  - vm_compute. discriminate.
  - vm_compute. reflexivity.
Defined.

(** With a removal pending on the second node, [i_delete] unlinks and frees
    the node and the default destructor frees the value block it carried. *)
Example i_delete_frees_the_value :
  i_delete (Iterator.mk 1001 1003 NULL 1000 1) mem_two_blocks
  = Ok (Iterator.mk 1001 NULL NULL 1000 1)
       (Mem (list_to_map
               [(1000, OList (LinkedList.mk 1001 1003 Fdestructor 1));
                (1001, ONode (ListNode.mk 1002 NULL));
                (1002, OBlock)])
            1005 []).
Proof. vm_compute. reflexivity. Qed.

(** ** Positional removal on an empty list or outside the range *)

Lemma l_removeFirst_empty l L m :
  l <> NULL -> heap m !! l = Some (OList L) -> LinkedList.size L = 0 ->
  l_removeFirst l m = Ok Indeterminate m.
Proof.
  intros Hl HL Hs. unfold l_removeFirst.
  rewrite (bind_ok _ _ _ _ _ (get_size_ok _ _ _ Hl HL)), Hs. reflexivity.
Qed.

Lemma l_removeLast_empty l L m :
  l <> NULL -> heap m !! l = Some (OList L) -> LinkedList.size L = 0 ->
  l_removeLast l m = Ok Indeterminate m.
Proof.
  intros Hl HL Hs. unfold l_removeLast.
  rewrite (bind_ok _ _ _ _ _ (get_size_ok _ _ _ Hl HL)), Hs. reflexivity.
Qed.

Lemma l_remove_out_of_range l L m index :
  l <> NULL -> heap m !! l = Some (OList L) ->
  0 <= LinkedList.size L <= INT_MAX ->
  index < 0 \/ LinkedList.size L <= index ->
  l_remove l index m = Ok Indeterminate m.
Proof.
  intros Hl HL Hs Hi. unfold l_remove.
  destruct (Z.eqb_spec index 0) as [->|Hne0].
  - apply l_removeFirst_empty with L; auto. lia.
  - rewrite (bind_ok _ _ _ _ _ (get_size_ok _ _ _ Hl HL)).
    assert (Hr : INT_MIN <= LinkedList.size L - 1 <= INT_MAX)
      by (unfold INT_MIN, INT_MAX in *; lia).
    rewrite (bind_ok _ _ _ _ _ (int_ok _ Hr _)).
    destruct (Z.eqb_spec index (LinkedList.size L - 1)) as [He|Hne].
    + apply l_removeLast_empty with L; auto. lia.
    + destruct (Z.ltb_spec 0 index); destruct (Z.ltb_spec index (LinkedList.size L - 1));
        cbn [andb]; try reflexivity; lia.
Qed.

(** C5, on the code: on an empty list [l_removeFirst] and [l_removeLast]
    leave the memory as it is, and so does [l_remove] on [[1; 2]] at the
    indices 2, 5 and -1; but what they return is the local [value], which
    was never assigned on that path: an indeterminate value, not [NULL]. *)
Theorem l_remove_nothing_returns_indeterminate :
  l_create initial_mem = Ok 1000 mem_empty_list /\
  l_removeFirst 1000 mem_empty_list = Ok Indeterminate mem_empty_list /\
  l_removeLast 1000 mem_empty_list = Ok Indeterminate mem_empty_list /\
  l_remove 1000 0 mem_empty_list = Ok Indeterminate mem_empty_list /\
  l_remove 1000 2 mem_1_2 = Ok Indeterminate mem_1_2 /\
  l_remove 1000 5 mem_1_2 = Ok Indeterminate mem_1_2 /\
  l_remove 1000 (-1) mem_1_2 = Ok Indeterminate mem_1_2 /\
  Indeterminate <> Value NULL.
Proof.
  split; [vm_compute; reflexivity|].
  split; [apply l_removeFirst_empty with (LinkedList.mk NULL NULL Fdestructor 0);
          [discriminate | reflexivity | reflexivity]|].
  split; [apply l_removeLast_empty with (LinkedList.mk NULL NULL Fdestructor 0);
          [discriminate | reflexivity | reflexivity]|].
  split; [apply l_remove_out_of_range with (LinkedList.mk NULL NULL Fdestructor 0);
          [discriminate | reflexivity | vm_compute; intuition discriminate
          | right; reflexivity]|].
  repeat split; try discriminate;
    apply l_remove_out_of_range with (LinkedList.mk 1001 1002 Fdestructor 2);
    try discriminate; try reflexivity;
    try (vm_compute; intuition discriminate);
    cbn [LinkedList.size]; lia.
Qed.

(** ** Insertion *)

Lemma l_create_spec m :
  valid_mem m ->
  exists m',
    l_create m = Ok (brk m) m' /\
    is_list m' (brk m) [] [] /\
    valid_mem m' /\
    brk m' = brk m + 1 /\
    forall p, p <> brk m -> heap m' !! p = heap m !! p.
Proof.
  intros Hv. eexists. split; [reflexivity|].
  split; [|split; [now apply valid_mem_malloc|split; [reflexivity|]]].
  - split; [now apply valid_mem_brk|]. eexists. split; [apply lookup_insert_eq|].
    cbn. repeat split; try constructor. unfold INT_MAX. lia.
  - intros p Hp. cbn [heap]. now rewrite lookup_insert_ne by congruence.
Qed.

(** [l_addLast] on a well-formed list appends one node, at the address the
    allocator hands out, and touches nothing but the list struct, its old
    last node and the new node. *)
Lemma l_addLast_spec m l ns vs v :
  valid_mem m -> is_list m l ns vs -> Z.of_nat (length vs) < INT_MAX ->
  exists m',
    l_addLast l v m = Ok tt m' /\
    is_list m' l (ns ++ [brk m]) (vs ++ [v]) /\
    valid_mem m' /\
    brk m' = brk m + 1 /\
    trace m' = trace m /\
    forall p, p <> l -> p ∉ ns -> p <> brk m -> heap m' !! p = heap m !! p.
Proof.
  intros Hv (Hl & L & HL & Hc & Hnd & Ht & Hs & Hmax) Hlen.
  assert (Hb : brk m <> NULL) by now apply valid_mem_brk.
  assert (Hfresh : forall p, is_Some (heap m !! p) -> p <> brk m)
    by (intros p; now apply valid_mem_fresh).
  assert (Hlb : l <> brk m) by (apply Hfresh; eauto).
  assert (Hns : brk m ∉ ns).
  { intros Hin. apply (Hfresh (brk m)); [|reflexivity]. eapply chain_live; eauto. }
  assert (Hlen' : length ns = length vs) by (eapply chain_length; eauto).
  destruct L as [hd tl d sz]. simpl_fields. subst sz tl.
  unfold l_addLast, new_node, incr_size.
  destruct ns as [|n0 ns0].
  - (* the list was empty *)
    destruct vs; [|discriminate]. apply chain_nil_inv in Hc as [_ ->].
    eexists. split.
    { do 2 step. cbn [length]. change (negb (Z.of_nat 0 =? 0)) with false. cbv iota.
      do 4 step.
      apply set_size_ok; solve_side. }
    simpl_fields.
    split; [|split; [|split; [reflexivity|split; [reflexivity|]]]].
    + split; [exact Hl|]. eexists. split; [apply lookup_insert_eq|]. simpl_fields.
      split.
      { cbn. repeat split; auto. exists NULL. split; [|reflexivity].
        rewrite !lookup_insert_ne by congruence. apply lookup_insert_eq. }
      split; [apply NoDup_singleton|].
      repeat split. unfold INT_MAX. cbn. lia.
    + do 3 (apply valid_mem_store; [|eexists; solve_lookup]).
      now apply valid_mem_malloc.
    + intros p Hp _ Hpb. rewrite !lookup_insert_ne by congruence. reflexivity.
  - (* the list had a last node *)
    destruct (chain_last _ _ _ _ Hc ltac:(discriminate)) as (Htn & tv & Htl).
    set (t := List.last (n0 :: ns0) NULL) in *.
    assert (Htin : t ∈ n0 :: ns0) by (apply last_elem_of; discriminate).
    assert (Htb : t <> brk m) by (intros ->; contradiction).
    assert (Htl' : t <> l).
    { intros ->. rewrite HL in Htl. discriminate. }
    destruct vs as [|v0 vs0]; [discriminate|].
    assert (Hnz : (Z.of_nat (length (v0 :: vs0)) =? 0) = false)
      by (apply Z.eqb_neq; cbn [length]; lia).
    eexists. split.
    { do 2 step. rewrite Hnz. cbn [negb]. do 5 step.
      apply set_size_ok; solve_side. }
    simpl_fields.
    split; [|split; [|split; [reflexivity|split; [reflexivity|]]]].
    + split; [exact Hl|]. eexists. split; [apply lookup_insert_eq|]. simpl_fields.
      split.
      { eapply chain_snoc; [exact Hc | discriminate | exact Hnd | exact Hb | | | ].
        - rewrite !lookup_insert_ne by congruence. apply lookup_insert_eq.
        - intros n Hn Hnt. fold t in Hnt.
          assert (n <> l).
          { intros ->. destruct (chain_node _ _ _ _ _ _ Hc Hn) as [N HN]. congruence. }
          assert (n <> brk m) by (intros ->; contradiction).
          rewrite !lookup_insert_ne by congruence. reflexivity.
        - fold t. intros tv' Htv'. rewrite !lookup_insert_ne by congruence.
          rewrite lookup_insert_eq. rewrite Htl in Htv'. injection Htv' as <-.
          reflexivity. }
      split.
      { apply NoDup_app. split; [exact Hnd|]. split; [|apply NoDup_singleton].
        intros x Hx Hxb. apply list_elem_of_singleton in Hxb as ->. contradiction. }
      split; [now rewrite List.last_last|].
      split; [rewrite length_app; cbn [length]; lia|].
      unfold INT_MAX in *. lia.
    + do 3 (apply valid_mem_store; [|eexists; solve_lookup]).
      now apply valid_mem_malloc.
    + intros p Hp Hpn Hpb.
      assert (p <> t) by (intros ->; contradiction).
      rewrite !lookup_insert_ne by congruence. reflexivity.
Qed.

(** On an empty list whose head is null, [l_addFirst] and [l_addLast] build
    the same memory. *)
Lemma l_addFirst_addLast_empty l L value m :
  valid_mem m -> l <> NULL -> heap m !! l = Some (OList L) ->
  LinkedList.size L = 0 -> LinkedList.head L = NULL ->
  l_addFirst l value m = l_addLast l value m.
Proof.
  intros Hv Hl HL Hs Hh.
  assert (Hlb : l <> brk m) by (apply valid_mem_fresh; eauto).
  assert (Hb : brk m <> NULL) by now apply valid_mem_brk.
  destruct L as [h t d s]. cbn in Hs, Hh. subst s h.
  unfold l_addFirst, l_addLast, new_node, incr_size.
  step. step. cbn [Z.eqb]. do 6 step. step. cbn [Z.add].
  symmetry. step. step. cbn [Z.eqb negb]. do 4 step.
  cbn [Z.add].
  erewrite set_size_ok; [|solve_side..].
  erewrite set_size_ok; [|solve_side..].
  simpl_fields.
  f_equal. f_equal.
  apply map_eq. intros i.
  rewrite !lookup_insert. repeat case_decide; congruence.
Qed.

(** C7: on a live list, [l_add] at an index below 0 or above the size
    returns with the memory exactly as it was; at index 0 it is
    [l_addFirst]; at the index equal to the size it is [l_addLast] (for a
    size of 0, on a list whose head is null, as every empty list has it). *)
Theorem l_add_out_of_range_and_ends m l L value index :
  l <> NULL -> heap m !! l = Some (OList L) -> 0 <= LinkedList.size L ->
  (index < 0 \/ LinkedList.size L < index -> l_add l value index m = Ok tt m) /\
  (index = 0 -> l_add l value index m = l_addFirst l value m) /\
  (index = LinkedList.size L -> valid_mem m ->
   (LinkedList.size L = 0 -> LinkedList.head L = NULL) ->
   l_add l value index m = l_addLast l value m).
Proof.
  intros Hl HL Hs. repeat split.
  - intros Hi. unfold l_add.
    destruct (Z.eqb_spec index 0) as [->|Hne0]; [lia|].
    rewrite (bind_ok _ _ _ _ _ (get_size_ok _ _ _ Hl HL)).
    destruct (Z.eqb_spec index (LinkedList.size L)); [lia|].
    destruct (Z.ltb_spec 0 index); destruct (Z.ltb_spec index (LinkedList.size L));
      cbn [andb]; try reflexivity; lia.
  - intros ->. reflexivity.
  - intros Hi Hv Hh. unfold l_add.
    destruct (Z.eqb_spec index 0) as [->|Hne0].
    + symmetry in Hi. apply l_addFirst_addLast_empty with L; auto.
    + rewrite (bind_ok _ _ _ _ _ (get_size_ok _ _ _ Hl HL)).
      now rewrite (proj2 (Z.eqb_eq _ _) Hi).
Qed.

Lemma l_add_out_of_range_and_ends_witness :
  1000 <> NULL /\
  heap mem_1_2 !! 1000 = Some (OList (LinkedList.mk 1001 1002 Fdestructor 2)) /\
  l_add 1000 9 5 mem_1_2 = Ok tt mem_1_2 /\
  l_add 1000 9 (-1) mem_1_2 = Ok tt mem_1_2 /\
  l_add 1000 9 0 mem_1_2 = l_addFirst 1000 9 mem_1_2 /\
  l_add 1000 9 2 mem_1_2 = l_addLast 1000 9 mem_1_2 /\
  l_add 1000 9 0 mem_empty_list = l_addLast 1000 9 mem_empty_list.
Proof.
  split; [discriminate|].
  split; [reflexivity|].
  split.
  { apply (l_add_out_of_range_and_ends mem_1_2 1000
             (LinkedList.mk 1001 1002 Fdestructor 2) 9 5);
      [discriminate | reflexivity | cbn; lia | right; cbn; lia]. }
  split.
  { apply (l_add_out_of_range_and_ends mem_1_2 1000
             (LinkedList.mk 1001 1002 Fdestructor 2) 9 (-1));
      [discriminate | reflexivity | cbn; lia | left; lia]. }
  split.
  { apply (l_add_out_of_range_and_ends mem_1_2 1000
             (LinkedList.mk 1001 1002 Fdestructor 2) 9 0);
      [discriminate | reflexivity | cbn; lia | reflexivity]. }
  split.
  { apply (l_add_out_of_range_and_ends mem_1_2 1000
             (LinkedList.mk 1001 1002 Fdestructor 2) 9 2);
      [discriminate | reflexivity | cbn; lia | reflexivity | apply valid_mem_1_2
      | cbn; discriminate]. }
  apply (l_add_out_of_range_and_ends mem_empty_list 1000
           (LinkedList.mk NULL NULL Fdestructor 0) 9 0);
    [discriminate | reflexivity | cbn; lia | reflexivity | apply valid_mem_empty_list
    | reflexivity].
Defined.

(** ** Removal by predicate *)

(** Whenever the predicate accepts the first element of a well-formed list,
    [l_removeIf] calls [i_remove] with a null [previous] pointer. *)
Lemma l_removeIf_undefined_when_first_accepted m l ns v vs selector fuel :
  is_list m l ns (v :: vs) -> accepts selector v = true ->
  l_removeIf (S fuel) l selector m = UB.
Proof.
  intros (Hl & L & HL & Hc & _ & _ & Hs & Hmax) HP.
  apply chain_cons_inv in Hc as (ns' & nx & -> & Hn & Hh & Hc).
  unfold l_removeIf, l_iterator. do 2 step.
  unfold bind at 1. cbn [l_removeIf_loop].
  set (itr0 := Iterator.mk NULL NULL (LinkedList.head L) l (-1)).
  rewrite (i_hasNext_true itr0 Hn).
  rewrite (bind_ok _ _ _ _ _
             (i_next_ok m itr0 v nx Hn Hh ltac:(vm_compute; intuition discriminate))).
  unfold accepts in HP. rewrite HP.
  unfold bind at 1. now rewrite i_remove_without_previous.
Qed.

Section RemoveIf.

Variable selector : Predicate.t.
Variable l hd : ptr.
Hypothesis l_not_null : l <> NULL.

Local Abbreviation keep := (fun v => negb (accepts selector v)).

(** The loop of [l_removeIf] once at least one node has been kept:
    [kept_ns] are the nodes kept so far, the last of them is the node the
    iterator will unlink from, and [rest_ns] are the nodes still ahead. *)
Lemma l_removeIf_loop_spec rest_vs :
  forall rest_ns kept_ns kept_vs itr fuel m L,
    heap m !! l = Some (OList L) ->
    Iterator.list itr = l ->
    LinkedList.head L = hd ->
    LinkedList.size L = Z.of_nat (length kept_vs) + Z.of_nat (length rest_vs) ->
    LinkedList.size L <= INT_MAX ->
    kept_ns <> [] ->
    (if negb (Iterator.current itr =? NULL)
     then Iterator.current itr else Iterator.previous itr) = List.last kept_ns NULL ->
    chain (heap m) hd kept_ns kept_vs (Iterator.next itr) ->
    chain (heap m) (Iterator.next itr) rest_ns rest_vs NULL ->
    NoDup (kept_ns ++ rest_ns) ->
    -1 <= Iterator.index itr ->
    Iterator.index itr + Z.of_nat (length rest_vs) <= INT_MAX ->
    (length rest_vs < fuel)%nat ->
    exists itr' m' L' ns',
      l_removeIf_loop fuel selector itr m = Ok itr' m' /\
      heap m' !! l = Some (OList L') /\
      LinkedList.head L' = hd /\
      LinkedList.tail L' = LinkedList.tail L /\
      chain (heap m') hd (kept_ns ++ ns') (kept_vs ++ List.filter keep rest_vs) NULL /\
      LinkedList.size L' = Z.of_nat (length (kept_vs ++ List.filter keep rest_vs)) /\
      (forall p, p <> l -> p ∉ kept_ns -> p ∉ rest_ns -> heap m' !! p = heap m !! p) /\
      brk m' = brk m /\ trace m' = trace m.
Proof.
  induction rest_vs as [|v rest_vs IH];
    intros rest_ns kept_ns kept_vs [prev cur n lst idx] fuel m L HL Hitr Hhd Hsz Hmax Hne
           Hlk Hck Hcr Hnd Hi Himax Hf;
    simpl_fields; subst lst.
  - apply chain_nil_inv in Hcr as [-> ->].
    destruct fuel as [|fuel]; [cbn in Hf; lia|].
    exists (Iterator.mk prev cur NULL l idx), m, L, []. cbn [l_removeIf_loop List.filter].
    rewrite i_hasNext_false by reflexivity. rewrite !app_nil_r.
    repeat split; auto. cbn [length] in Hsz. lia.
  - apply chain_cons_inv in Hcr as (rest_ns' & nx & -> & Hn & Hh & Hcr).
    destruct fuel as [|fuel]; [cbn in Hf; lia|].
    cbn [length] in Hsz, Himax, Hf.
    assert (Hr : INT_MIN <= idx + 1 <= INT_MAX)
      by (unfold INT_MIN, INT_MAX in *; lia).
    set (lk := List.last kept_ns NULL) in *.
    assert (Hlkin : lk ∈ kept_ns) by (apply last_elem_of; exact Hne).
    apply NoDup_app in Hnd as Hnd3. destruct Hnd3 as (Hndk & Hdisj & Hndr).
    apply NoDup_cons in Hndr as [Hnr Hndr'].
    assert (Hnk : n ∉ kept_ns).
    { intros Hin. apply (Hdisj n Hin). apply elem_of_cons. now left. }
    assert (Hlen : length kept_ns = length kept_vs) by (eapply chain_length; eauto).
    cbn [l_removeIf_loop]. rewrite i_hasNext_true by exact Hn.
    rewrite (bind_ok _ _ _ _ _ (i_next_ok m (Iterator.mk prev cur n l idx) v nx Hn Hh Hr)).
    simpl_fields. rewrite Hlk. fold (accepts selector v).
    cbn [List.filter]. destruct (accepts selector v) eqn:HP; cbn [negb].
    + (* the element is removed *)
      destruct (chain_node _ _ _ _ _ _ Hck Hlkin) as [Nlk HNlk].
      assert (Hlkn : lk <> NULL) by apply (chain_nonnull _ _ _ _ _ _ Hck Hlkin).
      assert (Hlkl : lk <> l) by apply (chain_not_list _ _ _ _ _ _ _ _ Hck HL Hlkin).
      assert (Hnl : n <> l) by (intros E; rewrite E in Hh; congruence).
      assert (Hlkne : lk <> n) by (intros E; apply Hnk; now rewrite <- E).
      set (h3 := <[l := OList (LinkedList.with_size (LinkedList.size L - 1) L)]>
                   (delete n (<[lk := ONode (ListNode.mk (ListNode.value Nlk) nx)]> (heap m)))).
      set (itr2 := Iterator.mk lk NULL nx l (idx + 1)).
      assert (Hrun : i_remove (Iterator.mk lk n nx l (idx + 1)) m
                     = Ok (v, itr2) (Mem h3 (brk m) (trace m))).
      { apply i_remove_ok with nx; auto. unfold INT_MIN, INT_MAX in *. lia. }
      rewrite (bind_ok _ _ _ _ _ Hrun).
      destruct (IH rest_ns' kept_ns kept_vs itr2 fuel (Mem h3 (brk m) (trace m))
                  (LinkedList.with_size (LinkedList.size L - 1) L))
        as (itr' & m' & L' & ns' & Hloop & HL' & Hhd' & Htl' & Hc' & Hsz' & Hfr' & Hb' & Ht').
      * apply lookup_insert_eq.
      * reflexivity.
      * exact Hhd.
      * simpl_fields. lia.
      * simpl_fields. lia.
      * exact Hne.
      * reflexivity.
      * cbn [heap Iterator.next itr2].
        apply (chain_redirect (heap m) h3 n nx kept_ns kept_vs hd Hck Hne Hndk).
        -- intros n' Hn' Hne'. fold lk in Hne'.
           assert (n' <> l) by apply (chain_not_list _ _ _ _ _ _ _ _ Hck HL Hn').
           assert (n' <> n) by (intros E; apply Hnk; now rewrite <- E).
           unfold h3. rewrite lookup_insert_ne, lookup_delete_ne, lookup_insert_ne by congruence.
           reflexivity.
        -- fold lk. intros tv nx0 Htv. unfold h3.
           rewrite lookup_insert_ne, lookup_delete_ne, lookup_insert_eq by congruence.
           rewrite HNlk in Htv. injection Htv as ->. reflexivity.
      * cbn [heap Iterator.next itr2]. apply chain_frame with (heap m); [exact Hcr|].
        intros n' Hn'.
        assert (n' <> l) by apply (chain_not_list _ _ _ _ _ _ _ _ Hcr HL Hn').
        assert (n' <> n) by (intros E; apply Hnr; now rewrite <- E).
        assert (n' <> lk).
        { intros E. apply (Hdisj lk Hlkin). apply elem_of_cons. right. now rewrite <- E. }
        unfold h3. rewrite lookup_insert_ne, lookup_delete_ne, lookup_insert_ne by congruence.
        reflexivity.
      * apply NoDup_app. split; [exact Hndk|]. split; [|exact Hndr'].
        intros x Hx Hx'. apply (Hdisj x Hx). apply elem_of_cons. now right.
      * cbn. lia.
      * cbn. lia.
      * lia.
      * exists itr', m', L', ns'. repeat split; auto.
        intros p Hpl Hpk Hpr. rewrite Hfr'; auto.
        -- assert (p <> n) by (intros E; apply Hpr; rewrite E; apply elem_of_cons; now left).
           assert (p <> lk) by (intros E; apply Hpk; now rewrite E).
           cbn [heap]. unfold h3.
           rewrite lookup_insert_ne, lookup_delete_ne, lookup_insert_ne by congruence.
           reflexivity.
        -- intros Hin. apply Hpr. apply elem_of_cons. now right.
    + (* the element is kept *)
      set (itr1 := Iterator.mk lk n nx l (idx + 1)).
      destruct (IH rest_ns' (kept_ns ++ [n]) (kept_vs ++ [v]) itr1 fuel m L)
        as (itr' & m' & L' & ns' & Hloop & HL' & Hhd' & Htl' & Hc' & Hsz' & Hfr' & Hb' & Ht').
      * exact HL.
      * reflexivity.
      * exact Hhd.
      * rewrite length_app. cbn [length]. lia.
      * exact Hmax.
      * destruct kept_ns; discriminate.
      * rewrite last_snoc. cbn [Iterator.current itr1]. now rewrite (eqb_NULL _ Hn).
      * cbn [Iterator.next itr1]. apply chain_app with n; [exact Hck|].
        cbn. repeat split; auto. now exists nx.
      * exact Hcr.
      * rewrite <- app_assoc. exact Hnd.
      * cbn. lia.
      * cbn. lia.
      * lia.
      * exists itr', m', L', (n :: ns'). split; [exact Hloop|].
        rewrite <- !app_assoc in Hc'. rewrite <- !app_assoc in Hsz'.
        cbn [app] in Hc', Hsz'. repeat split; auto.
        intros p Hpl Hpk Hpr. apply Hfr'; auto.
        -- intros Hin. apply elem_of_app in Hin as [Hin|Hin]; [contradiction|].
           apply list_elem_of_singleton in Hin. apply Hpr. rewrite Hin.
           apply elem_of_cons. now left.
        -- intros Hin. apply Hpr. apply elem_of_cons. now right.
Qed.

End RemoveIf.

(** [l_removeIf] on a well-formed list that is empty or whose first element
    the predicate rejects: the nodes reachable from the head carry the
    original values without the accepted ones, in the original order, and
    the size is their number.  The tail reference is never written. *)
Lemma l_removeIf_spec m l ns vs selector fuel :
  is_list m l ns vs ->
  match vs with [] => True | v :: _ => accepts selector v = false end ->
  (length vs < fuel)%nat ->
  exists m' L' ns',
    l_removeIf fuel l selector m = Ok tt m' /\
    heap m' !! l = Some (OList L') /\
    chain (heap m') (LinkedList.head L') ns'
          (List.filter (fun v => negb (accepts selector v)) vs) NULL /\
    LinkedList.size L'
      = Z.of_nat (length (List.filter (fun v => negb (accepts selector v)) vs)) /\
    LinkedList.tail L' = List.last ns NULL /\
    (forall p, p <> l -> p ∉ ns -> heap m' !! p = heap m !! p) /\
    brk m' = brk m /\ trace m' = trace m.
Proof.
  intros (Hl & L & HL & Hc & Hnd & Ht & Hs & Hmax) Hfirst Hf.
  destruct fuel as [|fuel]; [lia|].
  destruct vs as [|v vs].
  - apply chain_nil_inv in Hc as [-> Hh].
    exists m, L, []. split.
    + unfold l_removeIf, l_iterator. do 2 step. cbn [l_removeIf_loop].
      rewrite i_hasNext_false by exact Hh. reflexivity.
    + cbn [List.filter length]. repeat split; auto.
  - apply chain_cons_inv in Hc as (ns' & nx & -> & Hn & Hh & Hc).
    cbn [length] in Hs, Hf.
    set (hd := LinkedList.head L) in *.
    destruct (l_removeIf_loop_spec selector l hd Hl vs ns' [hd] [v]
                (Iterator.mk NULL hd nx l 0) fuel m L)
      as (itr' & m' & L' & ns2 & Hloop & HL' & Hhd' & Htl' & Hc' & Hsz' & Hfr' & Hb' & Ht').
    + exact HL.
    + reflexivity.
    + reflexivity.
    + cbn [length]. lia.
    + exact Hmax.
    + discriminate.
    + simpl_fields. now rewrite (eqb_NULL _ Hn).
    + cbn. repeat split; auto. now exists nx.
    + exact Hc.
    + exact Hnd.
    + cbn. lia.
    + cbn. lia.
    + lia.
    + exists m', L', ([hd] ++ ns2). split.
      * assert (Hloop0 : l_removeIf_loop (S fuel) selector
                           (Iterator.mk NULL NULL hd l (-1)) m = Ok itr' m').
        { cbn [l_removeIf_loop]. rewrite i_hasNext_true by exact Hn.
          rewrite (bind_ok _ _ _ _ _
                     (i_next_ok m (Iterator.mk NULL NULL hd l (-1)) v nx Hn Hh
                        ltac:(vm_compute; intuition discriminate))).
          simpl_fields. change (negb (NULL =? NULL)) with false. cbv iota.
          unfold accepts in Hfirst. rewrite Hfirst.
          change (-1 + 1) with 0. exact Hloop. }
        unfold l_removeIf, l_iterator. do 2 step. fold hd.
        now rewrite (bind_ok _ _ _ _ _ Hloop0).
      * cbn [List.filter]. rewrite Hfirst. cbn [negb].
        rewrite Hhd'.
        split; [exact HL'|]. split; [exact Hc'|]. split; [exact Hsz'|].
        split; [congruence|]. split; [|split; assumption].
        intros p Hpl Hpn. apply Hfr'; auto.
        -- intros Hin. apply Hpn. apply list_elem_of_singleton in Hin. rewrite Hin.
           apply elem_of_cons. now left.
        -- intros Hin. apply Hpn. apply elem_of_cons. now right.
Qed.

(** C2, on the code: on the list [[1; 2]], [l_removeIf] with a predicate that
    accepts the first element runs into [i_remove] with a null [previous]
    pointer: undefined behaviour, whatever the fuel, instead of the list
    [[2]]. *)
Theorem l_removeIf_head_match_undefined :
  (forall fuel, l_removeIf (S fuel) 1000 (c_predicate equality 1) mem_1_2 = UB) /\
  (forall fuel, l_removeIf (S fuel) 1000 always mem_1_2 = UB).
Proof. split; intros fuel; vm_compute; reflexivity. Qed.

(** ** Removal by value, and the other value forms *)

(** [l_removeValue(list, value)] on a well-formed list (empty, or whose first
    element is not the address of the parameter) removes the elements that
    are identical to the address at which its own parameter [value] lives,
    the next address the allocator hands out, whatever [value] is. *)
Lemma l_removeValue_spec m l ns vs value fuel :
  valid_mem m -> is_list m l ns vs ->
  match vs with [] => True | v0 :: _ => v0 <> brk m end ->
  (length vs < fuel)%nat ->
  exists m' L' ns',
    l_removeValue fuel l value m = Ok tt m' /\
    heap m' !! l = Some (OList L') /\
    chain (heap m') (LinkedList.head L') ns'
          (List.filter (fun v => negb (v =? brk m)) vs) NULL /\
    LinkedList.size L' = Z.of_nat (length (List.filter (fun v => negb (v =? brk m)) vs)).
Proof.
  intros Hv Hlist Hfirst Hf.
  destruct (is_list_below_brk _ _ _ _ Hv Hlist) as [Hlb Hnb].
  assert (Hb : brk m <> NULL) by now apply valid_mem_brk.
  set (b := brk m) in *.
  set (m1 := Mem (<[b := OArray [Some value]]> (heap m)) (b + 1) (trace m)).
  assert (Hlist1 : is_list m1 l ns vs).
  { apply is_list_frame with m; [exact Hlist|..].
    - cbn. apply lookup_insert_ne. lia.
    - intros n Hn. cbn. apply lookup_insert_ne. specialize (Hnb n Hn). lia. }
  destruct (l_removeIf_spec m1 l ns vs (c_predicate equality b) fuel Hlist1)
    as (m2 & L2 & ns2 & Hrun & HL2 & Hc2 & Hsz2 & _ & Hfr2 & _ & _).
  { destruct vs as [|v0 vs]; [exact I|]. unfold accepts, c_predicate, equality. cbn.
    now apply Z.eqb_neq. }
  { exact Hf. }
  assert (Hslot : heap m2 !! b = Some (OArray [Some value])).
  { rewrite Hfr2; [apply lookup_insert_eq | lia |].
    intros Hin. specialize (Hnb b Hin). lia. }
  exists (Mem (delete b (heap m2)) (brk m2) (trace m2)), L2, ns2.
  split; [|split; [|split]].
  - unfold l_removeValue, addressable.
    rewrite (bind_ok _ _ _ _ _ (malloc_ok _ m)). fold b m1.
    rewrite (bind_ok _ _ _ _ _ Hrun).
    now apply free_ok with (OArray [Some value]).
  - cbn [heap]. rewrite lookup_delete_ne; [exact HL2 | lia].
  - cbn [heap]. apply chain_frame with (heap m2); [exact Hc2|].
    intros n Hn. apply lookup_delete_ne.
    intros <-. destruct (chain_node _ _ _ _ _ _ Hc2 Hn) as [N HN]. congruence.
  - exact Hsz2.
Qed.

(** C3, on the code: the value forms hand [&value], the address of their own
    parameter, to [equality], which compares it with the elements as it
    stands.  On [[1; 2; 2; 3; 2]], [l_removeValue(list, 2)] removes nothing,
    [l_contains(list, 2)] is false and [l_firstIndexOf(list, 2)] is -1, while
    the predicate forms on identity with 2 remove the three elements, answer
    true, and find index 1. *)
Theorem value_forms_compare_with_parameter_address :
  l_removeValue 6 1000 2 mem_1_2_2_3_2 = Ok tt (Mem (heap mem_1_2_2_3_2) 1007 []) /\
  l_removeIf 6 1000 (c_predicate equality 2) mem_1_2_2_3_2 = Ok tt mem_1_3 /\
  l_contains 6 1000 2 mem_1_2_2_3_2 = Ok false (Mem (heap mem_1_2_2_3_2) 1007 []) /\
  l_matches 6 1000 (c_predicate equality 2) mem_1_2_2_3_2 = Ok true mem_1_2_2_3_2 /\
  l_firstIndexOf 6 1000 2 mem_1_2_2_3_2 = Ok (-1) (Mem (heap mem_1_2_2_3_2) 1007 []) /\
  l_findFirst 6 1000 (c_predicate equality 2) mem_1_2_2_3_2 = Ok 1 mem_1_2_2_3_2.
Proof. repeat split; vm_compute; reflexivity. Qed.

(** ** The structural invariant after a removal through an iterator *)

(** C4, on the code: the list [[1; 2]], built by [l_create] and two
    [l_addLast], satisfies the invariant; after two [next()] and a
    [remove()] through an iterator, the size is 1 and the only node left is
    the head at 1001, but the tail reference is still 1002: following [next]
    from the head zero times does not reach the tail. *)
Theorem invariant_broken_by_i_remove :
  list_and_iterator [1; 2] 2 initial_mem
    = Ok (1000, Iterator.mk 1001 1002 NULL 1000 1) mem_1_2 /\
  invariant mem_1_2 1000 /\
  i_remove (Iterator.mk 1001 1002 NULL 1000 1) mem_1_2
    = Ok (2, Iterator.mk 1001 NULL NULL 1000 1) mem_1_stale_tail /\
  ~ invariant mem_1_stale_tail 1000.
Proof.
  split; [vm_compute; reflexivity|].
  split.
  { exists (LinkedList.mk 1001 1002 Fdestructor 2).
    split; [vm_compute; reflexivity|].
    cbn [LinkedList.head LinkedList.tail LinkedList.size].
    repeat split; try discriminate; try (vm_compute; reflexivity). }
  split; [vm_compute; reflexivity|].
  intros (L & HL & _ & _ & _ & Ht & _).
  vm_compute in HL. injection HL as <-.
  cbn [LinkedList.head LinkedList.tail LinkedList.size] in Ht.
  specialize (Ht ltac:(discriminate)). vm_compute in Ht. discriminate.
Qed.

(** ** Search *)

Section Search.

Variable m : mem.
Variable selector : Predicate.t.

Local Abbreviation P := (accepts selector).

(** [l_findFirst]'s loop over what is left of the list: without a match it
    runs to the end and answers -1; with a first match at offset [k] it
    answers that element's index and the iterator stands on it. *)
Lemma l_findFirst_loop_spec vs :
  forall ns itr fuel,
    chain (heap m) (Iterator.next itr) ns vs NULL ->
    -1 <= Iterator.index itr ->
    Iterator.index itr + Z.of_nat (length vs) <= INT_MAX ->
    (length vs < fuel)%nat ->
    exists r itr',
      l_findFirst_loop fuel selector itr (-1) m = Ok (r, itr') m /\
      ((r = -1 /\ Iterator.next itr' = NULL /\ forall v, v ∈ vs -> P v = false) \/
       (exists k v,
           r = Iterator.index itr + 1 + Z.of_nat k /\
           Iterator.index itr' = r /\
           vs !! k = Some v /\ P v = true /\
           forall j w, (j < k)%nat -> vs !! j = Some w -> P w = false)).
Proof.
  induction vs as [|v vs IH]; intros ns itr fuel Hc Hi Hmax Hf.
  - apply chain_nil_inv in Hc as [-> Hn].
    destruct fuel as [|fuel]; [cbn in Hf; lia|].
    exists (-1), itr. split.
    + cbn [l_findFirst_loop]. now rewrite (i_hasNext_false _ Hn).
    + left. repeat split; auto. intros v Hv. inversion Hv.
  - apply chain_cons_inv in Hc as (ns' & nx & -> & Hn & Hh & Hc).
    destruct fuel as [|fuel]; [cbn in Hf; lia|].
    cbn [length] in Hmax, Hf.
    assert (Hr : INT_MIN <= Iterator.index itr + 1 <= INT_MAX)
      by (unfold INT_MIN, INT_MAX in *; lia).
    cbn [l_findFirst_loop]. rewrite (i_hasNext_true _ Hn), Z.eqb_refl. cbn [andb].
    rewrite (bind_ok _ _ _ _ _ (i_next_ok _ _ _ _ Hn Hh Hr)).
    set (itr1 := Iterator.mk _ _ _ _ _).
    fold (accepts selector v). destruct (accepts selector v) eqn:HP.
    + (* match: the next round leaves the loop *)
      exists (Iterator.index itr + 1), itr1. split.
      * destruct fuel as [|fuel]; [lia|].
        cbn [l_findFirst_loop Iterator.index itr1].
        destruct (Z.eqb_spec (Iterator.index itr + 1) (-1)); [lia|].
        now rewrite andb_false_r.
      * right. exists 0%nat, v. repeat split; auto; [lia|]. intros j w Hj. lia.
    + destruct (IH ns' itr1 fuel) as (r & itr' & Hrun & Hres);
        [exact Hc | cbn; lia | cbn; lia | lia |].
      exists r, itr'. split; [exact Hrun|].
      destruct Hres as [(-> & Hend & Hnone)|(k & w & -> & Hidx & Hk & Hw & Hbefore)].
      * left. repeat split; auto. intros x Hx.
        apply elem_of_cons in Hx as [->|Hx]; [exact HP | auto].
      * right. exists (S k), w. cbn [Iterator.index itr1] in *.
        repeat split; auto; [lia|].
        intros [|j] x Hj Hx; cbn in Hx;
          [injection Hx as <-; exact HP | eapply Hbefore; eauto; lia].
Qed.

(** [l_findLast]'s loop: it always runs to the end; the answer is the index
    of the last match in what was left, or the index it started with. *)
Lemma l_findLast_loop_spec vs :
  forall ns itr index fuel,
    chain (heap m) (Iterator.next itr) ns vs NULL ->
    -1 <= Iterator.index itr ->
    Iterator.index itr + Z.of_nat (length vs) <= INT_MAX ->
    (length vs < fuel)%nat ->
    exists r itr',
      l_findLast_loop fuel selector itr index m = Ok (r, itr') m /\
      Iterator.next itr' = NULL /\
      ((r = index /\ forall v, v ∈ vs -> P v = false) \/
       (exists k v,
           r = Iterator.index itr + 1 + Z.of_nat k /\
           vs !! k = Some v /\ P v = true /\
           forall j w, (k < j)%nat -> vs !! j = Some w -> P w = false)).
Proof.
  induction vs as [|v vs IH]; intros ns itr index fuel Hc Hi Hmax Hf.
  - apply chain_nil_inv in Hc as [-> Hn].
    destruct fuel as [|fuel]; [cbn in Hf; lia|].
    exists index, itr. split; [|split; [exact Hn|]].
    + cbn [l_findLast_loop]. now rewrite (i_hasNext_false _ Hn).
    + left. split; auto. intros v Hv. inversion Hv.
  - apply chain_cons_inv in Hc as (ns' & nx & -> & Hn & Hh & Hc).
    destruct fuel as [|fuel]; [cbn in Hf; lia|].
    cbn [length] in Hmax, Hf.
    assert (Hr : INT_MIN <= Iterator.index itr + 1 <= INT_MAX)
      by (unfold INT_MIN, INT_MAX in *; lia).
    cbn [l_findLast_loop]. rewrite (i_hasNext_true _ Hn).
    rewrite (bind_ok _ _ _ _ _ (i_next_ok _ _ _ _ Hn Hh Hr)).
    set (itr1 := Iterator.mk _ _ _ _ _).
    fold (accepts selector v). destruct (accepts selector v) eqn:HP.
    + destruct (IH ns' itr1 (Iterator.index itr1) fuel) as (r & itr' & Hrun & Hend & Hres);
        [exact Hc | cbn; lia | cbn; lia | lia |].
      exists r, itr'. split; [exact Hrun|]. split; [exact Hend|].
      right. cbn [Iterator.index itr1] in *.
      destruct Hres as [(-> & Hnone)|(k & w & -> & Hk & Hw & Hafter)].
      * exists 0%nat, v. repeat split; auto; [lia|].
        intros [|j] x Hj Hx; [lia|]. cbn in Hx.
        apply Hnone. eapply list_elem_of_lookup_2; eauto.
      * exists (S k), w. repeat split; auto; [lia|].
        intros [|j] x Hj Hx; [lia|]. cbn in Hx. apply (Hafter j x); [lia | exact Hx].
    + destruct (IH ns' itr1 index fuel) as (r & itr' & Hrun & Hend & Hres);
        [exact Hc | cbn; lia | cbn; lia | lia |].
      exists r, itr'. split; [exact Hrun|]. split; [exact Hend|].
      cbn [Iterator.index itr1] in *.
      destruct Hres as [(-> & Hnone)|(k & w & -> & Hk & Hw & Hafter)].
      * left. split; auto. intros x Hx.
        apply elem_of_cons in Hx as [->|Hx]; [exact HP | auto].
      * right. exists (S k), w. repeat split; auto; [lia|].
        intros [|j] x Hj Hx; [lia|]. cbn in Hx. apply (Hafter j x); [lia | exact Hx].
Qed.

End Search.

(** C9: on a well-formed list and with enough fuel for its length,
    [l_findFirst] returns the index of the first element the predicate
    accepts, and its loop leaves the iterator standing on that element (it
    has not read past the match); [l_findLast] returns the index of the last
    element the predicate accepts, after a loop that has run the iterator to
    the end of the list; both return -1 when the predicate accepts no
    element.  Neither changes the memory. *)
Theorem l_findFirst_l_findLast_spec m l ns vs selector fuel :
  is_list m l ns vs -> (length vs < fuel)%nat ->
  let P := accepts selector in
  exists itr0, l_iterator l m = Ok itr0 m /\
    (exists r itr',
        l_findFirst_loop fuel selector itr0 (-1) m = Ok (r, itr') m /\
        l_findFirst fuel l selector m = Ok r m /\
        ((r = -1 /\ forall v, v ∈ vs -> P v = false) \/
         (exists v, 0 <= r /\ vs !! Z.to_nat r = Some v /\ P v = true /\
                    (forall j w, (j < Z.to_nat r)%nat -> vs !! j = Some w -> P w = false) /\
                    Iterator.index itr' = r))) /\
    (exists r itr',
        l_findLast_loop fuel selector itr0 (-1) m = Ok (r, itr') m /\
        l_findLast fuel l selector m = Ok r m /\
        Iterator.next itr' = NULL /\
        ((r = -1 /\ forall v, v ∈ vs -> P v = false) \/
         (exists v, 0 <= r /\ vs !! Z.to_nat r = Some v /\ P v = true /\
                    (forall j w, (Z.to_nat r < j)%nat -> vs !! j = Some w -> P w = false)))).
Proof.
  intros (Hl & L & HL & Hc & _ & _ & Hs & Hmax) Hf P.
  exists (Iterator.mk NULL NULL (LinkedList.head L) l (-1)).
  assert (Hitr : l_iterator l m = Ok (Iterator.mk NULL NULL (LinkedList.head L) l (-1)) m).
  { unfold l_iterator. step. reflexivity. }
  split; [exact Hitr|]. split.
  - destruct (l_findFirst_loop_spec m selector vs ns
                (Iterator.mk NULL NULL (LinkedList.head L) l (-1)) fuel)
      as (r & itr' & Hrun & Hres); [exact Hc | cbn; lia | cbn; lia | exact Hf |].
    exists r, itr'. split; [exact Hrun|]. split.
    + unfold l_findFirst. rewrite (bind_ok _ _ _ _ _ Hitr).
      now rewrite (bind_ok _ _ _ _ _ Hrun).
    + cbn [Iterator.index] in Hres.
      destruct Hres as [(-> & _ & Hnone)|(k & v & -> & Hidx & Hk & Hv & Hbefore)].
      * left. now split.
      * right. exists v. replace (Z.to_nat (-1 + 1 + Z.of_nat k)) with k by lia.
        repeat split; auto. lia.
  - destruct (l_findLast_loop_spec m selector vs ns
                (Iterator.mk NULL NULL (LinkedList.head L) l (-1)) (-1) fuel)
      as (r & itr' & Hrun & Hend & Hres); [exact Hc | cbn; lia | cbn; lia | exact Hf |].
    exists r, itr'. split; [exact Hrun|]. split; [|split; [exact Hend|]].
    + unfold l_findLast. rewrite (bind_ok _ _ _ _ _ Hitr).
      now rewrite (bind_ok _ _ _ _ _ Hrun).
    + cbn [Iterator.index] in Hres.
      destruct Hres as [(-> & Hnone)|(k & v & -> & Hk & Hv & Hafter)].
      * left. now split.
      * right. exists v. replace (Z.to_nat (-1 + 1 + Z.of_nat k)) with k by lia.
        repeat split; auto. lia.
Qed.

Lemma l_findFirst_l_findLast_spec_witness :
  is_list mem_1_2_2_3_2 1000 [1001; 1002; 1003; 1004; 1005] [1; 2; 2; 3; 2] /\
  (length [1; 2; 2; 3; 2] < 6)%nat /\
  exists itr0, l_iterator 1000 mem_1_2_2_3_2 = Ok itr0 mem_1_2_2_3_2 /\
    (exists r itr',
        l_findFirst_loop 6 (c_predicate equality 2) itr0 (-1) mem_1_2_2_3_2
          = Ok (r, itr') mem_1_2_2_3_2 /\
        l_findFirst 6 1000 (c_predicate equality 2) mem_1_2_2_3_2 = Ok r mem_1_2_2_3_2 /\
        ((r = -1 /\ forall v, v ∈ [1; 2; 2; 3; 2] -> equality v 2 = false) \/
         (exists v, 0 <= r /\ [1; 2; 2; 3; 2] !! Z.to_nat r = Some v /\ equality v 2 = true /\
                    (forall j w, (j < Z.to_nat r)%nat -> [1; 2; 2; 3; 2] !! j = Some w ->
                                 equality w 2 = false) /\
                    Iterator.index itr' = r))) /\
    (exists r itr',
        l_findLast_loop 6 (c_predicate equality 2) itr0 (-1) mem_1_2_2_3_2
          = Ok (r, itr') mem_1_2_2_3_2 /\
        l_findLast 6 1000 (c_predicate equality 2) mem_1_2_2_3_2 = Ok r mem_1_2_2_3_2 /\
        Iterator.next itr' = NULL /\
        ((r = -1 /\ forall v, v ∈ [1; 2; 2; 3; 2] -> equality v 2 = false) \/
         (exists v, 0 <= r /\ [1; 2; 2; 3; 2] !! Z.to_nat r = Some v /\ equality v 2 = true /\
                    (forall j w, (Z.to_nat r < j)%nat -> [1; 2; 2; 3; 2] !! j = Some w ->
                                 equality w 2 = false)))).
Proof.
  split; [exact is_list_1_2_2_3_2|].
  split; [cbn; lia|].
  apply (l_findFirst_l_findLast_spec mem_1_2_2_3_2 1000 [1001; 1002; 1003; 1004; 1005]
           [1; 2; 2; 3; 2] (c_predicate equality 2) 6).
  - exact is_list_1_2_2_3_2.
  - cbn. lia.
Defined.

(** ** Equality of two lists *)

Lemma same_prefix_eq vs1 vs2 :
  (Z.of_nat (length vs1) =? Z.of_nat (length vs2)) && same_prefix vs1 vs2
  = bool_decide (vs1 = vs2).
Proof.
  revert vs2. induction vs1 as [|v1 vs1 IH]; intros [|v2 vs2]; cbn [length same_prefix].
  - reflexivity.
  - destruct (Z.eqb_spec (Z.of_nat 0) (Z.of_nat (S (length vs2)))); [lia|].
    cbn [andb]. symmetry. now apply bool_decide_eq_false.
  - destruct (Z.eqb_spec (Z.of_nat (S (length vs1))) (Z.of_nat 0)); [lia|].
    cbn [andb]. symmetry. now apply bool_decide_eq_false.
  - specialize (IH vs2).
    destruct (Z.eqb_spec (Z.of_nat (S (length vs1))) (Z.of_nat (S (length vs2)))) as [He|Hne].
    + destruct (Z.eqb_spec (Z.of_nat (length vs1)) (Z.of_nat (length vs2))); [|lia].
      cbn [andb] in *. destruct (Z.eqb_spec v1 v2) as [->|Hv]; cbn [andb].
      * rewrite IH. apply bool_decide_ext. split; congruence.
      * symmetry. apply bool_decide_eq_false. congruence.
    + cbn [andb]. symmetry. apply bool_decide_eq_false. intros [= -> ->]. lia.
Qed.

Lemma l_equal_loop_spec m vs1 :
  forall vs2 ns1 ns2 itr1 itr2 equal fuel,
    chain (heap m) (Iterator.next itr1) ns1 vs1 NULL ->
    chain (heap m) (Iterator.next itr2) ns2 vs2 NULL ->
    -1 <= Iterator.index itr1 -> Iterator.index itr1 + Z.of_nat (length vs1) <= INT_MAX ->
    -1 <= Iterator.index itr2 -> Iterator.index itr2 + Z.of_nat (length vs2) <= INT_MAX ->
    (length vs1 < fuel)%nat ->
    l_equal_loop fuel itr1 itr2 equal m = Ok (equal && same_prefix vs1 vs2) m.
Proof.
  induction vs1 as [|v1 vs1 IH];
    intros vs2 ns1 ns2 itr1 itr2 equal fuel Hc1 Hc2 Hi1 Hm1 Hi2 Hm2 Hf.
  - apply chain_nil_inv in Hc1 as [-> Hn].
    destruct fuel as [|fuel]; [cbn in Hf; lia|].
    cbn [l_equal_loop same_prefix]. rewrite (i_hasNext_false _ Hn). cbn [andb].
    now rewrite andb_true_r.
  - apply chain_cons_inv in Hc1 as (ns1' & nx1 & -> & Hn1 & Hh1 & Hc1).
    destruct fuel as [|fuel]; [cbn in Hf; lia|].
    cbn [length] in Hm1, Hf.
    cbn [l_equal_loop]. rewrite (i_hasNext_true _ Hn1). cbn [andb].
    destruct vs2 as [|v2 vs2].
    + apply chain_nil_inv in Hc2 as [-> Hn2].
      rewrite (i_hasNext_false _ Hn2). cbn [andb same_prefix].
      now rewrite andb_true_r.
    + apply chain_cons_inv in Hc2 as (ns2' & nx2 & -> & Hn2 & Hh2 & Hc2).
      cbn [length] in Hm2.
      rewrite (i_hasNext_true _ Hn2). cbn [andb same_prefix].
      destruct equal; cbn [andb]; [|reflexivity].
      assert (Hr1 : INT_MIN <= Iterator.index itr1 + 1 <= INT_MAX)
        by (unfold INT_MIN, INT_MAX in *; lia).
      assert (Hr2 : INT_MIN <= Iterator.index itr2 + 1 <= INT_MAX)
        by (unfold INT_MIN, INT_MAX in *; lia).
      rewrite (bind_ok _ _ _ _ _ (i_next_ok _ _ _ _ Hn1 Hh1 Hr1)).
      rewrite (bind_ok _ _ _ _ _ (i_next_ok _ _ _ _ Hn2 Hh2 Hr2)).
      erewrite IH; [reflexivity | exact Hc1 | exact Hc2 | cbn; lia .. | lia].
Qed.

(** [l_equal] on two well-formed lists answers whether they carry the same
    values in the same order, and changes nothing. *)
Lemma l_equal_spec m l1 ns1 vs1 l2 ns2 vs2 fuel :
  is_list m l1 ns1 vs1 -> is_list m l2 ns2 vs2 -> (length vs1 < fuel)%nat ->
  l_equal fuel l1 l2 m = Ok (bool_decide (vs1 = vs2)) m.
Proof.
  intros (Hl1 & L1 & HL1 & Hc1 & _ & _ & Hs1 & Hmax1)
         (Hl2 & L2 & HL2 & Hc2 & _ & _ & Hs2 & Hmax2) Hf.
  unfold l_equal, l_iterator. do 6 step.
  erewrite l_equal_loop_spec; [|exact Hc1|exact Hc2|cbn; lia..|exact Hf].
  now rewrite Hs1, Hs2, same_prefix_eq.
Qed.

(** ** From a list to an array and back *)

(** [l_toArray]'s loop: with the cells [pre] already written and the values
    [vs] still ahead of the iterator, it fills the rest of the array. *)
Lemma l_toArray_loop_spec a b t vs :
  forall ns itr fuel pre h,
    chain h (Iterator.next itr) ns vs NULL ->
    a ∉ ns -> a <> NULL ->
    h !! a = Some (OArray (pre ++ replicate (length vs) None)) ->
    -1 <= Iterator.index itr ->
    Iterator.index itr + Z.of_nat (length vs) <= INT_MAX ->
    (length vs < fuel)%nat ->
    l_toArray_loop fuel a itr (Z.of_nat (length pre)) (Mem h b t)
    = Ok tt (Mem (<[a := OArray (pre ++ (Some <$> vs))]> h) b t).
Proof.
  induction vs as [|v vs IH]; intros ns itr fuel pre h Hc Ha Hnull Hh Hi Hmax Hf.
  - apply chain_nil_inv in Hc as [-> Hn].
    destruct fuel as [|fuel]; [cbn in Hf; lia|].
    cbn [l_toArray_loop]. rewrite (i_hasNext_false _ Hn).
    cbn [replicate length fmap list_fmap] in *. now rewrite insert_id.
  - apply chain_cons_inv in Hc as (ns' & nx & -> & Hn & Hnode & Hc).
    destruct fuel as [|fuel]; [cbn in Hf; lia|].
    cbn [length] in Hmax, Hf.
    assert (Hr : INT_MIN <= Iterator.index itr + 1 <= INT_MAX)
      by (unfold INT_MIN, INT_MAX in *; lia).
    cbn [l_toArray_loop]. rewrite (i_hasNext_true _ Hn).
    rewrite (bind_ok _ _ _ _ _ (i_next_ok (Mem h b t) _ _ _ Hn Hnode Hr)).
    set (itr1 := Iterator.mk _ _ _ _ _).
    assert (Hbound : 0 <= Z.of_nat (length pre)
                     < Z.of_nat (length (pre ++ replicate (length (v :: vs)) None)))
      by (rewrite length_app, length_replicate; cbn [length]; lia).
    rewrite (bind_ok _ _ _ _ _ (array_set_ok a _ _ v (Mem h b t) Hnull Hh Hbound)).
    cbn [heap brk trace].
    replace (Z.of_nat (length pre) + 1) with (Z.of_nat (length (pre ++ [Some v])))
      by (rewrite length_app; cbn; lia).
    rewrite Nat2Z.id. cbn [replicate length].
    rewrite insert_app_r_alt by lia. rewrite Nat.sub_diag. cbn [insert list_insert].
    erewrite (IH ns' itr1 fuel (pre ++ [Some v])).
    + rewrite insert_insert_eq. cbn [fmap list_fmap].
      now rewrite <- app_assoc.
    + apply chain_frame with h; [exact Hc|].
      intros n Hn'. apply lookup_insert_ne. intros ->. apply Ha.
      apply elem_of_cons. now right.
    + intros Hin. apply Ha. apply elem_of_cons. now right.
    + exact Hnull.
    + rewrite lookup_insert_eq. now rewrite <- app_assoc.
    + cbn. lia.
    + cbn. lia.
    + lia.
Qed.

Lemma l_toArray_spec m l ns vs fuel :
  valid_mem m -> is_list m l ns vs -> (length vs < fuel)%nat ->
  l_toArray fuel l m
  = Ok (brk m) (Mem (<[brk m := OArray (Some <$> vs)]> (heap m)) (brk m + 1) (trace m)).
Proof.
  intros Hv (Hl & L & HL & Hc & _ & _ & Hs & Hmax) Hf.
  assert (Hb : brk m <> NULL) by now apply valid_mem_brk.
  assert (Hfresh : forall p, is_Some (heap m !! p) -> p <> brk m)
    by (intros p; now apply valid_mem_fresh).
  unfold l_toArray, l_iterator. do 4 step.
  rewrite Hs, Nat2Z.id.
  assert (Hns : brk m ∉ ns).
  { intros Hin. apply (Hfresh (brk m)); [|reflexivity]. eapply chain_live; eauto. }
  set (h1 := <[brk m := OArray (replicate (length vs) None)]> (heap m)).
  assert (Hc1 : chain h1 (LinkedList.head L) ns vs NULL).
  { apply chain_frame with (heap m); [exact Hc|].
    intros n Hn. apply lookup_insert_ne. intros <-. contradiction. }
  assert (Ha1 : h1 !! brk m = Some (OArray ([] ++ replicate (length vs) None)))
    by apply lookup_insert_eq.
  rewrite (bind_ok _ _ _ _ _
             (l_toArray_loop_spec (brk m) (brk m + 1) (trace m) vs ns
                (Iterator.mk NULL NULL (LinkedList.head L) l (-1)) fuel [] h1
                Hc1 Hns Hb Ha1 ltac:(cbn; lia) ltac:(cbn; lia) Hf)).
  cbn [app]. unfold ret, h1. now rewrite insert_insert_eq.
Qed.

(** [l_addArray]'s loop: with the cells [pre] already copied into the list
    and the cells [suf] still to go, it appends [suf]. *)
Lemma l_addArray_loop_spec l array suf :
  forall pre ns built m,
    valid_mem m -> is_list m l ns built ->
    array <> NULL -> array <> l -> array ∉ ns ->
    heap m !! array = Some (OArray (Some <$> (pre ++ suf))) ->
    Z.of_nat (length built) + Z.of_nat (length suf) <= INT_MAX ->
    exists m' ns',
      l_addArray_loop (length suf) l array (Z.of_nat (length pre)) m = Ok tt m' /\
      is_list m' l ns' (built ++ suf) /\
      valid_mem m' /\
      forall p, p <> l -> p ∉ ns -> p < brk m -> heap m' !! p = heap m !! p.
Proof.
  induction suf as [|v suf IH]; intros pre ns built m Hv Hlist Ha Hal Hans Harr Hlen.
  - exists m, ns. split; [reflexivity|]. rewrite app_nil_r. auto.
  - cbn [length] in Hlen.
    destruct (l_addLast_spec m l ns built v Hv Hlist ltac:(lia))
      as (m1 & Hrun & Hlist1 & Hv1 & Hbrk1 & _ & Hframe1).
    assert (Hab : array <> brk m) by (apply valid_mem_fresh; eauto).
    assert (Harr1 : heap m1 !! array = Some (OArray (Some <$> ((pre ++ [v]) ++ suf)))).
    { rewrite Hframe1 by auto. now rewrite <- app_assoc. }
    destruct (IH (pre ++ [v]) (ns ++ [brk m]) (built ++ [v]) m1)
      as (m2 & ns2 & Hrun2 & Hlist2 & Hv2 & Hframe2); auto.
    { intros Hin. apply elem_of_app in Hin as [Hin|Hin]; [contradiction|].
      apply list_elem_of_singleton in Hin. contradiction. }
    { rewrite length_app. cbn [length]. lia. }
    exists m2, ns2. split; [|split; [|split; [exact Hv2|]]].
    + cbn [l_addArray_loop length].
      erewrite (bind_ok _ _ _ _ _ (array_get_ok array _ _ v m Ha Harr _ _)).
      rewrite (bind_ok _ _ _ _ _ Hrun).
      replace (Z.of_nat (length pre) + 1) with (Z.of_nat (length (pre ++ [v])))
        by (rewrite length_app; cbn [length]; lia).
      exact Hrun2.
    + now rewrite <- app_assoc in Hlist2.
    + intros p Hp Hpn Hpb. rewrite Hframe2, Hframe1; auto; try lia.
      intros Hin. apply elem_of_app in Hin as [Hin|Hin]; [contradiction|].
      apply list_elem_of_singleton in Hin. lia.
  Unshelve.
  * lia.
  * rewrite Nat2Z.id, list_lookup_fmap, lookup_app_r by lia.
    rewrite Nat.sub_diag. reflexivity.
Qed.

Lemma l_fromArray_spec m array vs :
  valid_mem m -> array <> NULL ->
  heap m !! array = Some (OArray (Some <$> vs)) ->
  Z.of_nat (length vs) <= INT_MAX ->
  exists m' ns',
    l_fromArray array (Z.of_nat (length vs)) m = Ok (brk m) m' /\
    is_list m' (brk m) ns' vs /\
    valid_mem m' /\
    forall p, p < brk m -> heap m' !! p = heap m !! p.
Proof.
  intros Hv Ha Harr Hlen.
  destruct (l_create_spec m Hv) as (m1 & Hrun1 & Hlist1 & Hv1 & Hbrk1 & Hframe1).
  assert (Hab : array <> brk m) by (apply valid_mem_fresh; eauto).
  destruct (l_addArray_loop_spec (brk m) array vs [] [] [] m1)
    as (m2 & ns2 & Hrun2 & Hlist2 & Hv2 & Hframe2); auto.
  { intros Hin. inversion Hin. }
  { now rewrite Hframe1. }
  exists m2, ns2. split; [|split; [exact Hlist2|split; [exact Hv2|]]].
  - unfold l_fromArray, l_addArray. rewrite (bind_ok _ _ _ _ _ Hrun1).
    rewrite Nat2Z.id. now rewrite (bind_ok _ _ _ _ _ Hrun2).
  - intros p Hp. rewrite Hframe2, Hframe1; auto; try lia.
    intros Hin. inversion Hin.
Qed.

(** For a size of 0, [l_fromArray] never looks at the array: whatever
    [malloc] returned for the zero-sized array in [l_toArray], the result is
    a new empty list. *)
Lemma l_fromArray_empty array m : l_fromArray array 0 m = l_create m.
Proof. reflexivity. Qed.

(** C8: for every well-formed list [l] carrying the values [vs], with enough
    fuel for its length: [l_toArray] returns an array, [l_fromArray] on that
    array and the list's size returns a new well-formed list carrying the
    same values [vs], the original list is still in place, and [l_equal] on
    the new list and the original answers true.  In general [l_equal] on two
    well-formed lists answers true exactly when they carry the same values
    in the same order (hence have the same length). *)
Theorem l_fromArray_l_toArray_equal m l ns vs fuel :
  valid_mem m -> is_list m l ns vs -> (length vs < fuel)%nat ->
  (exists array m1 l' m2 ns',
      l_toArray fuel l m = Ok array m1 /\
      get_size l m1 = Ok (Z.of_nat (length vs)) m1 /\
      l_fromArray array (Z.of_nat (length vs)) m1 = Ok l' m2 /\
      is_list m2 l' ns' vs /\
      is_list m2 l ns vs /\
      l_equal fuel l' l m2 = Ok true m2) /\
  (forall l2 ns2 vs2,
      is_list m l2 ns2 vs2 ->
      exists b, l_equal fuel l l2 m = Ok b m /\ (b = true <-> vs = vs2)).
Proof.
  intros Hv Hlist Hf. split.
  - pose proof (l_toArray_spec m l ns vs fuel Hv Hlist Hf) as Hta.
    set (m1 := Mem (<[brk m := OArray (Some <$> vs)]> (heap m)) (brk m + 1) (trace m)) in *.
    assert (Hv1 : valid_mem m1) by now apply valid_mem_malloc.
    destruct (is_list_below_brk _ _ _ _ Hv Hlist) as [Hlb Hnb].
    assert (Hlist1 : is_list m1 l ns vs).
    { apply is_list_frame with m; [exact Hlist|..].
      - cbn. apply lookup_insert_ne. lia.
      - intros n Hn. cbn. apply lookup_insert_ne. specialize (Hnb n Hn). lia. }
    assert (Hmax : Z.of_nat (length vs) <= INT_MAX).
    { destruct Hlist as (_ & L & _ & _ & _ & _ & Hs & Hm). now rewrite <- Hs. }
    destruct (l_fromArray_spec m1 (brk m) vs Hv1) as (m2 & ns2 & Hfa & Hlist2 & Hv2 & Hframe);
      [now apply valid_mem_brk | apply lookup_insert_eq | exact Hmax |].
    assert (Hlist1' : is_list m2 l ns vs).
    { apply is_list_frame with m1; [exact Hlist1|..].
      - apply Hframe. cbn. lia.
      - intros n Hn. apply Hframe. specialize (Hnb n Hn). cbn. lia. }
    exists (brk m), m1, (brk m1), m2, ns2.
    split; [exact Hta|]. split.
    { destruct Hlist1 as (Hl & L & HL & _ & _ & _ & Hs & _).
      rewrite <- Hs. now apply get_size_ok. }
    split; [exact Hfa|]. split; [exact Hlist2|]. split; [exact Hlist1'|].
    rewrite (l_equal_spec m2 (brk m1) ns2 vs l ns vs fuel Hlist2 Hlist1' Hf).
    now rewrite bool_decide_eq_true_2.
  - intros l2 ns2 vs2 Hlist2. exists (bool_decide (vs = vs2)).
    split; [now apply l_equal_spec with ns ns2|].
    apply bool_decide_eq_true.
Qed.

Lemma l_fromArray_l_toArray_equal_witness :
  valid_mem mem_1_2_2_3_2 /\
  is_list mem_1_2_2_3_2 1000 [1001; 1002; 1003; 1004; 1005] [1; 2; 2; 3; 2] /\
  (length [1; 2; 2; 3; 2] < 6)%nat /\
  (exists array m1 l' m2 ns',
      l_toArray 6 1000 mem_1_2_2_3_2 = Ok array m1 /\
      get_size 1000 m1 = Ok (Z.of_nat (length [1; 2; 2; 3; 2])) m1 /\
      l_fromArray array (Z.of_nat (length [1; 2; 2; 3; 2])) m1 = Ok l' m2 /\
      is_list m2 l' ns' [1; 2; 2; 3; 2] /\
      is_list m2 1000 [1001; 1002; 1003; 1004; 1005] [1; 2; 2; 3; 2] /\
      l_equal 6 l' 1000 m2 = Ok true m2) /\
  (forall l2 ns2 vs2,
      is_list mem_1_2_2_3_2 l2 ns2 vs2 ->
      exists b, l_equal 6 1000 l2 mem_1_2_2_3_2 = Ok b mem_1_2_2_3_2 /\
                (b = true <-> [1; 2; 2; 3; 2] = vs2)).
Proof.
  split; [exact valid_mem_1_2_2_3_2|].
  split; [exact is_list_1_2_2_3_2|].
  split; [cbn; lia|].
  apply (l_fromArray_l_toArray_equal mem_1_2_2_3_2 1000 [1001; 1002; 1003; 1004; 1005]
           [1; 2; 2; 3; 2] 6).
  - exact valid_mem_1_2_2_3_2.
  - exact is_list_1_2_2_3_2.
  - cbn. lia.
Defined.

(** The round trip on [[1; 2; 2; 3; 2]], run. *)
Example round_trip_1_2_2_3_2 :
  (array <- l_toArray 6 1000 ;;
   s <- get_size 1000 ;;
   l' <- l_fromArray array s ;;
   equal <- l_equal 6 l' 1000 ;;
   ret (array, l', equal)) mem_1_2_2_3_2
  = Ok (1006, 1007, true)
       (Mem (list_to_map
               [(1000, OList (LinkedList.mk 1001 1005 Fdestructor 5));
                (1001, ONode (ListNode.mk 1 1002));
                (1002, ONode (ListNode.mk 2 1003));
                (1003, ONode (ListNode.mk 2 1004));
                (1004, ONode (ListNode.mk 3 1005));
                (1005, ONode (ListNode.mk 2 NULL));
                (1006, OArray [Some 1; Some 2; Some 2; Some 3; Some 2]);
                (1007, OList (LinkedList.mk 1008 1012 Fdestructor 5));
                (1008, ONode (ListNode.mk 1 1009));
                (1009, ONode (ListNode.mk 2 1010));
                (1010, ONode (ListNode.mk 2 1011));
                (1011, ONode (ListNode.mk 3 1012));
                (1012, ONode (ListNode.mk 2 NULL))])
            1013 []).
Proof. vm_compute. reflexivity. Qed.

(** ** More on chains: cutting, walking, writing a value *)

Lemma chain_split h ns1 : forall p vs1 ns2 vs2 q,
  length ns1 = length vs1 ->
  chain h p (ns1 ++ ns2) (vs1 ++ vs2) q ->
  exists r, chain h p ns1 vs1 r /\ chain h r ns2 vs2 q.
Proof.
  induction ns1 as [|n ns1 IH]; intros p [|v vs1] ns2 vs2 q Hlen Hc; try discriminate.
  - exists p. split; [reflexivity | exact Hc].
  - cbn [app chain] in Hc. destruct Hc as (-> & Hn & nx & Hh & Hc).
    destruct (IH nx vs1 ns2 vs2 q ltac:(cbn in Hlen; lia) Hc) as (r & H1 & H2).
    exists r. split; [|exact H2]. cbn. repeat split; auto. now exists nx.
Qed.

(** Following [next] as many times as a chain has nodes leads to its end. *)
Lemma follow_chain m ns : forall p vs r,
  chain (heap m) p ns vs r -> follow (length ns) p m = Ok r m.
Proof.
  induction ns as [|n ns IH]; intros p [|v vs] r; cbn [chain]; try tauto.
  - intros ->. reflexivity.
  - intros (-> & Hn & nx & Hh & Hc). cbn [length follow].
    rewrite (bind_ok _ _ _ _ _ (get_next_ok _ _ _ Hn Hh)). cbn [ListNode.next].
    now apply IH with vs.
Qed.

(** The chain behind a position [i] of the values. *)
Lemma chain_at_index h p ns vs q i v :
  chain h p ns vs q -> vs !! i = Some v ->
  exists ns1 n ns2 vs1 vs2 nx,
    ns = ns1 ++ n :: ns2 /\ vs = vs1 ++ v :: vs2 /\
    length ns1 = i /\ length vs1 = i /\
    chain h p ns1 vs1 n /\ n <> NULL /\
    h !! n = Some (ONode (ListNode.mk v nx)) /\
    chain h nx ns2 vs2 q.
Proof.
  intros Hc Hv.
  pose proof (chain_length _ _ _ _ _ Hc) as Hlen.
  pose proof (lookup_lt_Some _ _ _ Hv) as Hi.
  destruct (lookup_lt_is_Some_2 ns i ltac:(lia)) as [n Hn].
  pose proof (take_drop_middle _ _ _ Hv) as Hvs.
  pose proof (take_drop_middle _ _ _ Hn) as Hns.
  assert (Hl1 : length (take i ns) = length (take i vs)) by (rewrite !length_take; lia).
  rewrite <- Hns, <- Hvs in Hc.
  destruct (chain_split _ _ _ _ _ _ _ Hl1 Hc) as (r & H1 & H2).
  cbn [chain] in H2. destruct H2 as (-> & Hnn & nx & Hh & H2).
  exists (take i ns), n, (drop (S i) ns), (take i vs), (drop (S i) vs), nx.
  rewrite !length_take. repeat split; auto; lia.
Qed.

(** The last node of a chain carries the last value and points at the end. *)
Lemma chain_last_node h p ns vs q :
  chain h p ns vs q -> ns <> [] ->
  vs <> [] /\ List.last ns NULL <> NULL /\
  h !! List.last ns NULL = Some (ONode (ListNode.mk (List.last vs NULL) q)).
Proof.
  revert p vs. induction ns as [|n ns IH]; intros p [|v vs]; cbn [chain]; try tauto.
  intros (-> & Hn & nx & Hh & Hc) _.
  destruct ns as [|n2 ns].
  - apply chain_no_nodes_inv in Hc as [-> ->]. cbn. repeat split; auto; discriminate.
  - destruct (IH nx vs Hc ltac:(discriminate)) as (Hvs & Hl & Hlast).
    destruct vs as [|v2 vs]; [congruence|].
    change (List.last (n :: n2 :: ns) NULL) with (List.last (n2 :: ns) NULL).
    change (List.last (v :: v2 :: vs) NULL) with (List.last (v2 :: vs) NULL).
    repeat split; auto; discriminate.
Qed.

(** Writing the value of one node of a chain changes that value only. *)
Lemma chain_set_value h ns1 n ns2 vs1 v vs2 p q v' nx :
  chain h p (ns1 ++ n :: ns2) (vs1 ++ v :: vs2) q ->
  NoDup (ns1 ++ n :: ns2) ->
  length ns1 = length vs1 ->
  h !! n = Some (ONode (ListNode.mk v nx)) ->
  chain (<[n := ONode (ListNode.mk v' nx)]> h) p (ns1 ++ n :: ns2) (vs1 ++ v' :: vs2) q.
Proof.
  intros Hc Hnd Hlen Hh.
  apply NoDup_app in Hnd as (_ & Hdisj & Hnd2).
  apply NoDup_cons in Hnd2 as [Hn2 _].
  assert (Hn1 : n ∉ ns1).
  { intros Hin. apply (Hdisj n Hin). apply elem_of_cons. now left. }
  destruct (chain_split _ _ _ _ _ _ _ Hlen Hc) as (r & H1 & H2).
  cbn [chain] in H2. destruct H2 as (-> & Hn & nx' & Hh' & H2).
  rewrite Hh in Hh'. injection Hh' as <-.
  apply chain_app with n.
  - apply chain_frame with h; [exact H1|].
    intros n' Hn'. apply lookup_insert_ne. intros ->. contradiction.
  - cbn [chain]. repeat split; auto. exists nx. split; [apply lookup_insert_eq|].
    apply chain_frame with h; [exact H2|].
    intros n' Hn'. apply lookup_insert_ne. intros ->. contradiction.
Qed.

(** ** Reading and replacing by position *)

Lemma lookup_last (vs : list Z) d :
  vs <> [] -> vs !! (length vs - 1)%nat = Some (List.last vs d).
Proof.
  induction vs as [|v vs IH]; [congruence|]. intros _.
  destruct vs as [|v2 vs]; [reflexivity|].
  change (List.last (v :: v2 :: vs) d) with (List.last (v2 :: vs) d).
  rewrite <- IH by discriminate. cbn [length].
  replace (S (S (length vs)) - 1)%nat with (S (S (length vs) - 1)) by lia. reflexivity.
Qed.

Lemma is_list_size m l ns vs :
  is_list m l ns vs ->
  exists L, l <> NULL /\ heap m !! l = Some (OList L) /\
    LinkedList.size L = Z.of_nat (length vs) /\
    0 <= LinkedList.size L <= INT_MAX /\ length ns = length vs.
Proof.
  intros (Hl & L & HL & Hc & _ & _ & Hs & Hmax). exists L.
  repeat split; auto; [lia|]. eapply chain_length; eauto.
Qed.

Lemma l_getLast_spec m l ns vs :
  is_list m l ns vs -> l_getLast l m = Ok (List.last vs NULL) m.
Proof.
  intros (Hl & L & HL & Hc & _ & Ht & Hs & Hmax).
  unfold l_getLast. step.
  destruct vs as [|v vs].
  - rewrite Hs. reflexivity.
  - assert (Hne : ns <> []) by (destruct ns; [cbn in Hc; tauto | discriminate]).
    destruct (chain_last_node _ _ _ _ _ Hc Hne) as (_ & Hn & Hlast).
    rewrite <- Ht in Hn, Hlast.
    rewrite (proj2 (Z.eqb_neq _ _)) by (rewrite Hs; cbn [length]; lia). cbn [negb].
    step. now rewrite (get_value_ok _ _ _ Hn Hlast).
Qed.

(** [l_get] as a function of the values: the element at the index, or
    [NULL] outside the range.  It never writes. *)
Lemma l_get_spec m l ns vs index :
  is_list m l ns vs ->
  l_get l index m
  = Ok (if 0 <=? index then default NULL (vs !! Z.to_nat index) else NULL) m.
Proof.
  intros Hlist.
  destruct (is_list_size _ _ _ _ Hlist) as (L & Hl & HL & Hs & Hr & Hlen).
  unfold l_get. step. step.
  destruct (Z.eqb_spec index (LinkedList.size L - 1)) as [He|Hne].
  - rewrite (l_getLast_spec _ _ _ _ Hlist). f_equal.
    destruct vs as [|v vs].
    + cbn [length] in Hs. destruct (Z.leb_spec 0 index); [lia|reflexivity].
    + destruct (Z.leb_spec 0 index); [|cbn [length] in Hs; lia].
      replace (Z.to_nat index) with (length (v :: vs) - 1)%nat by lia.
      now rewrite (lookup_last _ NULL) by discriminate.
  - destruct (Z.leb_spec 0 index) as [H0|H0]; cbn [andb]; [|reflexivity].
    destruct (Z.ltb_spec index (LinkedList.size L - 1)) as [H1|H1].
    + destruct (lookup_lt_is_Some_2 vs (Z.to_nat index) ltac:(lia)) as [v Hv].
      rewrite Hv. cbn [default].
      destruct Hlist as (_ & L' & HL' & Hc & _).
      rewrite HL in HL'. injection HL' as <-.
      destruct (chain_at_index _ _ _ _ _ _ _ Hc Hv)
        as (ns1 & n & ns2 & vs1 & vs2 & nx & -> & -> & Hl1 & Hl2 & Hc1 & Hn & Hh & Hc2).
      step. rewrite <- Hl1.
      rewrite (bind_ok _ _ _ _ _ (follow_chain _ _ _ _ _ Hc1)).
      now rewrite (get_value_ok _ _ _ Hn Hh).
    + rewrite lookup_ge_None_2 by lia. reflexivity.
Qed.

Lemma set_value_ok n N v m :
  n <> NULL -> heap m !! n = Some (ONode N) ->
  set_value n v m
  = Ok tt (Mem (<[n := ONode (ListNode.mk v (ListNode.next N))]> (heap m)) (brk m) (trace m)).
Proof.
  intros Hp Hl. unfold set_value.
  rewrite (bind_ok _ _ _ _ _ (node_at_ok _ _ _ Hp Hl)). now apply store_ok with (ONode N).
Qed.

Lemma set_destructor_ok l L f m :
  l <> NULL -> heap m !! l = Some (OList L) ->
  set_destructor l f m
  = Ok tt (Mem (<[l := OList (LinkedList.with_destructor f L)]> (heap m)) (brk m) (trace m)).
Proof.
  intros Hp Hl. unfold set_destructor.
  rewrite (bind_ok _ _ _ _ _ (list_at_ok _ _ _ Hp Hl)). now apply store_ok with (OList L).
Qed.

(** [step], extended to freed addresses and to the primitives the remaining
    operations use. *)
Ltac xlookup :=
  simpl_fields;
  repeat first [ rewrite lookup_insert_ne by congruence
               | rewrite lookup_delete_ne by congruence ];
  first [ apply lookup_insert_eq | eassumption ].

Ltac xside :=
  first [ assumption | congruence | xlookup
        | simpl_fields; unfold INT_MIN, INT_MAX in *; cbn [length] in *; lia ].

Ltac xstep_by lem := erewrite bind_ok; [ | eapply lem; xside ].

Ltac xstep :=
  rewrite ?bind_assoc;
  lazymatch goal with
  | |- bind (ret _) _ _ = _ => rewrite bind_ret
  | |- bind (malloc _) _ _ = _ => rewrite (bind_ok _ _ _ _ _ (malloc_ok _ _))
  | |- bind (get_size _) _ _ = _ => xstep_by get_size_ok
  | |- bind (get_head _) _ _ = _ => xstep_by get_head_ok
  | |- bind (get_tail _) _ _ = _ => xstep_by get_tail_ok
  | |- bind (get_destructor _) _ _ = _ => xstep_by get_destructor_ok
  | |- bind (get_value _) _ _ = _ => xstep_by get_value_ok
  | |- bind (get_next _) _ _ = _ => xstep_by get_next_ok
  | |- bind (set_head _ _) _ _ = _ => xstep_by set_head_ok
  | |- bind (set_tail _ _) _ _ = _ => xstep_by set_tail_ok
  | |- bind (set_size _ _) _ _ = _ => xstep_by set_size_ok
  | |- bind (set_destructor _ _) _ _ = _ => xstep_by set_destructor_ok
  | |- bind (set_next _ _) _ _ = _ => xstep_by set_next_ok
  | |- bind (set_value _ _) _ _ = _ => xstep_by set_value_ok
  | |- bind (free _) _ _ = _ => xstep_by free_ok
  | |- bind (incr_size _) _ _ = _ => xstep_by incr_size_ok
  | |- bind (decr_size _) _ _ = _ => xstep_by decr_size_ok
  | |- bind (int _) _ _ = _ => xstep_by int_ok
  end;
  simpl_fields.

(** Validity of a memory reached by stores, frees and allocations. *)
Ltac solve_valid :=
  repeat first
    [ apply valid_mem_store; [|eexists; xlookup]
    | apply valid_mem_free ];
  first [ assumption | now apply valid_mem_malloc ].

Lemma is_list_write m l ns vs i n old nx v :
  is_list m l ns vs ->
  ns !! i = Some n -> vs !! i = Some old ->
  heap m !! n = Some (ONode (ListNode.mk old nx)) ->
  is_list (Mem (<[n := ONode (ListNode.mk v nx)]> (heap m)) (brk m) (trace m)) l ns
          (<[i := v]> vs).
Proof.
  intros (Hl & L & HL & Hc & Hnd & Ht & Hs & Hmax) Hn Hv Hh.
  assert (Hnl : n <> l) by (intros ->; congruence).
  pose proof (chain_length _ _ _ _ _ Hc) as Hlen.
  pose proof (lookup_lt_Some _ _ _ Hv) as Hi.
  split; [exact Hl|]. exists L. cbn [heap].
  split; [now rewrite lookup_insert_ne by congruence|].
  split.
  - rewrite <- (take_drop_middle _ _ _ Hn) in Hc, Hnd |- *.
    rewrite <- (take_drop_middle _ _ _ Hv) in Hc |- *.
    assert (Hl1 : length (take i ns) = length (take i vs)) by (rewrite !length_take; lia).
    rewrite insert_app_r_alt by (rewrite length_take; lia).
    rewrite length_take. replace (i - i `min` length vs)%nat with 0%nat by lia.
    cbn [insert list_insert].
    now apply chain_set_value with old.
  - rewrite length_insert. auto.
Qed.

(** [l_setLast] on a well-formed list. *)
Lemma l_setLast_spec m l ns vs v :
  is_list m l ns vs -> vs <> [] ->
  exists m',
    l_setLast l v m = Ok (List.last vs NULL) m' /\
    is_list m' l ns (<[(length vs - 1)%nat := v]> vs) /\
    brk m' = brk m /\ trace m' = trace m /\
    (forall p, p ∉ ns -> heap m' !! p = heap m !! p).
Proof.
  intros Hlist Hvs.
  destruct (is_list_size _ _ _ _ Hlist) as (L & Hl & HL & Hs & Hr & Hlen).
  pose proof Hlist as (_ & L' & HL' & Hc & _ & Ht & _).
  rewrite HL in HL'. injection HL' as <-.
  assert (Hne : ns <> []) by (destruct ns, vs; try discriminate; congruence).
  destruct (chain_last_node _ _ _ _ _ Hc Hne) as (_ & Hn & Hlast).
  rewrite <- Ht in Hn, Hlast.
  eexists. split.
  { unfold l_setLast. step.
    rewrite (proj2 (Z.eqb_neq _ _)) by (destruct vs; [congruence|cbn [length] in Hs; lia]).
    cbn [negb]. do 4 xstep. reflexivity. }
  split; [|split; [reflexivity|split; [reflexivity|]]].
  - eapply is_list_write; [exact Hlist | | | exact Hlast].
    + rewrite Ht, <- Hlen. now apply lookup_last.
    + now apply lookup_last.
  - intros p Hp. cbn [heap]. apply lookup_insert_ne. intros <-. apply Hp.
    rewrite Ht. now apply last_elem_of.
Qed.

(** X2: [l_set] at an index inside a well-formed list replaces the element
    there and returns the old one; the nodes, their order and everything
    else in memory stay as they were. *)
Theorem l_set_spec m l ns vs v index old :
  is_list m l ns vs -> 0 <= index -> vs !! Z.to_nat index = Some old ->
  exists m',
    l_set l v index m = Ok old m' /\
    is_list m' l ns (<[Z.to_nat index := v]> vs) /\
    brk m' = brk m /\ trace m' = trace m /\
    (forall p, p ∉ ns -> heap m' !! p = heap m !! p).
Proof.
  intros Hlist H0 Hold.
  destruct (is_list_size _ _ _ _ Hlist) as (L & Hl & HL & Hs & Hr & Hlen).
  pose proof (lookup_lt_Some _ _ _ Hold) as Hi.
  destruct (Z.eq_dec index (LinkedList.size L - 1)) as [He|Hne].
  - destruct (l_setLast_spec m l ns vs v Hlist) as (m' & Hrun & Hrest);
      [intros ->; cbn in Hi; lia|].
    exists m'. replace (Z.to_nat index) with (length vs - 1)%nat in * by lia.
    rewrite (lookup_last _ NULL) in Hold by (intros ->; cbn in Hi; lia).
    injection Hold as <-. split; [|exact Hrest].
    unfold l_set. step. step. now rewrite (proj2 (Z.eqb_eq _ _) He).
  - pose proof Hlist as (_ & L' & HL' & Hc & _).
    rewrite HL in HL'. injection HL' as <-.
    destruct (chain_at_index _ _ _ _ _ _ _ Hc Hold)
      as (ns1 & n & ns2 & vs1 & vs2 & nx & Ens & Evs & Hl1 & Hl2 & Hc1 & Hn & Hh & Hc2).
    eexists. split.
    { unfold l_set. step. step.
      rewrite (proj2 (Z.eqb_neq _ _) Hne).
      rewrite (proj2 (Z.leb_le _ _) H0), (proj2 (Z.ltb_lt _ _)) by lia. cbn [andb].
      step. rewrite <- Hl1.
      rewrite (bind_ok _ _ _ _ _ (follow_chain _ _ _ _ _ Hc1)).
      do 2 xstep. reflexivity. }
    split; [|split; [reflexivity|split; [reflexivity|]]].
    + eapply is_list_write; [exact Hlist | | exact Hold | exact Hh].
      rewrite Ens, <- Hl1. apply list_lookup_middle. reflexivity.
    + intros p Hp. cbn [heap]. apply lookup_insert_ne. intros <-. apply Hp.
      rewrite Ens. apply elem_of_app. right. apply elem_of_cons. now left.
Qed.

(** X3: [l_set] at an index outside a well-formed list returns [NULL] and
    changes nothing. *)
Theorem l_set_out_of_range m l ns vs v index :
  is_list m l ns vs -> index < 0 \/ Z.of_nat (length vs) <= index ->
  l_set l v index m = Ok NULL m.
Proof.
  intros Hlist Hi.
  destruct (is_list_size _ _ _ _ Hlist) as (L & Hl & HL & Hs & Hr & Hlen).
  unfold l_set. step. step.
  destruct (Z.eqb_spec index (LinkedList.size L - 1)) as [He|Hne].
  - assert (LinkedList.size L = 0) by lia.
    unfold l_setLast. step. now rewrite H.
  - destruct (Z.leb_spec 0 index); destruct (Z.ltb_spec index (LinkedList.size L - 1));
      cbn [andb]; try reflexivity; lia.
Qed.

(** ** Insertion at the front and in the middle *)

Lemma chain_cons_intro h n v nx ns vs q :
  n <> NULL -> h !! n = Some (ONode (ListNode.mk v nx)) -> chain h nx ns vs q ->
  chain h n (n :: ns) (v :: vs) q.
Proof. intros Hn Hh Hc. cbn [chain]. repeat split; auto. now exists nx. Qed.

Lemma l_addFirst_spec m l ns vs v :
  valid_mem m -> is_list m l ns vs -> Z.of_nat (length vs) < INT_MAX ->
  exists m',
    l_addFirst l v m = Ok tt m' /\
    is_list m' l (brk m :: ns) (v :: vs) /\
    valid_mem m' /\
    brk m' = brk m + 1 /\
    trace m' = trace m /\
    forall p, p <> l -> p <> brk m -> heap m' !! p = heap m !! p.
Proof.
  intros Hv (Hl & L & HL & Hc & Hnd & Ht & Hs & Hmax) Hlen.
  assert (Hb : brk m <> NULL) by now apply valid_mem_brk.
  assert (Hfresh : forall p, is_Some (heap m !! p) -> p <> brk m)
    by (intros p; now apply valid_mem_fresh).
  assert (Hlb : l <> brk m) by (apply Hfresh; eauto).
  assert (Hns : brk m ∉ ns).
  { intros Hin. apply (Hfresh (brk m)); [|reflexivity]. eapply chain_live; eauto. }
  destruct L as [hd tl d sz]. simpl_fields. subst sz tl.
  unfold l_addFirst, new_node, incr_size.
  assert (Hframe : forall h p, p ∈ ns -> (<[brk m := h]> (heap m)) !! p = heap m !! p).
  { intros h p Hp. apply lookup_insert_ne. intros <-. contradiction. }
  destruct ns as [|n0 ns0].
  - destruct vs; [|cbn in Hc; tauto]. apply chain_nil_inv in Hc as [_ ->].
    eexists. split.
    { do 2 step. cbn [length]. change (Z.of_nat 0 =? 0) with true. cbv iota.
      repeat step. apply set_size_ok; solve_side. }
    simpl_fields.
    split; [|split; [|split; [reflexivity|split; [reflexivity|]]]].
    + split; [exact Hl|]. eexists. split; [apply lookup_insert_eq|]. simpl_fields.
      split.
      { cbn. repeat split; auto. exists NULL. split; [|reflexivity]. solve_lookup. }
      split; [apply NoDup_singleton|].
      repeat split. unfold INT_MAX. cbn. lia.
    + solve_valid.
    + intros p Hp Hpb. rewrite !lookup_insert_ne by congruence. reflexivity.
  - destruct vs as [|v0 vs0]; [cbn in Hc; tauto|].
    assert (Hnz : (Z.of_nat (length (v0 :: vs0)) =? 0) = false)
      by (apply Z.eqb_neq; cbn [length]; lia).
    eexists. split.
    { do 2 step. rewrite Hnz. repeat step. apply set_size_ok; solve_side. }
    simpl_fields.
    split; [|split; [|split; [reflexivity|split; [reflexivity|]]]].
    + split; [exact Hl|]. eexists. split; [apply lookup_insert_eq|]. simpl_fields.
      split.
      { apply chain_cons_intro with hd; [exact Hb | solve_lookup |].
        apply chain_frame with (heap m); [exact Hc|].
        intros n Hn.
        assert (n <> l) by apply (chain_not_list _ _ _ _ _ _ _ _ Hc HL Hn).
        assert (n <> brk m) by (intros ->; contradiction).
        rewrite !lookup_insert_ne by congruence. reflexivity. }
      split; [apply NoDup_cons; split; assumption|].
      split; [reflexivity|].
      split; [cbn [length] in *; lia|].
      unfold INT_MAX in *. cbn [length] in *. lia.
    + solve_valid.
    + intros p Hp Hpb. rewrite !lookup_insert_ne by congruence. reflexivity.
Qed.

Lemma take_drop_after {A} (l1 : list A) x l2 k :
  length l1 = k ->
  take (S k) (l1 ++ x :: l2) = l1 ++ [x] /\ drop (S k) (l1 ++ x :: l2) = l2.
Proof.
  revert k. induction l1 as [|a l1 IH]; intros k Hk; cbn in Hk; subst k.
  - cbn. rewrite take_0, drop_0. auto.
  - destruct (IH (length l1) eq_refl) as [Ht Hd]. cbn [app take drop length].
    rewrite Ht, Hd. auto.
Qed.

Lemma last_app_cons (l1 : list Z) x l2 d : List.last (l1 ++ x :: l2) d = List.last (x :: l2) d.
Proof.
  induction l1 as [|a l1 IH]; [reflexivity|].
  cbn [app]. destruct (l1 ++ x :: l2) eqn:E; [destruct l1; discriminate|].
  rewrite <- E in *. rewrite <- IH. rewrite E. reflexivity.
Qed.

(** [l_add] strictly inside the list: the new node is spliced in between
    the nodes at [index - 1] and [index]. *)
Lemma l_add_middle_spec m l ns vs v index :
  valid_mem m -> is_list m l ns vs ->
  0 < index < Z.of_nat (length vs) -> Z.of_nat (length vs) < INT_MAX ->
  exists m',
    l_add l v index m = Ok tt m' /\
    is_list m' l (take (Z.to_nat index) ns ++ brk m :: drop (Z.to_nat index) ns)
                 (take (Z.to_nat index) vs ++ v :: drop (Z.to_nat index) vs) /\
    valid_mem m' /\
    brk m' = brk m + 1 /\
    trace m' = trace m /\
    forall p, p <> l -> p ∉ ns -> p <> brk m -> heap m' !! p = heap m !! p.
Proof.
  intros Hv Hlist Hi Hlt.
  destruct (is_list_size _ _ _ _ Hlist) as (L & Hl & HL & Hs & Hr & Hlen).
  pose proof Hlist as (_ & L' & HL' & Hc & Hnd & Ht & _).
  rewrite HL in HL'. injection HL' as <-.
  assert (Hb : brk m <> NULL) by now apply valid_mem_brk.
  assert (Hfresh : forall p, is_Some (heap m !! p) -> p <> brk m)
    by (intros p; now apply valid_mem_fresh).
  assert (Hlb : l <> brk m) by (apply Hfresh; eauto).
  assert (Hns : brk m ∉ ns).
  { intros Hin. apply (Hfresh (brk m)); [|reflexivity]. eapply chain_live; eauto. }
  set (k := Z.to_nat (index - 1)).
  destruct (lookup_lt_is_Some_2 vs k ltac:(lia)) as [vp Hvp].
  destruct (chain_at_index _ _ _ _ _ _ _ Hc Hvp)
    as (ns1 & n & ns2 & vs1 & vs2 & nx & Ens & Evs & Hl1 & Hl2 & Hc1 & Hn & Hh & Hc2).
  replace (Z.to_nat index) with (S k) by lia.
  rewrite Ens, Evs.
  destruct (take_drop_after ns1 n ns2 k Hl1) as [-> ->].
  destruct (take_drop_after vs1 vp vs2 k Hl2) as [-> ->].
  rewrite <- !app_assoc. cbn [app].
  subst ns vs.
  apply NoDup_app in Hnd as Hnd'. destruct Hnd' as (Hnd1 & Hdisj & Hnd2).
  apply NoDup_cons in Hnd2 as [Hn2 Hnd2].
  assert (Hn1 : n ∉ ns1).
  { intros Hin. apply (Hdisj n Hin). apply elem_of_cons. now left. }
  assert (Hnb : n <> brk m).
  { intros E. apply Hns. rewrite <- E. apply elem_of_app. right. apply elem_of_cons. now left. }
  assert (Hnl : n <> l) by (intros E; rewrite E in Hh; congruence).
  assert (Hns2 : ns2 <> []).
  { intros ->. rewrite !length_app in Hlen. cbn [length] in *.
    rewrite length_app in Hi. cbn [length] in Hi.
    assert (length vs2 = 0)%nat by lia. lia. }
  eexists. split.
  { unfold l_add, new_node.
    rewrite (proj2 (Z.eqb_neq _ _)) by lia. step.
    rewrite (proj2 (Z.eqb_neq _ _)) by lia.
    rewrite (proj2 (Z.ltb_lt _ _)), (proj2 (Z.ltb_lt _ _)) by lia. cbn [andb].
    do 2 step. fold k. rewrite <- Hl1.
    rewrite (bind_ok _ _ _ _ _ (follow_chain _ _ _ _ _ Hc1)).
    do 3 step. unfold incr_size. do 2 step. apply set_size_ok; solve_side. }
  simpl_fields.
  split; [|split; [solve_valid|split; [reflexivity|split; [reflexivity|]]]].
  - split; [exact Hl|]. eexists. split; [apply lookup_insert_eq|]. simpl_fields.
    assert (Hother : forall p, p <> l -> p <> n -> p <> brk m ->
              (<[l := OList (LinkedList.mk (LinkedList.head L) (LinkedList.tail L)
                               (LinkedList.destructor L) (LinkedList.size L + 1))]>
                 (<[n := ONode (ListNode.mk vp (brk m))]>
                    (<[brk m := ONode (ListNode.mk v nx)]> (heap m)))) !! p = heap m !! p).
    { intros p H1 H2 H3. rewrite !lookup_insert_ne by congruence. reflexivity. }
    split.
    { apply chain_app with n.
      - apply chain_frame with (heap m); [exact Hc1|].
        intros p Hp. apply Hother.
        + apply (chain_not_list _ _ _ _ _ _ _ _ Hc1 HL Hp).
        + intros ->. contradiction.
        + intros ->. apply Hns. apply elem_of_app. now left.
      - apply chain_cons_intro with (brk m); [exact Hn | solve_lookup |].
        apply chain_cons_intro with nx; [exact Hb | solve_lookup |].
        apply chain_frame with (heap m); [exact Hc2|].
        intros p Hp. apply Hother.
        + apply (chain_not_list _ _ _ _ _ _ _ _ Hc2 HL Hp).
        + intros ->. contradiction.
        + intros ->. apply Hns. apply elem_of_app. right. apply elem_of_cons. now right. }
    split.
    { apply NoDup_app. split; [exact Hnd1|]. split.
      - intros x Hx Hx'. apply elem_of_cons in Hx' as [->|Hx']; [contradiction|].
        apply elem_of_cons in Hx' as [->|Hx'].
        + apply Hns. apply elem_of_app. now left.
        + apply (Hdisj x Hx). apply elem_of_cons. now right.
      - apply NoDup_cons. split.
        + intros Hx. apply elem_of_cons in Hx as [->|Hx]; [congruence | contradiction].
        + apply NoDup_cons. split; [|exact Hnd2].
          intros Hx. apply Hns. apply elem_of_app. right. apply elem_of_cons. now right. }
    split.
    { rewrite Ht, !last_app_cons.
      destruct ns2 as [|a ns2]; [congruence|]. reflexivity. }
    rewrite !length_app in *. cbn [length] in *. split; lia.
  - intros p H1 H2 H3. rewrite !lookup_insert_ne; auto.
    intros <-. apply H2. apply elem_of_app. right. apply elem_of_cons. now left.
Qed.

(** ** Positional removal inside the range *)

Lemma l_removeFirst_spec m l n ns v vs :
  is_list m l (n :: ns) (v :: vs) ->
  exists m',
    l_removeFirst l m = Ok (Value v) m' /\
    is_list m' l ns vs /\
    heap m' !! n = None /\
    (valid_mem m -> valid_mem m') /\
    brk m' = brk m /\ trace m' = trace m /\
    forall p, p <> l -> p <> n -> heap m' !! p = heap m !! p.
Proof.
  intros (Hl & L & HL & Hc & Hnd & Ht & Hs & Hmax).
  pose proof Hc as Hc0.
  cbn [chain] in Hc. destruct Hc as (Hhd & Hn & nx & Hh & Hc).
  apply NoDup_cons in Hnd as [Hnn Hnd].
  assert (Hnl : n <> l) by (intros E; rewrite E in Hh; congruence).
  destruct L as [hd tl d sz]. simpl_fields. subst hd sz tl.
  assert (Hnz : (Z.of_nat (length (v :: vs)) =? 0) = false)
    by (apply Z.eqb_neq; cbn [length]; lia).
  assert (Hrest : forall h', (forall p, p <> l -> p <> n -> h' !! p = heap m !! p) ->
                             chain h' nx ns vs NULL).
  { intros h' Hsame. apply chain_frame with (heap m); [exact Hc|].
    intros p Hp. apply Hsame.
    - apply (chain_not_list _ _ _ _ _ _ _ _ Hc HL Hp).
    - intros ->. contradiction. }
  pose proof (chain_length _ _ _ _ _ Hc) as Hlen.
  destruct ns as [|n2 ns].
  - (* the only node *)
    destruct vs; [|discriminate].
    eexists. split.
    { unfold l_removeFirst. step. rewrite Hnz. cbn [negb].
      repeat xstep. cbn [length]. change (Z.of_nat 1 =? 1) with true. cbv iota.
      repeat xstep. reflexivity. }
    simpl_fields.
    split; [|split; [|split; [intros Hv; solve_valid|split; [reflexivity|split; [reflexivity|]]]]].
    + split; [exact Hl|]. eexists. split; [apply lookup_insert_eq|]. simpl_fields.
      apply chain_no_nodes_inv in Hc as [_ ->].
      repeat split; try constructor. unfold INT_MAX. cbn. lia.
    + rewrite !lookup_insert_ne by congruence. rewrite lookup_delete_eq. reflexivity.
    + intros p H1 H2. rewrite !lookup_insert_ne by congruence.
      rewrite lookup_delete_ne by congruence. now rewrite lookup_insert_ne by congruence.
  - eexists. split.
    { unfold l_removeFirst. step. rewrite Hnz. cbn [negb].
      repeat xstep.
      rewrite (proj2 (Z.eqb_neq _ _)) by (cbn [length] in *; lia).
      repeat xstep. reflexivity. }
    simpl_fields.
    split; [|split; [|split; [intros Hv; solve_valid|split; [reflexivity|split; [reflexivity|]]]]].
    + split; [exact Hl|]. eexists. split; [apply lookup_insert_eq|]. simpl_fields.
      split.
      { apply Hrest. intros p H1 H2. rewrite !lookup_insert_ne by congruence.
        rewrite lookup_delete_ne by congruence. now rewrite lookup_insert_ne by congruence. }
      split; [exact Hnd|]. split; [reflexivity|].
      cbn [length] in *. split; lia.
    + rewrite !lookup_insert_ne by congruence. rewrite lookup_delete_eq. reflexivity.
    + intros p H1 H2. rewrite !lookup_insert_ne by congruence.
      rewrite lookup_delete_ne by congruence. now rewrite lookup_insert_ne by congruence.
Qed.

Lemma l_removeLast_spec m l ns1 n vs1 v :
  is_list m l (ns1 ++ [n]) (vs1 ++ [v]) ->
  exists m',
    l_removeLast l m = Ok (Value v) m' /\
    is_list m' l ns1 vs1 /\
    heap m' !! n = None /\
    (valid_mem m -> valid_mem m') /\
    brk m' = brk m /\ trace m' = trace m /\
    forall p, p <> l -> p ∉ ns1 ++ [n] -> heap m' !! p = heap m !! p.
Proof.
  intros (Hl & L & HL & Hc & Hnd & Ht & Hs & Hmax).
  pose proof (chain_length _ _ _ _ _ Hc) as Hlen.
  rewrite !length_app in Hlen. cbn [length] in Hlen.
  assert (Hlen1 : length ns1 = length vs1) by lia.
  destruct (chain_split _ _ _ _ _ _ _ Hlen1 Hc) as (r & Hc1 & Hc2).
  cbn [chain] in Hc2. destruct Hc2 as (-> & Hn & nx & Hh & ->).
  rewrite last_snoc in Ht.
  apply NoDup_app in Hnd as (Hnd1 & Hdisj & _).
  assert (Hn1 : n ∉ ns1).
  { intros Hin. apply (Hdisj n Hin). apply elem_of_cons. now left. }
  assert (Hnl : n <> l) by (intros E; rewrite E in Hh; congruence).
  destruct L as [hd tl d sz]. simpl_fields. subst sz tl.
  rewrite length_app in *. cbn [length] in *.
  assert (Hnz : (Z.of_nat (length vs1 + 1) =? 0) = false) by (apply Z.eqb_neq; lia).
  destruct ns1 as [|n' ns0 _] using rev_ind.
  - (* the only node *)
    destruct vs1; [|discriminate]. apply chain_nil_inv in Hc1 as [_ ->].
    eexists. split.
    { unfold l_removeLast. xstep. rewrite Hnz. cbn [negb].
      repeat xstep. cbn [length]. change (Z.of_nat (0 + 1) =? 1) with true. cbv iota.
      repeat xstep. reflexivity. }
    simpl_fields.
    split; [|split; [|split; [intros Hv; solve_valid|split; [reflexivity|split; [reflexivity|]]]]].
    + split; [exact Hl|]. eexists. split; [apply lookup_insert_eq|]. simpl_fields.
      repeat split; try constructor. unfold INT_MAX. cbn. lia.
    + rewrite !lookup_insert_ne by congruence. apply lookup_delete_eq.
    + intros p H1 H2. rewrite !lookup_insert_ne by congruence.
      apply lookup_delete_ne. intros <-. apply H2. apply elem_of_cons. now left.
  - destruct vs1 as [|v' vs0 _] using rev_ind;
      [rewrite length_app in Hlen1; cbn in Hlen1; lia|].
    rewrite !length_app in *. cbn [length] in *.
    assert (Hlen0 : length ns0 = length vs0) by lia.
    destruct (chain_split _ _ _ _ _ _ _ Hlen0 Hc1) as (r & Hc0 & Hc').
    cbn [chain] in Hc'. destruct Hc' as (-> & Hn' & nx' & Hh' & ->).
    apply NoDup_app in Hnd1 as Hnd0. destruct Hnd0 as (Hnd0 & Hdisj0 & _).
    assert (Hn0 : n' ∉ ns0).
    { intros Hin. apply (Hdisj0 n' Hin). apply elem_of_cons. now left. }
    assert (Hnn : n' <> n).
    { intros ->. apply Hn1. apply elem_of_app. right. apply elem_of_cons. now left. }
    assert (Hn'l : n' <> l) by (intros E; rewrite E in Hh'; congruence).
    assert (Hc0' : chain (delete n (heap m)) hd ns0 vs0 n').
    { apply chain_frame with (heap m); [exact Hc0|].
      intros p Hp. apply lookup_delete_ne. intros <-. apply Hn1.
      apply elem_of_app. now left. }
    eexists. split.
    { unfold l_removeLast. xstep. rewrite Hnz. cbn [negb].
      repeat xstep.
      rewrite (proj2 (Z.eqb_neq _ _)) by lia.
      repeat xstep.
      replace (Z.to_nat (Z.of_nat (length vs0 + 1 + 1) - 2)) with (length ns0) by lia.
      rewrite !bind_assoc.
      rewrite (bind_ok _ _ _ _ _
                 (follow_chain (Mem (delete n (heap m)) (brk m) (trace m)) _ _ _ _ Hc0')).
      repeat xstep. reflexivity. }
    simpl_fields.
    split; [|split; [|split; [intros Hv; solve_valid|split; [reflexivity|split; [reflexivity|]]]]].
    + split; [exact Hl|]. eexists. split; [apply lookup_insert_eq|]. simpl_fields.
      split.
      { apply chain_app with n'.
        - apply chain_frame with (delete n (heap m)); [exact Hc0'|].
          intros p Hp.
          assert (p <> l) by apply (chain_not_list _ _ _ _ _ _ _ _ Hc0 HL Hp).
          assert (p <> n') by (intros ->; contradiction).
          rewrite !lookup_insert_ne by congruence. reflexivity.
        - apply chain_cons_intro with NULL; [exact Hn' | xlookup | reflexivity]. }
      split; [exact Hnd1|]. split; [now rewrite last_snoc|].
      rewrite length_app. cbn [length]. unfold INT_MAX in *. split; lia.
    + rewrite !lookup_insert_ne by congruence. apply lookup_delete_eq.
    + intros p H1 H2.
      assert (p <> n) by (intros ->; apply H2; apply elem_of_app; right; apply elem_of_cons; now left).
      assert (p <> n').
      { intros ->. apply H2. apply elem_of_app. left. apply elem_of_app. right.
        apply elem_of_cons. now left. }
      rewrite !lookup_insert_ne by congruence. now apply lookup_delete_ne.
Qed.

Lemma l_remove_middle_spec m l ns vs index v :
  is_list m l ns vs ->
  0 < index < Z.of_nat (length vs) - 1 -> vs !! Z.to_nat index = Some v ->
  exists m' old,
    l_remove l index m = Ok (Value v) m' /\
    ns !! Z.to_nat index = Some old /\
    is_list m' l (delete (Z.to_nat index) ns) (delete (Z.to_nat index) vs) /\
    heap m' !! old = None /\
    (valid_mem m -> valid_mem m') /\
    brk m' = brk m /\ trace m' = trace m /\
    forall p, p <> l -> p ∉ ns -> heap m' !! p = heap m !! p.
Proof.
  intros Hlist Hi Hv.
  destruct (is_list_size _ _ _ _ Hlist) as (L & Hl & HL & Hs & Hr & Hlen).
  pose proof Hlist as (_ & L' & HL' & Hc & Hnd & Ht & _).
  rewrite HL in HL'. injection HL' as <-.
  set (k := Z.to_nat (index - 1)).
  replace (Z.to_nat index) with (S k) in * by lia.
  destruct (lookup_lt_is_Some_2 vs k ltac:(lia)) as [vp Hvp].
  destruct (chain_at_index _ _ _ _ _ _ _ Hc Hvp)
    as (ns1 & n & rest & vs1 & vrest & nx & Ens & Evs & Hl1 & Hl2 & Hc1 & Hn & Hh & Hc2).
  subst ns vs.
  rewrite !length_app in *. cbn [length] in *.
  destruct rest as [|o ns2]; [cbn [length] in Hlen; lia|].
  destruct vrest as [|vo vs2]; [cbn in Hc2; tauto|].
  cbn [chain] in Hc2. destruct Hc2 as (-> & Ho & ox & Hho & Hc2).
  assert (vo = v).
  { rewrite lookup_app_r in Hv by lia. replace (S k - length vs1)%nat with 1%nat in Hv by lia.
    cbn in Hv. congruence. }
  subst vo.
  apply NoDup_app in Hnd as Hnd'. destruct Hnd' as (Hnd1 & Hdisj & Hnd2).
  apply NoDup_cons in Hnd2 as [Hn2 Hnd2].
  apply NoDup_cons in Hnd2 as [Ho2 Hnd2].
  assert (Hn1 : n ∉ ns1).
  { intros Hin. apply (Hdisj n Hin). apply elem_of_cons. now left. }
  assert (Ho1 : o ∉ ns1).
  { intros Hin. apply (Hdisj o Hin). apply elem_of_cons. right. apply elem_of_cons. now left. }
  assert (Hno : n <> o) by (intros ->; apply Hn2; apply elem_of_cons; now left).
  assert (Hnl : n <> l) by (intros E; rewrite E in Hh; congruence).
  assert (Hol : o <> l) by (intros E; rewrite E in Hho; congruence).
  assert (Hns2 : ns2 <> []).
  { intros ->. cbn [length] in *. lia. }
  exists (Mem (<[l := OList (LinkedList.with_size (LinkedList.size L - 1) L)]>
                 (delete o (<[n := ONode (ListNode.mk vp ox)]> (heap m))))
              (brk m) (trace m)), o.
  split.
  { unfold l_remove.
    rewrite (proj2 (Z.eqb_neq _ _)) by lia. xstep. xstep.
    rewrite (proj2 (Z.eqb_neq _ _)) by lia.
    rewrite (proj2 (Z.ltb_lt _ _)), (proj2 (Z.ltb_lt _ _)) by lia. cbn [andb].
    do 2 xstep. fold k. rewrite <- Hl1.
    rewrite (bind_ok _ _ _ _ _ (follow_chain _ _ _ _ _ Hc1)).
    repeat xstep. reflexivity. }
  split.
  { rewrite lookup_app_r by lia. replace (S k - length ns1)%nat with 1%nat by lia.
    reflexivity. }
  replace (S k) with (length (ns1 ++ [n])) at 1 by (rewrite length_app; cbn; lia).
  replace (S k) with (length (vs1 ++ [vp])) by (rewrite length_app; cbn; lia).
  replace (ns1 ++ n :: o :: ns2) with ((ns1 ++ [n]) ++ o :: ns2)
    by (now rewrite <- app_assoc).
  replace (vs1 ++ vp :: v :: vs2) with ((vs1 ++ [vp]) ++ v :: vs2)
    by (now rewrite <- app_assoc).
  rewrite !delete_middle. rewrite <- !app_assoc. cbn [app].
  simpl_fields.
  split; [|split; [|split; [intros Hv'; solve_valid|split; [reflexivity|split; [reflexivity|]]]]].
  - split; [exact Hl|]. eexists. split; [apply lookup_insert_eq|]. simpl_fields.
    split.
    { apply chain_app with n.
      - apply chain_frame with (heap m); [exact Hc1|].
        intros p Hp.
        assert (p <> l) by apply (chain_not_list _ _ _ _ _ _ _ _ Hc1 HL Hp).
        assert (p <> n) by (intros ->; contradiction).
        assert (p <> o) by (intros ->; contradiction).
        rewrite lookup_insert_ne, lookup_delete_ne, lookup_insert_ne by congruence.
        reflexivity.
      - apply chain_cons_intro with ox; [exact Hn | xlookup |].
        apply chain_frame with (heap m); [exact Hc2|].
        intros p Hp.
        assert (p <> l) by apply (chain_not_list _ _ _ _ _ _ _ _ Hc2 HL Hp).
        assert (p <> n).
        { intros ->. apply Hn2. apply elem_of_cons. now right. }
        assert (p <> o) by (intros ->; contradiction).
        rewrite lookup_insert_ne, lookup_delete_ne, lookup_insert_ne by congruence.
        reflexivity. }
    split.
    { apply NoDup_app. split; [exact Hnd1|]. split.
      - intros x Hx Hx'. apply (Hdisj x Hx).
        apply elem_of_cons in Hx' as [->|Hx']; [apply elem_of_cons; now left|].
        apply elem_of_cons. right. apply elem_of_cons. now right.
      - apply NoDup_cons. split; [|exact Hnd2].
        intros Hx. apply Hn2. apply elem_of_cons. now right. }
    split.
    { rewrite Ht, !last_app_cons.
      destruct ns2 as [|a ns2]; [congruence|]. reflexivity. }
    rewrite !length_app in *. cbn [length] in *. split; lia.
  - rewrite lookup_insert_ne by congruence. apply lookup_delete_eq.
  - intros p H1 H2.
    assert (p <> n).
    { intros ->. apply H2. apply elem_of_app. right. apply elem_of_cons. now left. }
    assert (p <> o).
    { intros ->. apply H2. apply elem_of_app. right. apply elem_of_cons. right.
      apply elem_of_cons. now left. }
    rewrite lookup_insert_ne, lookup_delete_ne, lookup_insert_ne by congruence.
    reflexivity.
Qed.

(** [l_remove] inside the range, whichever of its three branches is taken:
    the element at the index is returned and its node is unlinked and
    freed. *)
Lemma l_remove_spec m l ns vs index v :
  is_list m l ns vs -> 0 <= index -> vs !! Z.to_nat index = Some v ->
  exists m',
    l_remove l index m = Ok (Value v) m' /\
    is_list m' l (delete (Z.to_nat index) ns) (delete (Z.to_nat index) vs) /\
    (forall old, ns !! Z.to_nat index = Some old -> heap m' !! old = None) /\
    (valid_mem m -> valid_mem m') /\
    brk m' = brk m /\ trace m' = trace m /\
    forall p, p <> l -> p ∉ ns -> heap m' !! p = heap m !! p.
Proof.
  intros Hlist H0 Hv.
  destruct (is_list_size _ _ _ _ Hlist) as (L & Hl & HL & Hs & Hr & Hlen).
  pose proof (lookup_lt_Some _ _ _ Hv) as Hi.
  destruct (Z.eq_dec index 0) as [->|Hne0].
  - destruct vs as [|v0 vs]; [discriminate|]. cbn in Hv. injection Hv as ->.
    destruct ns as [|n ns]; [discriminate|].
    destruct (l_removeFirst_spec _ _ _ _ _ _ Hlist)
      as (m' & Hrun & Hlist' & Hgone & Hval & Hb & Ht & Hframe).
    exists m'. change (Z.to_nat 0) with 0%nat. cbn [delete list_delete].
    split; [exact Hrun|]. split; [exact Hlist'|].
    split; [intros old [= <-]; exact Hgone|].
    split; [exact Hval|]. split; [exact Hb|]. split; [exact Ht|].
    intros p H1 H2. apply Hframe; auto. intros ->. apply H2. apply elem_of_cons. now left.
  - destruct (Z.eq_dec index (LinkedList.size L - 1)) as [He|Hne].
    + destruct vs as [|vl vs1 _] using rev_ind; [discriminate|].
      destruct ns as [|nl ns1 _] using rev_ind;
        [rewrite length_app in Hlen; cbn in Hlen; lia|].
      rewrite !length_app in *. cbn [length] in *.
      replace (Z.to_nat index) with (length vs1) in * by lia.
      rewrite list_lookup_middle in Hv by reflexivity. injection Hv as ->.
      destruct (l_removeLast_spec _ _ _ _ _ _ Hlist)
        as (m' & Hrun & Hlist' & Hgone & Hval & Hb & Ht & Hframe).
      exists m'. rewrite delete_middle, app_nil_r.
      replace (length vs1) with (length ns1) by lia.
      rewrite delete_middle, app_nil_r.
      split.
      { unfold l_remove. rewrite (proj2 (Z.eqb_neq _ _) Hne0). xstep. xstep.
        now rewrite (proj2 (Z.eqb_eq _ _) He). }
      split; [exact Hlist'|].
      split; [intros old Hold; rewrite list_lookup_middle in Hold by reflexivity;
              injection Hold as <-; exact Hgone|].
      split; [exact Hval|]. split; [exact Hb|]. split; [exact Ht|]. exact Hframe.
    + destruct (l_remove_middle_spec m l ns vs index v Hlist ltac:(lia) Hv)
        as (m' & old & Hrun & Hold & Hlist' & Hgone & Hval & Hb & Ht & Hframe).
      exists m'. split; [exact Hrun|]. split; [exact Hlist'|].
      split; [intros old' Hold'; rewrite Hold in Hold'; injection Hold' as <-; exact Hgone|].
      split; [exact Hval|]. split; [exact Hb|]. split; [exact Ht|]. exact Hframe.
Qed.

(** X6: [l_add] at an index from 0 to the size of a well-formed list puts
    the value before the element that was at that index, or behind the
    last one, in a node at the address the allocator hands out. *)
Theorem l_add_spec m l ns vs v index :
  valid_mem m -> is_list m l ns vs ->
  0 <= index <= Z.of_nat (length vs) -> Z.of_nat (length vs) < INT_MAX ->
  exists m',
    l_add l v index m = Ok tt m' /\
    is_list m' l (take (Z.to_nat index) ns ++ brk m :: drop (Z.to_nat index) ns)
                 (take (Z.to_nat index) vs ++ v :: drop (Z.to_nat index) vs) /\
    valid_mem m' /\
    brk m' = brk m + 1 /\
    trace m' = trace m /\
    forall p, p <> l -> p ∉ ns -> p <> brk m -> heap m' !! p = heap m !! p.
Proof.
  intros Hv Hlist Hi Hlt.
  destruct (is_list_size _ _ _ _ Hlist) as (L & Hl & HL & Hs & Hr & Hlen).
  destruct (Z.eq_dec index 0) as [->|Hne0].
  - destruct (l_addFirst_spec m l ns vs v Hv Hlist Hlt)
      as (m' & Hrun & Hlist' & Hv' & Hb & Ht & Hframe).
    exists m'. change (Z.to_nat 0) with 0%nat. rewrite !take_0, !drop_0. cbn [app].
    split; [exact Hrun|]. split; [exact Hlist'|]. split; [exact Hv'|].
    split; [exact Hb|]. split; [exact Ht|]. intros p H1 _ H3. now apply Hframe.
  - destruct (Z.eq_dec index (LinkedList.size L)) as [He|Hne].
    + destruct (l_addLast_spec m l ns vs v Hv Hlist Hlt)
        as (m' & Hrun & Hlist' & Hv' & Hb & Ht & Hframe).
      exists m'. rewrite !take_ge, !drop_ge by lia.
      split.
      { unfold l_add. rewrite (proj2 (Z.eqb_neq _ _) Hne0). xstep.
        now rewrite (proj2 (Z.eqb_eq _ _) He). }
      split; [exact Hlist'|]. split; [exact Hv'|].
      split; [exact Hb|]. split; [exact Ht|]. exact Hframe.
    + apply l_add_middle_spec; auto. lia.
Qed.

(** ** Emptying and discarding a list *)

Lemma lookup_without ns : forall h p,
  without ns h !! p = if decide (p ∈ ns) then None else h !! p.
Proof.
  induction ns as [|n ns IH]; intros h p; cbn [without foldl].
  - destruct (decide (p ∈ [])) as [H|_]; [inversion H | reflexivity].
  - fold (without ns (delete n h)). rewrite IH.
    destruct (decide (p ∈ ns)) as [Hin|Hout].
    + destruct (decide (p ∈ n :: ns)) as [_|H]; [reflexivity|].
      exfalso. apply H. apply elem_of_cons. now right.
    + destruct (decide (p = n)) as [->|Hne].
      * rewrite lookup_delete_eq.
        destruct (decide (n ∈ n :: ns)) as [_|H]; [reflexivity|].
        exfalso. apply H. apply elem_of_cons. now left.
      * rewrite lookup_delete_ne by congruence.
        destruct (decide (p ∈ n :: ns)) as [H|_]; [|reflexivity].
        exfalso. apply elem_of_cons in H as [?|?]; congruence.
Qed.

Lemma l_removeAll_loop_spec b t ns : forall p vs h fuel,
  chain h p ns vs NULL -> NoDup ns -> (length ns < fuel)%nat ->
  l_removeAll_loop fuel p (Mem h b t) = Ok tt (Mem (without ns h) b t).
Proof.
  induction ns as [|n ns IH]; intros p vs h fuel Hc Hnd Hf.
  - apply chain_no_nodes_inv in Hc as [_ ->].
    destruct fuel; [cbn in Hf; lia|]. reflexivity.
  - destruct vs as [|v vs]; cbn [chain] in Hc; [tauto|].
    destruct Hc as (-> & Hn & nx & Hh & Hc).
    apply NoDup_cons in Hnd as [Hnn Hnd].
    destruct fuel; [cbn in Hf; lia|]. cbn [length] in Hf.
    cbn [l_removeAll_loop without foldl]. rewrite (eqb_NULL _ Hn). cbn [negb].
    do 2 xstep.
    apply IH with vs; [|exact Hnd|lia].
    apply chain_frame with h; [exact Hc|].
    intros p Hp. apply lookup_delete_ne. intros <-. contradiction.
Qed.

(** [l_removeAll] frees every node and leaves an empty list with the same
    destructor; nothing else is touched. *)
Lemma l_removeAll_spec m l ns vs fuel :
  is_list m l ns vs -> (length vs < fuel)%nat ->
  exists m' L L',
    l_removeAll fuel l m = Ok tt m' /\
    heap m !! l = Some (OList L) /\
    heap m' !! l = Some (OList L') /\
    LinkedList.destructor L' = LinkedList.destructor L /\
    is_list m' l [] [] /\
    (forall n, n ∈ ns -> heap m' !! n = None) /\
    (forall p, p <> l -> p ∉ ns -> heap m' !! p = heap m !! p) /\
    brk m' = brk m /\ trace m' = trace m.
Proof.
  intros (Hl & L & HL & Hc & Hnd & Ht & Hs & Hmax) Hf.
  pose proof (chain_length _ _ _ _ _ Hc) as Hlen.
  assert (Hln : l ∉ ns).
  { intros Hin. now apply (chain_not_list _ _ _ _ _ _ _ _ Hc HL Hin). }
  assert (HL1 : without ns (heap m) !! l = Some (OList L)).
  { rewrite lookup_without. case_decide; [contradiction | exact HL]. }
  destruct m as [h b t]. cbn [heap brk trace] in *.
  eexists. exists L. eexists. split.
  { unfold l_removeAll. xstep.
    rewrite (bind_ok _ _ _ _ _
               (l_removeAll_loop_spec b t ns _ vs h fuel Hc Hnd ltac:(lia))).
    do 2 xstep. apply set_size_ok; xside. }
  simpl_fields.
  split; [exact HL|]. split; [apply lookup_insert_eq|]. split; [reflexivity|].
  split.
  { split; [exact Hl|]. eexists. split; [apply lookup_insert_eq|].
    cbn. repeat split; try constructor. unfold INT_MAX. lia. }
  split.
  { intros n Hn. assert (n <> l) by (intros ->; contradiction).
    rewrite !lookup_insert_ne by congruence. rewrite lookup_without.
    case_decide; [reflexivity|contradiction]. }
  split; [|split; reflexivity].
  intros p H1 H2. rewrite !lookup_insert_ne by congruence. rewrite lookup_without.
  case_decide; [contradiction|reflexivity].
Qed.

(** X11: [l_clear] frees every node of a well-formed list and the list
    struct, and nothing else. *)
Theorem l_clear_spec m l ns vs fuel :
  is_list m l ns vs -> (length vs < fuel)%nat ->
  exists m',
    l_clear fuel l m = Ok tt m' /\
    heap m' !! l = None /\
    (forall n, n ∈ ns -> heap m' !! n = None) /\
    (forall p, p <> l -> p ∉ ns -> heap m' !! p = heap m !! p) /\
    brk m' = brk m /\ trace m' = trace m.
Proof.
  intros Hlist Hf.
  destruct (l_removeAll_spec m l ns vs fuel Hlist Hf)
    as (m1 & L & L' & Hrun & HL & HL' & _ & Hlist' & Hgone & Hframe & Hb & Ht).
  destruct Hlist as (Hl & _).
  exists (Mem (delete l (heap m1)) (brk m1) (trace m1)).
  split.
  { unfold l_clear. rewrite (bind_ok _ _ _ _ _ Hrun). now apply free_ok with (OList L'). }
  cbn [heap brk trace].
  split; [apply lookup_delete_eq|].
  split.
  { intros n Hn. destruct (decide (n = l)) as [->|Hne]; [apply lookup_delete_eq|].
    rewrite lookup_delete_ne by congruence. now apply Hgone. }
  split; [|split; assumption].
  intros p H1 H2. rewrite lookup_delete_ne by congruence. now apply Hframe.
Qed.

(** ** Visiting every element *)







(** ** Destructors of the caller *)

(** [l_deleteAll]'s first loop hands every element to the destructor, in
    the list's order. *)
Lemma l_deleteAll_loop_extern id l L b h vs : forall ns itr fuel t,
  h !! l = Some (OList L) -> l <> NULL ->
  LinkedList.destructor L = Fextern id ->
  chain h (Iterator.next itr) ns vs NULL ->
  -1 <= Iterator.index itr ->
  Iterator.index itr + Z.of_nat (length vs) <= INT_MAX ->
  (length vs < fuel)%nat ->
  l_deleteAll_loop fuel l itr (Mem h b t) = Ok tt (Mem h b (t ++ (Ecall id <$> vs))).
Proof.
  induction vs as [|v vs IH]; intros ns itr fuel t HL Hl Hd Hc Hi Hmax Hf.
  - apply chain_nil_inv in Hc as [-> Hn].
    destruct fuel as [|fuel]; [cbn in Hf; lia|].
    cbn [l_deleteAll_loop fmap list_fmap]. rewrite (i_hasNext_false _ Hn).
    now rewrite app_nil_r.
  - apply chain_cons_inv in Hc as (ns' & nx & -> & Hn & Hnode & Hc).
    destruct fuel as [|fuel]; [cbn in Hf; lia|].
    cbn [length] in Hmax, Hf.
    assert (Hr : INT_MIN <= Iterator.index itr + 1 <= INT_MAX)
      by (unfold INT_MIN, INT_MAX in *; lia).
    cbn [l_deleteAll_loop]. rewrite (i_hasNext_true _ Hn).
    rewrite (bind_ok _ _ _ _ _ (i_next_ok (Mem h b t) _ _ _ Hn Hnode Hr)).
    xstep. rewrite Hd. cbn [call]. unfold bind at 1, log. cbn [heap brk trace].
    rewrite (IH ns'); [|assumption..|cbn; lia|cbn; lia|lia].
    cbn [fmap list_fmap]. now rewrite <- app_assoc.
Qed.

(** With a destructor of the caller, [l_deleteAll] hands it every element
    once, in the list's order, frees every node and leaves an empty list. *)
Lemma l_deleteAll_extern m l ns vs fuel id L :
  is_list m l ns vs -> (length vs < fuel)%nat ->
  heap m !! l = Some (OList L) -> LinkedList.destructor L = Fextern id ->
  exists m',
    l_deleteAll fuel l m = Ok tt m' /\
    trace m' = trace m ++ (Ecall id <$> vs) /\
    is_list m' l [] [] /\
    (forall n, n ∈ ns -> heap m' !! n = None) /\
    (forall p, p <> l -> p ∉ ns -> heap m' !! p = heap m !! p) /\
    brk m' = brk m.
Proof.
  intros Hlist Hf HL Hd.
  pose proof Hlist as (Hl & L0 & HL0 & Hc & _ & _ & Hs & Hmax).
  assert (L0 = L) as -> by congruence.
  destruct m as [h b t]. cbn [heap brk trace] in *.
  set (m1 := Mem h b (t ++ (Ecall id <$> vs))).
  assert (Hlist1 : is_list m1 l ns vs) by (apply is_list_frame with (Mem h b t); auto).
  destruct (l_removeAll_spec m1 l ns vs fuel Hlist1 Hf)
    as (m' & L1 & L' & Hrun & _ & _ & _ & Hempty & Hgone & Hframe & Hb & Ht).
  exists m'. split.
  { unfold l_deleteAll, l_iterator. do 2 xstep.
    rewrite (bind_ok _ _ _ _ _
               (l_deleteAll_loop_extern id l L b h vs ns
                  (Iterator.mk NULL NULL (LinkedList.head L) l (-1)) fuel t HL Hl Hd Hc
                  ltac:(cbn; lia) ltac:(cbn; lia) Hf)).
    exact Hrun. }
  auto 10.
Qed.

(** X14: with a destructor of the caller, [l_destroy] hands it every
    element once, in the list's order, and frees every node and the list
    struct. *)
Theorem l_destroy_extern m l ns vs fuel id L :
  is_list m l ns vs -> (length vs < fuel)%nat ->
  heap m !! l = Some (OList L) -> LinkedList.destructor L = Fextern id ->
  exists m',
    l_destroy fuel l m = Ok tt m' /\
    trace m' = trace m ++ (Ecall id <$> vs) /\
    heap m' !! l = None /\
    (forall n, n ∈ ns -> heap m' !! n = None) /\
    (forall p, p <> l -> p ∉ ns -> heap m' !! p = heap m !! p) /\
    brk m' = brk m.
Proof.
  intros Hlist Hf HL Hd.
  destruct (l_deleteAll_extern m l ns vs fuel id L Hlist Hf HL Hd)
    as (m1 & Hrun & Ht & (Hl & L' & HL' & _) & Hgone & Hframe & Hb).
  exists (Mem (delete l (heap m1)) (brk m1) (trace m1)).
  split.
  { unfold l_destroy. rewrite (bind_ok _ _ _ _ _ Hrun). now apply free_ok with (OList L'). }
  cbn [heap brk trace].
  split; [exact Ht|]. split; [apply lookup_delete_eq|].
  split.
  { intros n Hn. destruct (decide (n = l)) as [->|Hne]; [apply lookup_delete_eq|].
    rewrite lookup_delete_ne by congruence. now apply Hgone. }
  split; [|exact Hb].
  intros p H1 H2. rewrite lookup_delete_ne by congruence. now apply Hframe.
Qed.

(** ** Appending one list to another, and copying *)

(** [l_addAll]'s loop appends the values ahead of the iterator, as long as
    the nodes it reads are not nodes of the destination. *)
Lemma l_addAll_loop_spec dest vs : forall ns itr fuel nsd vsd m,
  valid_mem m -> is_list m dest nsd vsd ->
  chain (heap m) (Iterator.next itr) ns vs NULL ->
  dest ∉ ns -> (forall n, n ∈ ns -> n ∉ nsd) ->
  -1 <= Iterator.index itr ->
  Iterator.index itr + Z.of_nat (length vs) <= INT_MAX ->
  Z.of_nat (length vsd) + Z.of_nat (length vs) <= INT_MAX ->
  (length vs < fuel)%nat ->
  exists m' nsd',
    l_addAll_loop fuel dest itr m = Ok tt m' /\
    is_list m' dest nsd' (vsd ++ vs) /\
    valid_mem m' /\
    trace m' = trace m /\
    brk m <= brk m' /\
    forall p, p <> dest -> p ∉ nsd -> p < brk m -> heap m' !! p = heap m !! p.
Proof.
  induction vs as [|v vs IH];
    intros ns itr fuel nsd vsd m Hv Hlist Hc Hdn Hdisj Hi Hmax Hlen Hf.
  - apply chain_nil_inv in Hc as [-> Hn].
    destruct fuel as [|fuel]; [cbn in Hf; lia|].
    exists m, nsd. cbn [l_addAll_loop]. rewrite (i_hasNext_false _ Hn).
    rewrite app_nil_r. split; [reflexivity|]. split; [exact Hlist|].
    split; [exact Hv|]. split; [reflexivity|]. split; [lia|reflexivity].
  - apply chain_cons_inv in Hc as (ns' & nx & -> & Hn & Hnode & Hc).
    destruct fuel as [|fuel]; [cbn in Hf; lia|].
    cbn [length] in Hmax, Hf, Hlen.
    assert (Hr : INT_MIN <= Iterator.index itr + 1 <= INT_MAX)
      by (unfold INT_MIN, INT_MAX in *; lia).
    destruct (l_addLast_spec m dest nsd vsd v Hv Hlist ltac:(lia))
      as (m1 & Hrun1 & Hlist1 & Hv1 & Hb1 & Ht1 & Hframe1).
    assert (Hlive : forall n, n ∈ ns' -> n < brk m).
    { intros n Hin. destruct Hv as [_ Hv]. apply Hv. eapply chain_live; eauto. }
    assert (Hc1 : chain (heap m1) nx ns' vs NULL).
    { apply chain_frame with (heap m); [exact Hc|].
      intros n Hin. apply Hframe1.
      - intros ->. apply Hdn. apply elem_of_cons. now right.
      - apply Hdisj. apply elem_of_cons. now right.
      - specialize (Hlive n Hin). lia. }
    destruct (IH ns' (Iterator.mk (if negb (Iterator.current itr =? NULL)
                                   then Iterator.current itr else Iterator.previous itr)
                                  (Iterator.next itr) nx (Iterator.list itr)
                                  (Iterator.index itr + 1))
                 fuel (nsd ++ [brk m]) (vsd ++ [v]) m1)
      as (m' & nsd' & Hrun & Hlist' & Hv' & Ht' & Hb' & Hframe');
      [exact Hv1|exact Hlist1|exact Hc1| | |cbn; lia|cbn; lia| |lia|].
    { intros Hin. apply Hdn. apply elem_of_cons. now right. }
    { intros n Hin Hin'. apply elem_of_app in Hin' as [Hin'|Hin'].
      - apply (Hdisj n); [apply elem_of_cons; now right|exact Hin'].
      - apply list_elem_of_singleton in Hin'. specialize (Hlive n Hin). lia. }
    { rewrite length_app. cbn [length]. lia. }
    exists m', nsd'. split; [|split; [|split; [exact Hv'|split; [congruence|split; [lia|]]]]].
    + cbn [l_addAll_loop]. rewrite (i_hasNext_true _ Hn).
      rewrite (bind_ok _ _ _ _ _ (i_next_ok m _ _ _ Hn Hnode Hr)).
      cbv beta iota. rewrite (bind_ok _ _ _ _ _ Hrun1). exact Hrun.
    + now rewrite <- app_assoc in Hlist'.
    + intros p Hp Hpn Hpb. rewrite Hframe'.
      * apply Hframe1; [exact Hp|exact Hpn|lia].
      * exact Hp.
      * intros Hin. apply elem_of_app in Hin as [Hin|Hin]; [contradiction|].
        apply list_elem_of_singleton in Hin. lia.
      * lia.
Qed.

(** X22: [l_addAll] appends the elements of [src] to [dest], in their
    order, and leaves [src] as it was, when the two lists are different and
    share no node. *)
Theorem l_addAll_spec m dest nsd vsd src ns vs fuel :
  valid_mem m -> is_list m dest nsd vsd -> is_list m src ns vs ->
  src <> dest -> (forall n, n ∈ ns -> n ∉ nsd) ->
  Z.of_nat (length vsd) + Z.of_nat (length vs) <= INT_MAX ->
  (length vs < fuel)%nat ->
  exists m' nsd',
    l_addAll fuel dest src m = Ok tt m' /\
    is_list m' dest nsd' (vsd ++ vs) /\
    is_list m' src ns vs /\
    valid_mem m' /\
    trace m' = trace m /\
    forall p, p <> dest -> p ∉ nsd -> p < brk m -> heap m' !! p = heap m !! p.
Proof.
  intros Hv Hd Hs Hne Hdisj Hlen Hf.
  pose proof Hd as (Hdl & Ld & HLd & Hcd & _).
  pose proof Hs as (Hsl & Ls & HLs & Hcs & _ & _ & Hsz & Hmax).
  assert (Hdn : dest ∉ ns).
  { intros Hin. now apply (chain_not_list _ _ _ _ _ _ _ _ Hcs HLd Hin). }
  destruct (l_addAll_loop_spec dest vs ns
              (Iterator.mk NULL NULL (LinkedList.head Ls) src (-1)) fuel nsd vsd m)
    as (m' & nsd' & Hrun & Hlist' & Hv' & Ht' & Hb' & Hframe');
    [exact Hv|exact Hd|exact Hcs|exact Hdn|exact Hdisj|cbn; lia..|exact Hlen|exact Hf|].
  exists m', nsd'. split; [|split; [exact Hlist'|split; [|auto]]].
  - unfold l_addAll, l_iterator. do 2 xstep. exact Hrun.
  - destruct Hv as [_ Hv]. apply is_list_frame with m; [exact Hs| |].
    + apply Hframe'; [exact Hne| |apply Hv; eauto].
      intros Hin. now apply (chain_not_list _ _ _ _ _ _ _ _ Hcd HLs Hin).
    + intros n Hin. apply Hframe'.
      * intros ->. contradiction.
      * now apply Hdisj.
      * apply Hv. eapply chain_live; eauto.
Qed.

Lemma l_copy_loop_l_addAll_loop fuel : forall dest itr m,
  l_copy_loop fuel dest itr m = l_addAll_loop fuel dest itr m.
Proof.
  induction fuel as [|fuel IH]; intros dest itr m; [reflexivity|].
  cbn [l_copy_loop l_addAll_loop]. destruct (i_hasNext itr); [|reflexivity].
  unfold bind. destruct (i_next itr m) as [[v itr1] m1| |]; [|reflexivity..].
  destruct (l_addLast dest v m1) as [[] m2| |]; [|reflexivity..]. apply IH.
Qed.

(** [l_copy] returns a new list with the same elements in the same order
    and the same destructor; the original is not modified. *)
Lemma l_copy_spec m l ns vs fuel :
  valid_mem m -> is_list m l ns vs -> (length vs < fuel)%nat ->
  exists m' ns' L L',
    l_copy fuel l m = Ok (brk m) m' /\
    is_list m' (brk m) ns' vs /\
    is_list m' l ns vs /\
    heap m !! l = Some (OList L) /\
    heap m' !! brk m = Some (OList L') /\
    LinkedList.destructor L' = LinkedList.destructor L /\
    valid_mem m' /\
    trace m' = trace m /\
    forall p, p < brk m -> heap m' !! p = heap m !! p.
Proof.
  intros Hv Hlist Hf.
  pose proof Hlist as (Hl & L & HL & Hc & _ & _ & Hs & Hmax).
  destruct (l_create_spec m Hv) as (m1 & Hrun1 & Hlist1 & Hv1 & Hb1 & Hframe1).
  assert (Ht1 : trace m1 = trace m) by (injection Hrun1 as <-; reflexivity).
  assert (Hlb : l <> brk m) by (apply valid_mem_fresh; eauto).
  assert (Hnb : forall n, n ∈ ns -> n <> brk m).
  { intros n Hin. apply valid_mem_fresh; [exact Hv|]. eapply chain_live; eauto. }
  assert (Hlist1' : is_list m1 l ns vs).
  { apply is_list_frame with m; [exact Hlist|now apply Hframe1|].
    intros n Hin. apply Hframe1. now apply Hnb. }
  pose proof Hlist1' as (_ & L1 & HL1 & Hc1 & _).
  assert (L1 = L) as -> by (rewrite Hframe1 in HL1 by exact Hlb; congruence).
  destruct (l_addAll_loop_spec (brk m) vs ns
              (Iterator.mk NULL NULL (LinkedList.head L) l (-1)) fuel [] [] m1)
    as (m2 & ns2 & Hrun2 & Hlist2 & Hv2 & Ht2 & Hb2 & Hframe2);
    [exact Hv1|exact Hlist1|exact Hc1| | |cbn; lia|cbn; lia|cbn; lia|exact Hf|].
  { intros Hin. now apply (Hnb _ Hin). }
  { intros n _ Hin. inversion Hin. }
  cbn [app] in Hlist2.
  pose proof Hlist2 as (Hcl & L2 & HL2 & Hc2 & Hnd2 & Htl2 & Hs2 & Hmax2).
  assert (Hframe : forall p, p < brk m -> heap m2 !! p = heap m !! p).
  { intros p Hp. rewrite Hframe2; [apply Hframe1; lia|lia| |lia].
    intros Hin. inversion Hin. }
  assert (HL' : heap m2 !! l = Some (OList L)).
  { rewrite Hframe; [exact HL|]. destruct Hv as [_ Hv]. apply Hv. eauto. }
  destruct m2 as [h2 b2 t2]. cbn [heap brk trace] in *.
  eexists. exists ns2, L. eexists. split.
  { unfold l_copy. rewrite (bind_ok _ _ _ _ _ Hrun1).
    unfold l_iterator. do 2 xstep.
    rewrite (bind_ok _ _ _ _ _ (eq_trans (l_copy_loop_l_addAll_loop _ _ _ _) Hrun2)).
    do 2 xstep. reflexivity. }
  simpl_fields.
  split.
  { split; [exact Hcl|]. eexists. split; [apply lookup_insert_eq|]. simpl_fields.
    split; [|auto].
    apply chain_frame with h2; [exact Hc2|].
    intros n Hin. apply lookup_insert_ne. intros <-.
    now apply (chain_not_list _ _ _ _ _ _ _ _ Hc2 HL2 Hin). }
  split.
  { apply is_list_frame with m; [exact Hlist| |]; cbn [heap].
    - rewrite lookup_insert_ne by congruence. rewrite HL'. now rewrite HL.
    - intros n Hin. rewrite lookup_insert_ne by (apply not_eq_sym; now apply Hnb).
      apply Hframe. destruct Hv as [_ Hv]. apply Hv. eapply chain_live; eauto. }
  split; [exact HL|]. split; [apply lookup_insert_eq|]. split; [reflexivity|].
  split; [apply valid_mem_store; [exact Hv2|eauto]|].
  split; [congruence|].
  intros p Hp. rewrite lookup_insert_ne by lia. now apply Hframe.
Qed.

(** ** Deleting: the destructor, then the removal *)

Lemma call_extern id v m :
  call (Fextern id) v m = Ok tt (Mem (heap m) (brk m) (trace m ++ [Ecall id v])).
Proof. reflexivity. Qed.

Lemma call_default_live v o m :
  v <> NULL -> heap m !! v = Some o ->
  call Fdestructor v m = Ok tt (Mem (delete v (heap m)) (brk m) (trace m)).
Proof.
  intros Hv Hh. cbn [call]. unfold destructor. rewrite (eqb_NULL _ Hv). cbn [negb].
  now apply free_ok with o.
Qed.

Lemma l_deleteFirst_runs m l n ns v vs L m1 :
  is_list m l (n :: ns) (v :: vs) -> heap m !! l = Some (OList L) ->
  call (LinkedList.destructor L) v m = Ok tt m1 ->
  l_deleteFirst l m = (l_removeFirst l ;; ret tt) m1.
Proof.
  intros (Hl & L0 & HL0 & Hc & _ & _ & Hs & _) HL Hcall.
  assert (L0 = L) as -> by congruence.
  apply chain_cons_inv in Hc as (ns' & nx & Hns & Hn & Hnode & Hc).
  unfold l_deleteFirst. xstep.
  replace (LinkedList.size L =? 0) with false
    by (symmetry; apply Z.eqb_neq; cbn [length] in Hs; lia).
  cbn [negb]. repeat xstep. now rewrite (bind_ok _ _ _ _ _ Hcall).
Qed.

Lemma l_deleteLast_runs m l ns1 n vs1 v L m1 :
  is_list m l (ns1 ++ [n]) (vs1 ++ [v]) -> heap m !! l = Some (OList L) ->
  call (LinkedList.destructor L) v m = Ok tt m1 ->
  l_deleteLast l m = (l_removeLast l ;; ret tt) m1.
Proof.
  intros (Hl & L0 & HL0 & Hc & _ & Ht & Hs & _) HL Hcall.
  assert (L0 = L) as -> by congruence.
  assert (Hlen : length ns1 = length vs1).
  { apply chain_length in Hc. rewrite !length_app in Hc. cbn [length] in Hc. lia. }
  destruct (chain_split _ _ _ _ _ _ _ Hlen Hc) as (mid & _ & Hc2).
  cbn [chain] in Hc2. destruct Hc2 as (-> & Hn & nx & Hnode & _).
  rewrite last_snoc in Ht.
  unfold l_deleteLast. xstep.
  replace (LinkedList.size L =? 0) with false
    by (symmetry; apply Z.eqb_neq; rewrite length_app in Hs; cbn [length] in Hs; lia).
  cbn [negb]. xstep. xstep. rewrite Ht. xstep. now rewrite (bind_ok _ _ _ _ _ Hcall).
Qed.

Lemma l_delete_runs m l ns vs index v L m1 :
  is_list m l ns vs -> 0 <= index -> vs !! Z.to_nat index = Some v ->
  heap m !! l = Some (OList L) ->
  call (LinkedList.destructor L) v m = Ok tt m1 ->
  l_delete l index m = (l_remove l index ;; ret tt) m1.
Proof.
  intros Hlist Hi Hv HL Hcall.
  pose proof Hlist as (Hl & L0 & HL0 & _ & _ & _ & Hs & _).
  assert (L0 = L) as -> by congruence.
  apply lookup_lt_Some in Hv as Hlt.
  unfold l_delete. xstep.
  replace ((0 <=? index) && (index <? LinkedList.size L)) with true
    by (symmetry; apply andb_true_iff; split; [apply Z.leb_le|apply Z.ltb_lt]; lia).
  xstep.
  rewrite (bind_ok _ _ _ _ _ (l_get_spec m l ns vs index Hlist)).
  replace (0 <=? index) with true by (symmetry; apply Z.leb_le; lia).
  rewrite Hv. cbn [default]. now rewrite (bind_ok _ _ _ _ _ Hcall).
Qed.

(** Outside the range, [l_delete] does nothing. *)
Lemma l_delete_out_of_range m l ns vs index :
  is_list m l ns vs -> index < 0 \/ Z.of_nat (length vs) <= index ->
  l_delete l index m = Ok tt m.
Proof.
  intros (Hl & L & HL & _ & _ & _ & Hs & _) Hi.
  unfold l_delete. xstep.
  replace ((0 <=? index) && (index <? LinkedList.size L)) with false; [reflexivity|].
  symmetry. apply andb_false_iff.
  destruct Hi; [left; apply Z.leb_gt|right; apply Z.ltb_ge]; lia.
Qed.

Lemma l_deleteFirst_empty m l :
  is_list m l [] [] -> l_deleteFirst l m = Ok tt m.
Proof.
  intros (Hl & L & HL & _ & _ & _ & Hs & _).
  unfold l_deleteFirst. xstep. cbn [length] in Hs. now rewrite Hs.
Qed.

Lemma l_deleteLast_empty m l :
  is_list m l [] [] -> l_deleteLast l m = Ok tt m.
Proof.
  intros (Hl & L & HL & _ & _ & _ & Hs & _).
  unfold l_deleteLast. xstep. cbn [length] in Hs. now rewrite Hs.
Qed.

(** X15: with a destructor of the caller, [l_delete] at an index inside a
    well-formed list hands it the element there, once, and removes that
    element. *)
Theorem l_delete_extern m l ns vs index v id L :
  is_list m l ns vs -> 0 <= index -> vs !! Z.to_nat index = Some v ->
  heap m !! l = Some (OList L) -> LinkedList.destructor L = Fextern id ->
  exists m',
    l_delete l index m = Ok tt m' /\
    is_list m' l (delete (Z.to_nat index) ns) (delete (Z.to_nat index) vs) /\
    trace m' = trace m ++ [Ecall id v] /\
    (forall old, ns !! Z.to_nat index = Some old -> heap m' !! old = None) /\
    brk m' = brk m /\
    forall p, p <> l -> p ∉ ns -> heap m' !! p = heap m !! p.
Proof.
  intros Hlist Hi Hv HL Hd.
  set (m1 := Mem (heap m) (brk m) (trace m ++ [Ecall id v])).
  assert (Hlist1 : is_list m1 l ns vs) by (apply is_list_frame with m; auto).
  destruct (l_remove_spec m1 l ns vs index v Hlist1 Hi Hv)
    as (m' & Hrun & Hlist' & Hgone & _ & Hb & Ht & Hframe).
  exists m'. split.
  { rewrite (l_delete_runs m l ns vs index v L m1 Hlist Hi Hv HL)
      by (rewrite Hd; apply call_extern).
    now rewrite (bind_ok _ _ _ _ _ Hrun). }
  auto 10.
Qed.

(** X16: with the default destructor, [l_delete] at an index inside a
    well-formed list frees the element there, a live block that is no part
    of the list, and removes it. *)
Theorem l_delete_default m l ns vs index v o L :
  is_list m l ns vs -> 0 <= index -> vs !! Z.to_nat index = Some v ->
  heap m !! l = Some (OList L) -> LinkedList.destructor L = Fdestructor ->
  v <> NULL -> heap m !! v = Some o -> v <> l -> v ∉ ns ->
  exists m',
    l_delete l index m = Ok tt m' /\
    is_list m' l (delete (Z.to_nat index) ns) (delete (Z.to_nat index) vs) /\
    heap m' !! v = None /\
    (forall old, ns !! Z.to_nat index = Some old -> heap m' !! old = None) /\
    brk m' = brk m /\ trace m' = trace m /\
    forall p, p <> l -> p ∉ ns -> p <> v -> heap m' !! p = heap m !! p.
Proof.
  intros Hlist Hi Hv HL Hd Hnull Hlive Hvl Hvn.
  set (m1 := Mem (delete v (heap m)) (brk m) (trace m)).
  assert (Hlist1 : is_list m1 l ns vs).
  { apply is_list_frame with m; [exact Hlist|apply lookup_delete_ne; congruence|].
    intros n Hn. apply lookup_delete_ne. intros ->. contradiction. }
  destruct (l_remove_spec m1 l ns vs index v Hlist1 Hi Hv)
    as (m' & Hrun & Hlist' & Hgone & _ & Hb & Ht & Hframe).
  exists m'. split.
  { rewrite (l_delete_runs m l ns vs index v L m1 Hlist Hi Hv HL)
      by (rewrite Hd; now apply call_default_live with o).
    now rewrite (bind_ok _ _ _ _ _ Hrun). }
  split; [exact Hlist'|]. split.
  { rewrite Hframe by assumption. apply lookup_delete_eq. }
  split; [exact Hgone|]. split; [exact Hb|]. split; [exact Ht|].
  intros p H1 H2 H3. rewrite Hframe by assumption. now apply lookup_delete_ne.
Qed.

(** X17: with a destructor of the caller, [l_deleteFirst] hands it the
    first element, once, and removes that element. *)
Theorem l_deleteFirst_extern m l n ns v vs id L :
  is_list m l (n :: ns) (v :: vs) ->
  heap m !! l = Some (OList L) -> LinkedList.destructor L = Fextern id ->
  exists m',
    l_deleteFirst l m = Ok tt m' /\
    is_list m' l ns vs /\
    trace m' = trace m ++ [Ecall id v] /\
    heap m' !! n = None /\
    brk m' = brk m /\
    forall p, p <> l -> p <> n -> heap m' !! p = heap m !! p.
Proof.
  intros Hlist HL Hd.
  set (m1 := Mem (heap m) (brk m) (trace m ++ [Ecall id v])).
  assert (Hlist1 : is_list m1 l (n :: ns) (v :: vs)) by (apply is_list_frame with m; auto).
  destruct (l_removeFirst_spec m1 l n ns v vs Hlist1)
    as (m' & Hrun & Hlist' & Hgone & _ & Hb & Ht & Hframe).
  exists m'. split.
  { rewrite (l_deleteFirst_runs m l n ns v vs L m1 Hlist HL)
      by (rewrite Hd; apply call_extern).
    now rewrite (bind_ok _ _ _ _ _ Hrun). }
  auto 10.
Qed.

(** X18: with a destructor of the caller, [l_deleteLast] hands it the
    last element, once, and removes that element. *)
Theorem l_deleteLast_extern m l ns1 n vs1 v id L :
  is_list m l (ns1 ++ [n]) (vs1 ++ [v]) ->
  heap m !! l = Some (OList L) -> LinkedList.destructor L = Fextern id ->
  exists m',
    l_deleteLast l m = Ok tt m' /\
    is_list m' l ns1 vs1 /\
    trace m' = trace m ++ [Ecall id v] /\
    heap m' !! n = None /\
    brk m' = brk m /\
    forall p, p <> l -> p ∉ ns1 ++ [n] -> heap m' !! p = heap m !! p.
Proof.
  intros Hlist HL Hd.
  set (m1 := Mem (heap m) (brk m) (trace m ++ [Ecall id v])).
  assert (Hlist1 : is_list m1 l (ns1 ++ [n]) (vs1 ++ [v]))
    by (apply is_list_frame with m; auto).
  destruct (l_removeLast_spec m1 l ns1 n vs1 v Hlist1)
    as (m' & Hrun & Hlist' & Hgone & _ & Hb & Ht & Hframe).
  exists m'. split.
  { rewrite (l_deleteLast_runs m l ns1 n vs1 v L m1 Hlist HL)
      by (rewrite Hd; apply call_extern).
    now rewrite (bind_ok _ _ _ _ _ Hrun). }
  auto 10.
Qed.

(** ** The default destructor on every element *)

Lemma l_deleteAll_loop_default l L b t vs : forall ns itr fuel h,
  h !! l = Some (OList L) -> l <> NULL ->
  LinkedList.destructor L = Fdestructor ->
  chain h (Iterator.next itr) ns vs NULL ->
  NoDup (blocks vs) ->
  (forall v, v ∈ blocks vs -> is_Some (h !! v) /\ v <> l /\ v ∉ ns) ->
  -1 <= Iterator.index itr ->
  Iterator.index itr + Z.of_nat (length vs) <= INT_MAX ->
  (length vs < fuel)%nat ->
  l_deleteAll_loop fuel l itr (Mem h b t) = Ok tt (Mem (without (blocks vs) h) b t).
Proof.
  induction vs as [|v vs IH]; intros ns itr fuel h HL Hl Hd Hc Hnd Hvs Hi Hmax Hf.
  - apply chain_nil_inv in Hc as [-> Hn].
    destruct fuel as [|fuel]; [cbn in Hf; lia|].
    cbn [l_deleteAll_loop]. now rewrite (i_hasNext_false _ Hn).
  - apply chain_cons_inv in Hc as (ns' & nx & -> & Hn & Hnode & Hc).
    destruct fuel as [|fuel]; [cbn in Hf; lia|].
    cbn [length] in Hmax, Hf.
    assert (Hr : INT_MIN <= Iterator.index itr + 1 <= INT_MAX)
      by (unfold INT_MIN, INT_MAX in *; lia).
    cbn [l_deleteAll_loop]. rewrite (i_hasNext_true _ Hn).
    rewrite (bind_ok _ _ _ _ _ (i_next_ok (Mem h b t) _ _ _ Hn Hnode Hr)).
    xstep. rewrite Hd. cbn [call]. unfold destructor.
    unfold blocks in *. cbn [List.filter] in *.
    destruct (v =? NULL) eqn:Ev; cbn [negb] in *.
    + rewrite bind_ret. apply IH with ns'; try assumption; [|cbn; lia|cbn; lia|lia].
      intros v' Hv'. destruct (Hvs v' Hv') as (H1 & H2 & H3).
      split; [exact H1|]. split; [exact H2|].
      intros Hin. apply H3. apply elem_of_cons. now right.
    + apply Z.eqb_neq in Ev.
      apply NoDup_cons in Hnd as [Hvn Hnd].
      destruct (Hvs v) as ([o Ho] & Hvl & Hvns); [apply elem_of_cons; now left|].
      rewrite (bind_ok _ _ _ _ _ (free_ok v o (Mem h b t) Ev Ho)).
      cbn [heap brk trace without foldl]. fold (without (List.filter (fun v0 => negb (v0 =? NULL)) vs) (delete v h)).
      apply IH with ns'.
      * rewrite lookup_delete_ne by congruence. exact HL.
      * exact Hl.
      * exact Hd.
      * apply chain_frame with h; [exact Hc|].
        intros n Hin. apply lookup_delete_ne. intros ->. apply Hvns.
        apply elem_of_cons. now right.
      * exact Hnd.
      * intros v' Hv'. destruct (Hvs v') as (H1 & H2 & H3); [apply elem_of_cons; now right|].
        split; [|split; [exact H2|]].
        -- rewrite lookup_delete_ne; [exact H1|]. intros ->. contradiction.
        -- intros Hin. apply H3. apply elem_of_cons. now right.
      * cbn. lia.
      * cbn. lia.
      * lia.
Qed.

(** X13: with the default destructor, [l_deleteAll] frees every element
    that is not null, and every node, and leaves an empty list, provided
    the elements are distinct live blocks that are no part of the list. *)
Theorem l_deleteAll_default m l ns vs fuel L :
  is_list m l ns vs -> (length vs < fuel)%nat ->
  heap m !! l = Some (OList L) -> LinkedList.destructor L = Fdestructor ->
  NoDup (blocks vs) ->
  (forall v, v ∈ blocks vs -> is_Some (heap m !! v) /\ v <> l /\ v ∉ ns) ->
  exists m',
    l_deleteAll fuel l m = Ok tt m' /\
    is_list m' l [] [] /\
    (forall v, v ∈ blocks vs -> heap m' !! v = None) /\
    (forall n, n ∈ ns -> heap m' !! n = None) /\
    (forall p, p <> l -> p ∉ ns -> p ∉ blocks vs -> heap m' !! p = heap m !! p) /\
    brk m' = brk m /\ trace m' = trace m.
Proof.
  intros Hlist Hf HL Hd Hnd Hvs.
  pose proof Hlist as (Hl & L0 & HL0 & Hc & _ & _ & Hs & Hmax).
  assert (L0 = L) as -> by congruence.
  destruct m as [h b t]. cbn [heap brk trace] in *.
  set (m1 := Mem (without (blocks vs) h) b t).
  assert (Hsame : forall p, p ∉ blocks vs -> heap m1 !! p = h !! p).
  { intros p Hp. cbn [heap m1]. rewrite lookup_without.
    destruct (decide (p ∈ blocks vs)); [contradiction|reflexivity]. }
  assert (Hlist1 : is_list m1 l ns vs).
  { apply is_list_frame with (Mem h b t); [exact Hlist| |].
    - apply Hsame. intros Hin. now destruct (Hvs l Hin) as (_ & ? & _).
    - intros n Hn. apply Hsame. intros Hin. now destruct (Hvs n Hin) as (_ & _ & ?). }
  destruct (l_removeAll_spec m1 l ns vs fuel Hlist1 Hf)
    as (m' & L1 & L' & Hrun & _ & _ & _ & Hempty & Hgone & Hframe & Hb & Ht).
  exists m'. split.
  { unfold l_deleteAll, l_iterator. do 2 xstep.
    rewrite (bind_ok _ _ _ _ _
               (l_deleteAll_loop_default l L b t vs ns
                  (Iterator.mk NULL NULL (LinkedList.head L) l (-1)) fuel h HL Hl Hd Hc
                  Hnd Hvs ltac:(cbn; lia) ltac:(cbn; lia) Hf)).
    exact Hrun. }
  split; [exact Hempty|]. split.
  { intros v Hv. destruct (Hvs v Hv) as (_ & H2 & H3).
    rewrite Hframe by assumption. cbn [heap m1]. rewrite lookup_without.
    destruct (decide (v ∈ blocks vs)); [reflexivity|contradiction]. }
  split; [exact Hgone|]. split; [|split; assumption].
  intros p H1 H2 H3. rewrite Hframe by assumption. now apply Hsame.
Qed.

(** ** Mapping with a destructor of the caller *)

Lemma l_dmap_loop_extern mapper id l L b vs : forall ns itr fuel h t,
  h !! l = Some (OList L) -> l <> NULL -> l ∉ ns ->
  LinkedList.destructor L = Fextern id ->
  chain h (Iterator.next itr) ns vs NULL -> NoDup ns ->
  -1 <= Iterator.index itr ->
  Iterator.index itr + Z.of_nat (length vs) <= INT_MAX ->
  (length vs < fuel)%nat ->
  exists h',
    l_dmap_loop fuel l mapper itr (Mem h b t)
    = Ok tt (Mem h' b (t ++ (Ecall id <$> vs))) /\
    chain h' (Iterator.next itr) ns (image mapper <$> vs) NULL /\
    forall p, p ∉ ns -> h' !! p = h !! p.
Proof.
  induction vs as [|v vs IH]; intros ns itr fuel h t HL Hl Hln Hd Hc Hnd Hi Hmax Hf.
  - apply chain_nil_inv in Hc as [-> Hn].
    destruct fuel as [|fuel]; [cbn in Hf; lia|].
    exists h. cbn [l_dmap_loop fmap list_fmap]. rewrite (i_hasNext_false _ Hn).
    rewrite app_nil_r. split; [reflexivity|]. split; [exact Hn|reflexivity].
  - apply chain_cons_inv in Hc as (ns' & nx & -> & Hn & Hnode & Hc).
    apply NoDup_cons in Hnd as [Hnn Hnd].
    destruct fuel as [|fuel]; [cbn in Hf; lia|].
    cbn [length] in Hmax, Hf.
    assert (Hr : INT_MIN <= Iterator.index itr + 1 <= INT_MAX)
      by (unfold INT_MIN, INT_MAX in *; lia).
    assert (Hlne : l <> Iterator.next itr).
    { intros ->. apply Hln. apply elem_of_cons. now left. }
    set (h1 := <[Iterator.next itr := ONode (ListNode.mk (image mapper v) nx)]> h).
    destruct (IH ns' (Iterator.mk (if negb (Iterator.current itr =? NULL)
                                   then Iterator.current itr else Iterator.previous itr)
                                  (Iterator.next itr) nx (Iterator.list itr)
                                  (Iterator.index itr + 1)) fuel h1 (t ++ [Ecall id v]))
      as (h' & Hrun & Hc' & Hframe); [| | | | |exact Hnd|cbn; lia..|].
    { unfold h1. rewrite lookup_insert_ne by congruence. exact HL. }
    { exact Hl. }
    { intros Hin. apply Hln. apply elem_of_cons. now right. }
    { exact Hd. }
    { apply chain_frame with h; [exact Hc|].
      intros n Hn'. apply lookup_insert_ne. intros <-. contradiction. }
    exists h'. split; [|split].
    + cbn [l_dmap_loop]. rewrite (i_hasNext_true _ Hn).
      rewrite (bind_ok _ _ _ _ _ (i_next_ok (Mem h b t) _ _ _ Hn Hnode Hr)).
      cbv beta iota. cbn [Iterator.current].
      do 2 xstep. rewrite Hd.
      rewrite (bind_ok _ _ _ _ _ (call_extern id v (Mem h b t))).
      cbn [heap brk trace].
      rewrite (bind_ok _ _ _ _ _
                 (set_value_ok _ _ (image mapper v) (Mem h b (t ++ [Ecall id v])) Hn Hnode)).
      cbn [heap brk trace ListNode.next]. fold h1.
      rewrite Hrun. cbn [fmap list_fmap]. now rewrite <- app_assoc.
    + cbn [fmap list_fmap]. apply chain_cons_intro with nx; [exact Hn| |exact Hc'].
      rewrite Hframe by exact Hnn. apply lookup_insert_eq.
    + intros p Hp. rewrite Hframe.
      * apply lookup_insert_ne. intros <-. apply Hp. apply elem_of_cons. now left.
      * intros Hin. apply Hp. apply elem_of_cons. now right.
Qed.

(** X26: with a destructor of the caller, [l_dmap] hands it every old
    element, in the list's order, and replaces every element by its
    image. *)
Theorem l_dmap_extern m l ns vs fuel mapper id L :
  is_list m l ns vs -> (length vs < fuel)%nat ->
  heap m !! l = Some (OList L) -> LinkedList.destructor L = Fextern id ->
  exists m',
    l_dmap fuel l mapper m = Ok tt m' /\
    is_list m' l ns (image mapper <$> vs) /\
    trace m' = trace m ++ (Ecall id <$> vs) /\
    (forall p, p ∉ ns -> heap m' !! p = heap m !! p) /\
    brk m' = brk m.
Proof.
  intros Hlist Hf HL Hd.
  pose proof Hlist as (Hl & L0 & HL0 & Hc & Hnd & Ht & Hs & Hmax).
  assert (L0 = L) as -> by congruence.
  assert (Hln : l ∉ ns).
  { intros Hin. now apply (chain_not_list _ _ _ _ _ _ _ _ Hc HL Hin). }
  destruct m as [h b t]. cbn [heap brk trace] in *.
  destruct (l_dmap_loop_extern mapper id l L b vs ns
              (Iterator.mk NULL NULL (LinkedList.head L) l (-1)) fuel h t)
    as (h' & Hrun & Hc' & Hframe); [assumption..|cbn; lia|cbn; lia|exact Hf|].
  exists (Mem h' b (t ++ (Ecall id <$> vs))). split.
  { unfold l_dmap, l_iterator. do 2 xstep. exact Hrun. }
  cbn [heap brk trace]. split; [|auto].
  split; [exact Hl|]. exists L. split; [now rewrite Hframe|].
  split; [exact Hc'|]. split; [exact Hnd|]. split; [exact Ht|].
  now rewrite length_fmap.
Qed.

(** ** Appending a list to itself *)

(** At [INT_MAX] elements the increment of [size] in [l_addLast]
    overflows. *)
Lemma l_addLast_full m l ns vs v :
  valid_mem m -> is_list m l ns vs -> Z.of_nat (length vs) = INT_MAX ->
  l_addLast l v m = UB.
Proof.
  intros Hv (Hl & L & HL & Hc & Hnd & Ht & Hs & Hmax) Hlen.
  assert (Hb : brk m <> NULL) by now apply valid_mem_brk.
  assert (Hfresh : forall p, is_Some (heap m !! p) -> p <> brk m)
    by (intros p; now apply valid_mem_fresh).
  assert (Hlb : l <> brk m) by (apply Hfresh; eauto).
  assert (Hne : ns <> []).
  { intros ->. apply chain_no_nodes_inv in Hc as [-> _]. discriminate. }
  destruct (chain_last _ _ _ _ Hc Hne) as (Htn & tv & Htl).
  assert (Htb : List.last ns NULL <> brk m) by (apply Hfresh; eauto).
  assert (Htl' : List.last ns NULL <> l).
  { intros E. rewrite E, HL in Htl. discriminate. }
  destruct L as [hd tl d sz]. simpl_fields. subst sz tl.
  unfold l_addLast, new_node, incr_size.
  do 2 xstep. rewrite Hlen. change (negb (INT_MAX =? 0)) with true. cbv iota.
  do 4 xstep. rewrite Hlen. reflexivity.
Qed.

(** While the iterator of [l_addAll(list, list)] is not at the last node,
    every round appends a node behind it: the loop ends by overflow or not
    at all. *)
Lemma l_addAll_loop_self l fuel : forall m ns vs itr i m',
  valid_mem m -> is_list m l ns vs ->
  ns !! i = Some (Iterator.next itr) -> (S i < length ns)%nat ->
  Iterator.index itr = Z.of_nat i - 1 ->
  l_addAll_loop fuel l itr m <> Ok tt m'.
Proof.
  induction fuel as [|fuel IH]; intros m ns vs itr i m' Hv Hlist Hi Hlt Hidx;
    [discriminate|].
  pose proof Hlist as (Hl & L & HL & Hc & Hnd & Ht & Hs & Hmax).
  pose proof (chain_length _ _ _ _ _ Hc) as Hlen.
  destruct (lookup_lt_is_Some_2 vs i ltac:(lia)) as [v Hvi].
  destruct (chain_at_index _ _ _ _ _ _ _ Hc Hvi)
    as (ns1 & n & ns2 & vs1 & vs2 & nx & Hns & Hvs & Hl1 & Hl2 & _ & Hn & Hnode & Hc2).
  assert (n = Iterator.next itr) as ->.
  { rewrite Hns in Hi. rewrite list_lookup_middle in Hi by congruence. congruence. }
  assert (Hns2 : ns !! S i = Some nx).
  { destruct ns2 as [|n2 ns2], vs2 as [|v2 vs2]; cbn [chain] in Hc2.
    - rewrite Hns, length_app in Hlt. cbn [length] in Hlt. lia.
    - contradiction.
    - contradiction.
    - destruct Hc2 as (-> & _). rewrite Hns.
      change (ns1 ++ Iterator.next itr :: n2 :: ns2)
        with (ns1 ++ [Iterator.next itr] ++ n2 :: ns2).
      rewrite app_assoc. apply list_lookup_middle.
      rewrite length_app. cbn [length]. lia. }
  assert (Hr : INT_MIN <= Iterator.index itr + 1 <= INT_MAX)
    by (unfold INT_MIN, INT_MAX in *; lia).
  cbn [l_addAll_loop]. rewrite (i_hasNext_true _ Hn).
  rewrite (bind_ok _ _ _ _ _ (i_next_ok m _ _ _ Hn Hnode Hr)). cbv beta iota.
  destruct (Z.eq_dec (Z.of_nat (length vs)) INT_MAX) as [Hfull|Hroom].
  - unfold bind. now rewrite (l_addLast_full m l ns vs v Hv Hlist Hfull).
  - destruct (l_addLast_spec m l ns vs v Hv Hlist ltac:(lia))
      as (m1 & Hrun1 & Hlist1 & Hv1 & _).
    rewrite (bind_ok _ _ _ _ _ Hrun1).
    apply IH with (ns ++ [brk m]) (vs ++ [v]) (S i).
    + exact Hv1.
    + exact Hlist1.
    + cbn [Iterator.next]. rewrite lookup_app_l by lia. exact Hns2.
    + rewrite length_app. cbn [length]. lia.
    + cbn [Iterator.index]. lia.
Qed.

(** X23: [l_addAll(list, list)] on a well-formed list of two or more
    elements never returns: every round appends a node behind the
    iterator, until the size overflows. *)
Theorem l_addAll_self_never_returns m l ns vs fuel m' :
  valid_mem m -> is_list m l ns vs -> (2 <= length vs)%nat ->
  l_addAll fuel l l m <> Ok tt m'.
Proof.
  intros Hv Hlist Hlen.
  pose proof Hlist as (Hl & L & HL & Hc & _).
  pose proof (chain_length _ _ _ _ _ Hc) as Hlen'.
  unfold l_addAll, l_iterator. rewrite bind_assoc.
  rewrite (bind_ok _ _ _ _ _ (get_head_ok l L m Hl HL)), bind_ret.
  apply l_addAll_loop_self with ns vs 0%nat; [exact Hv|exact Hlist| |lia|reflexivity].
  destruct ns as [|n ns], vs as [|v vs]; cbn [length] in *; try lia.
  cbn [chain] in Hc. destruct Hc as (-> & _). reflexivity.
Qed.

(** A list of one element appended to itself holds that element twice: the
    iterator has read the null link of the only node before the node is
    given a successor. *)
Lemma l_addAll_self_singleton m l n v fuel :
  valid_mem m -> is_list m l [n] [v] ->
  exists m',
    l_addAll (S (S fuel)) l l m = Ok tt m' /\
    is_list m' l [n; brk m] [v; v] /\ valid_mem m'.
Proof.
  intros Hv Hlist.
  pose proof Hlist as (Hl & L & HL & Hc & _).
  cbn [chain] in Hc. destruct Hc as (Hhd & Hn & nx & Hnode & ->).
  destruct (l_addLast_spec m l [n] [v] v Hv Hlist ltac:(cbn; unfold INT_MAX; lia))
    as (m1 & Hrun1 & Hlist1 & Hv1 & _).
  exists m1. split; [|split; assumption].
  unfold l_addAll, l_iterator. do 2 xstep. rewrite Hhd.
  cbn [l_addAll_loop]. rewrite i_hasNext_true by exact Hn.
  rewrite (bind_ok _ _ _ _ _
             (i_next_ok m (Iterator.mk NULL NULL n l (-1)) v NULL Hn Hnode
                ltac:(vm_compute; intuition discriminate))).
  cbv beta iota. rewrite (bind_ok _ _ _ _ _ Hrun1).
  now rewrite i_hasNext_false.
Qed.

(** ** The string form of a list *)

Lemma string_length_app (s1 s2 : string) :
  String.length (s1 +:+ s2) = (String.length s1 + String.length s2)%nat.
Proof. induction s1 as [|a s1 IH]; simpl; [reflexivity|f_equal; exact IH]. Qed.

Lemma string_app_assoc (s1 s2 s3 : string) : (s1 +:+ s2) +:+ s3 = s1 +:+ s2 +:+ s3.
Proof.
  induction s1 as [|a s1 IH]; [reflexivity|].
  change (String a ((s1 +:+ s2) +:+ s3) = String a (s1 +:+ s2 +:+ s3)).
  f_equal. exact IH.
Qed.

Lemma strcat_ok bytes dest src m :
  Z.of_nat (String.length dest) + Z.of_nat (String.length src) + 1 <= bytes ->
  strcat bytes dest src m = Ok (dest +:+ src) m.
Proof. intros H. unfold strcat. now rewrite (proj2 (Z.leb_le _ _) H). Qed.

(** X27: [l_toString] on an empty list is undefined: the buffer has one
    byte, and the opening bracket with its terminator needs two. *)
Theorem l_toString_empty m l fuel stringFunction length :
  is_list m l [] [] -> l_toString fuel l stringFunction length m = UB.
Proof.
  intros (Hl & L & HL & _ & _ & _ & Hs & _). cbn [List.length] in Hs.
  unfold l_toString. xstep. rewrite Hs.
  unfold int at 1. destruct (in_int (length + 2)); [|reflexivity].
  rewrite bind_ret. change (Z.of_nat 0) with 0. rewrite Z.mul_0_l.
  do 3 xstep. unfold l_iterator, get_head, list_at, load, bind.
  cbn [heap brk trace]. rewrite (eqb_NULL _ Hl).
  destruct (<[brk m := OBlock]> (heap m) !! l) as [[]|]; reflexivity.
Qed.

(** [l_toString]'s loop with at least one element ahead: it appends the
    strings of the elements, with a separator after each but the last, and
    leaves room for the closing bracket. *)
Lemma l_toString_loop_spec l L stringFunction bytes width h t vs :
  forall v ns itr fuel str b,
    h !! l = Some (OList L) -> l <> NULL ->
    chain h (Iterator.next itr) ns (v :: vs) NULL ->
    0 < b -> (forall p, b <= p -> h !! p = None) ->
    -1 <= Iterator.index itr ->
    Iterator.index itr + 1 + Z.of_nat (length (v :: vs)) = LinkedList.size L ->
    LinkedList.size L <= INT_MAX ->
    (forall x, x ∈ v :: vs -> Z.of_nat (String.length (stringFunction x)) <= width) ->
    Z.of_nat (String.length str) + Z.of_nat (length (v :: vs)) * (width + 2) <= bytes ->
    (length (v :: vs) < fuel)%nat ->
    l_toString_loop fuel l stringFunction bytes itr str (Mem h b t)
    = Ok (str +:+ String.concat ", " (stringFunction <$> v :: vs))
         (Mem h (b + Z.of_nat (length (v :: vs))) t) /\
    Z.of_nat (String.length (str +:+ String.concat ", " (stringFunction <$> v :: vs))) + 2
    <= bytes.
Proof.
  induction vs as [|v' vs IH];
    intros v ns itr fuel str b HL Hl Hc Hb Hfree Hi Hidx Hmax Hw Hroom Hf.
  - apply chain_cons_inv in Hc as (ns' & nx & -> & Hn & Hnode & Hc).
    apply chain_nil_inv in Hc as [-> ->].
    destruct fuel as [|[|fuel]]; [cbn in Hf; lia..|].
    cbn [length] in *.
    assert (Hr : INT_MIN <= Iterator.index itr + 1 <= INT_MAX)
      by (unfold INT_MIN, INT_MAX in *; lia).
    assert (Hv : Z.of_nat (String.length (stringFunction v)) <= width)
      by (apply Hw, elem_of_cons; now left).
    assert (Hbn : b <> NULL) by (unfold NULL; lia).
    assert (Hlb : l <> b).
    { intros ->. rewrite Hfree in HL by lia. discriminate. }
    cbn [fmap list_fmap String.concat]. split.
    + cbn [l_toString_loop]. rewrite (i_hasNext_true _ Hn).
      rewrite (bind_ok _ _ _ _ _ (i_next_ok (Mem h b t) _ _ _ Hn Hnode Hr)).
      cbv beta iota. unfold call_stringFunction. rewrite !bind_assoc.
      xstep. rewrite bind_ret. cbv beta iota.
      rewrite (bind_ok _ _ _ _ _ (strcat_ok bytes str (stringFunction v) _ ltac:(lia))).
      xstep. rewrite delete_insert_id by (apply Hfree; lia).
      do 2 xstep. cbn [Iterator.index].
      replace (Iterator.index itr + 1 =? LinkedList.size L - 1) with true
        by (symmetry; apply Z.eqb_eq; lia).
      cbn [negb]. rewrite bind_ret.
      cbn [l_toString_loop]. rewrite i_hasNext_false by reflexivity.
      reflexivity.
    + rewrite string_length_app. lia.
  - apply chain_cons_inv in Hc as (ns' & nx & -> & Hn & Hnode & Hc).
    destruct fuel as [|fuel]; [cbn in Hf; lia|].
    assert (Hr : INT_MIN <= Iterator.index itr + 1 <= INT_MAX)
      by (unfold INT_MIN, INT_MAX in *; cbn [length] in *; lia).
    assert (Hv : Z.of_nat (String.length (stringFunction v)) <= width)
      by (apply Hw, elem_of_cons; now left).
    assert (Hbn : b <> NULL) by (unfold NULL; lia).
    assert (Hlb : l <> b).
    { intros ->. rewrite Hfree in HL by lia. discriminate. }
    assert (Hk : Z.of_nat (length (v :: v' :: vs)) * (width + 2)
                 = Z.of_nat (length (v' :: vs)) * (width + 2) + (width + 2))
      by (cbn [length]; lia).
    assert (Hk1 : 0 <= Z.of_nat (length (v' :: vs)) * (width + 2) - (width + 2)).
    { cbn [length]. assert (0 <= width) by lia. nia. }
    set (str2 := (str +:+ stringFunction v) +:+ ", ").
    assert (Hlen2 : Z.of_nat (String.length str2)
                    = Z.of_nat (String.length str)
                      + Z.of_nat (String.length (stringFunction v)) + 2).
    { unfold str2. rewrite !string_length_app. cbn [String.length]. lia. }
    destruct (IH v' ns' (Iterator.mk (if negb (Iterator.current itr =? NULL)
                                      then Iterator.current itr else Iterator.previous itr)
                                     (Iterator.next itr) nx (Iterator.list itr)
                                     (Iterator.index itr + 1)) fuel str2 (b + 1))
      as [Hrun Hfit]; [exact HL|exact Hl|exact Hc|lia| |cbn; lia| |exact Hmax| | | |].
    { intros p Hp. apply Hfree. lia. }
    { cbn [Iterator.index length] in *. lia. }
    { intros x Hx. apply Hw, elem_of_cons. now right. }
    { lia. }
    { cbn [length] in *. lia. }
    assert (Hres : str +:+ String.concat ", " (stringFunction <$> v :: v' :: vs)
                   = str2 +:+ String.concat ", " (stringFunction <$> v' :: vs)).
    { unfold str2. cbn [fmap list_fmap String.concat].
      now rewrite !string_app_assoc. }
    rewrite Hres. split; [|exact Hfit].
    cbn [l_toString_loop]. rewrite (i_hasNext_true _ Hn).
    rewrite (bind_ok _ _ _ _ _ (i_next_ok (Mem h b t) _ _ _ Hn Hnode Hr)).
    cbv beta iota. unfold call_stringFunction. rewrite !bind_assoc.
    xstep. rewrite bind_ret. cbv beta iota.
    rewrite (bind_ok _ _ _ _ _ (strcat_ok bytes str (stringFunction v) _ ltac:(lia))).
    xstep. rewrite delete_insert_id by (apply Hfree; lia).
    do 2 xstep. cbn [Iterator.index].
    replace (Iterator.index itr + 1 =? LinkedList.size L - 1) with false
      by (symmetry; apply Z.eqb_neq; cbn [length] in *; lia).
    cbn [negb].
    rewrite (bind_ok _ _ _ _ _
               (strcat_ok bytes (str +:+ stringFunction v) ", " _
                  ltac:(rewrite string_length_app; cbn [String.length]; lia))).
    fold str2. rewrite Hrun. do 2 f_equal. cbn [length]. lia.
Qed.

(** X28: on a well-formed list that is not empty, whose elements have
    strings of at most [length] characters, [l_toString] returns the
    strings between brackets, separated by a comma and a space, in a
    buffer of its own. *)
Theorem l_toString_spec m l ns vs fuel stringFunction width :
  valid_mem m -> is_list m l ns vs -> vs <> [] ->
  (forall x, x ∈ vs -> Z.of_nat (String.length (stringFunction x)) <= width) ->
  Z.of_nat (length vs) * (width + 2) + 1 <= INT_MAX ->
  (length vs < fuel)%nat ->
  l_toString fuel l stringFunction width m
  = Ok (brk m, "[" +:+ String.concat ", " (stringFunction <$> vs) +:+ "]")
       (Mem (<[brk m := OBlock]> (heap m)) (brk m + 1 + Z.of_nat (length vs)) (trace m)).
Proof.
  intros Hv (Hl & L & HL & Hc & _ & _ & Hs & Hmax) Hne Hw Hbytes Hf.
  destruct vs as [|v vs]; [contradiction|].
  assert (Hw0 : 0 <= width).
  { pose proof (Hw v ltac:(apply elem_of_cons; now left)). lia. }
  assert (Hn1 : 1 <= Z.of_nat (length (v :: vs))) by (cbn [length]; lia).
  assert (Hprod : width + 2 <= Z.of_nat (length (v :: vs)) * (width + 2)) by nia.
  assert (Hfresh : forall p, is_Some (heap m !! p) -> p <> brk m)
    by (intros p; now apply valid_mem_fresh).
  assert (Hlb : l <> brk m) by (apply Hfresh; eauto).
  assert (Hb : 0 < brk m) by (destruct Hv; assumption).
  set (bytes := Z.of_nat (length (v :: vs)) * (width + 2) + 1).
  set (h1 := <[brk m := OBlock]> (heap m)).
  assert (HL1 : h1 !! l = Some (OList L)).
  { unfold h1. rewrite lookup_insert_ne by congruence. exact HL. }
  destruct (l_toString_loop_spec l L stringFunction bytes width h1 (trace m) vs v ns
              (Iterator.mk NULL NULL (LinkedList.head L) l (-1)) fuel "[" (brk m + 1))
    as [Hrun Hfit]; [exact HL1|exact Hl| |lia| |cbn; lia|cbn [Iterator.index]; lia
                    |exact Hmax|exact Hw| |exact Hf|].
  { apply chain_frame with (heap m); [exact Hc|].
    intros n Hn. apply lookup_insert_ne. intros E. apply (Hfresh n); [|now symmetry].
    eapply chain_live; eauto. }
  { intros p Hp. unfold h1. rewrite lookup_insert_ne by lia.
    destruct (heap m !! p) eqn:E; [|reflexivity].
    destruct Hv as [_ Hv]. specialize (Hv p ltac:(eauto)). lia. }
  { unfold bytes. cbn [String.length]. lia. }
  unfold l_toString. xstep. rewrite Hs.
  rewrite (bind_ok _ _ _ _ _ (int_ok (width + 2) ltac:(unfold INT_MIN, INT_MAX in *; lia) m)).
  rewrite (bind_ok _ _ _ _ _
             (int_ok (Z.of_nat (length (v :: vs)) * (width + 2))
                ltac:(unfold INT_MIN, INT_MAX in *; lia) m)).
  rewrite (bind_ok _ _ _ _ _ (int_ok bytes ltac:(unfold bytes, INT_MIN, INT_MAX in *; lia) m)).
  xstep. fold h1. unfold l_iterator. rewrite !bind_assoc.
  rewrite (bind_ok _ _ _ _ _ (get_head_ok l L (Mem h1 (brk m + 1) (trace m)) Hl HL1)).
  rewrite bind_ret.
  unfold strcpy at 1. cbn [String.length].
  replace (Z.of_nat 1 + 1 <=? bytes) with true
    by (symmetry; apply Z.leb_le; unfold bytes; lia).
  rewrite bind_ret.
  rewrite (bind_ok _ _ _ _ _ Hrun).
  rewrite (bind_ok _ _ _ _ _
             (strcat_ok bytes ("[" +:+ String.concat ", " (stringFunction <$> v :: vs)) "]" _
                ltac:(cbn [String.length] in *; lia))).
  unfold ret. now rewrite string_app_assoc.
Qed.

(** ** Removal by predicate when both ends stay *)

Section RemoveIfNodes.

Variable selector : Predicate.t.
Variable l hd : ptr.
Hypothesis l_not_null : l <> NULL.

Local Abbreviation keep := (fun v => negb (accepts selector v)).


End RemoveIfNodes.
Lemma last_default {A} (l : list A) d : List.last l d = default d (last l).
Proof.
  induction l as [|x [|y l] IH]; [reflexivity..|].
  rewrite last_cons_cons. exact IH.
Qed.




(** ** Facts about the example memories *)

Lemma valid_mem_check m :
  bool_decide (0 < brk m /\ map_Forall (fun p _ => 0 < p < brk m) (heap m)) = true ->
  valid_mem m.
Proof.
  intros H. apply bool_decide_eq_true in H as [Hb Hall].
  split; [exact Hb|]. intros p [o Hp]. exact (Hall p o Hp).
Qed.

Ltac concrete_valid_mem := apply valid_mem_check; vm_compute; reflexivity.

Ltac concrete_is_list :=
  split; [discriminate|];
  eexists; split; [vm_compute; reflexivity|];
  split; [cbn; repeat (split; [reflexivity|]; split; [discriminate|];
                       eexists; split; [vm_compute; reflexivity|]); reflexivity|];
  split; [apply (bool_decide_unpack _); vm_compute; exact I|];
  repeat split; discriminate.

Lemma is_list_1_2 : is_list mem_1_2 1000 [1001; 1002] [1; 2].
Proof. concrete_is_list. Qed.

Lemma is_list_empty_list : is_list mem_empty_list 1000 [] [].
Proof. concrete_is_list. Qed.

Lemma valid_mem_5_6_7_extern : valid_mem mem_5_6_7_extern.
Proof. concrete_valid_mem. Qed.

Lemma is_list_5_6_7_extern : is_list mem_5_6_7_extern 1000 [1001; 1002; 1003] [5; 6; 7].
Proof. concrete_is_list. Qed.

Lemma valid_mem_two_blocks : valid_mem mem_two_blocks.
Proof. concrete_valid_mem. Qed.

Lemma is_list_two_blocks : is_list mem_two_blocks 1000 [1001; 1003] [1002; 1004].
Proof. concrete_is_list. Qed.

Lemma valid_mem_two_lists : valid_mem mem_two_lists.
Proof. concrete_valid_mem. Qed.

Lemma is_list_two_lists_1 : is_list mem_two_lists 1000 [1001; 1002] [1; 2].
Proof. concrete_is_list. Qed.

Lemma is_list_two_lists_2 : is_list mem_two_lists 1003 [1004; 1005] [3; 4].
Proof. concrete_is_list. Qed.

Lemma valid_mem_list_and_array : valid_mem mem_list_and_array.
Proof. concrete_valid_mem. Qed.

Lemma is_list_list_and_array : is_list mem_list_and_array 1000 [1001; 1002] [1; 2].
Proof. concrete_is_list. Qed.

(** * The operations on well-formed lists *)

(** X1: on a well-formed list, [l_get] returns the element at the index,
    and [NULL] for an index outside the list; [l_getFirst] and [l_getLast]
    return the first and the last element, and [NULL] on an empty list.
    None of them changes the memory. *)
Theorem l_get_returns_element m l ns vs index :
  is_list m l ns vs ->
  l_get l index m
  = Ok (if 0 <=? index then default NULL (vs !! Z.to_nat index) else NULL) m /\
  l_getFirst l m = Ok (default NULL (head vs)) m /\
  l_getLast l m = Ok (default NULL (last vs)) m.
Proof.
  intros Hlist. split; [now apply l_get_spec with ns|]. split.
  - unfold l_getFirst. rewrite (l_get_spec m l ns vs 0 Hlist).
    now rewrite head_lookup.
  - rewrite (l_getLast_spec m l ns vs Hlist). now rewrite last_default.
Qed.

(** X4: [l_addFirst] on a well-formed list puts the value in front, in a
    node at the address the allocator hands out, and touches nothing but
    the list struct and the new node. *)
Theorem l_addFirst_prepends m l ns vs v :
  valid_mem m -> is_list m l ns vs -> Z.of_nat (length vs) < INT_MAX ->
  exists m',
    l_addFirst l v m = Ok tt m' /\
    is_list m' l (brk m :: ns) (v :: vs) /\
    valid_mem m' /\
    brk m' = brk m + 1 /\
    trace m' = trace m /\
    forall p, p <> l -> p <> brk m -> heap m' !! p = heap m !! p.
Proof. apply l_addFirst_spec. Qed.

(** X5: [l_addLast] on a well-formed list puts the value behind the last
    element, in a node at the address the allocator hands out, and touches
    nothing but the list struct, the old last node and the new node. *)
Theorem l_addLast_appends m l ns vs v :
  valid_mem m -> is_list m l ns vs -> Z.of_nat (length vs) < INT_MAX ->
  exists m',
    l_addLast l v m = Ok tt m' /\
    is_list m' l (ns ++ [brk m]) (vs ++ [v]) /\
    valid_mem m' /\
    brk m' = brk m + 1 /\
    trace m' = trace m /\
    forall p, p <> l -> p ∉ ns -> p <> brk m -> heap m' !! p = heap m !! p.
Proof. apply l_addLast_spec. Qed.

(** X7: [l_removeFirst] on a well-formed list that is not empty returns
    the first element, frees its node and leaves the rest of the list. *)
Theorem l_removeFirst_removes_head m l n ns v vs :
  is_list m l (n :: ns) (v :: vs) ->
  exists m',
    l_removeFirst l m = Ok (Value v) m' /\
    is_list m' l ns vs /\
    heap m' !! n = None /\
    (valid_mem m -> valid_mem m') /\
    brk m' = brk m /\ trace m' = trace m /\
    forall p, p <> l -> p <> n -> heap m' !! p = heap m !! p.
Proof. apply l_removeFirst_spec. Qed.

(** X8: [l_removeLast] on a well-formed list that is not empty returns the
    last element, frees its node and leaves the elements before it; the
    node that is last now has a null link and is the list's tail. *)
Theorem l_removeLast_removes_tail m l ns1 n vs1 v :
  is_list m l (ns1 ++ [n]) (vs1 ++ [v]) ->
  exists m',
    l_removeLast l m = Ok (Value v) m' /\
    is_list m' l ns1 vs1 /\
    heap m' !! n = None /\
    (valid_mem m -> valid_mem m') /\
    brk m' = brk m /\ trace m' = trace m /\
    forall p, p <> l -> p ∉ ns1 ++ [n] -> heap m' !! p = heap m !! p.
Proof. apply l_removeLast_spec. Qed.

(** X9: [l_remove] at an index inside a well-formed list returns the
    element there, frees its node and leaves the other elements in their
    order. *)
Theorem l_remove_removes_at m l ns vs index v :
  is_list m l ns vs -> 0 <= index -> vs !! Z.to_nat index = Some v ->
  exists m',
    l_remove l index m = Ok (Value v) m' /\
    is_list m' l (delete (Z.to_nat index) ns) (delete (Z.to_nat index) vs) /\
    (forall old, ns !! Z.to_nat index = Some old -> heap m' !! old = None) /\
    (valid_mem m -> valid_mem m') /\
    brk m' = brk m /\ trace m' = trace m /\
    forall p, p <> l -> p ∉ ns -> heap m' !! p = heap m !! p.
Proof. apply l_remove_spec. Qed.

(** X10: [l_removeAll] frees every node of a well-formed list and leaves
    an empty list with the destructor it had; the elements and everything
    else in memory stay. *)
Theorem l_removeAll_empties m l ns vs fuel :
  is_list m l ns vs -> (length vs < fuel)%nat ->
  exists m' L L',
    l_removeAll fuel l m = Ok tt m' /\
    heap m !! l = Some (OList L) /\
    heap m' !! l = Some (OList L') /\
    LinkedList.destructor L' = LinkedList.destructor L /\
    is_list m' l [] [] /\
    (forall n, n ∈ ns -> heap m' !! n = None) /\
    (forall p, p <> l -> p ∉ ns -> heap m' !! p = heap m !! p) /\
    brk m' = brk m /\ trace m' = trace m.
Proof. apply l_removeAll_spec. Qed.

(** X12: with a destructor of the caller, [l_deleteAll] hands it every
    element once, in the list's order, frees every node and leaves an
    empty list. *)
Theorem l_deleteAll_calls_destructor m l ns vs fuel id L :
  is_list m l ns vs -> (length vs < fuel)%nat ->
  heap m !! l = Some (OList L) -> LinkedList.destructor L = Fextern id ->
  exists m',
    l_deleteAll fuel l m = Ok tt m' /\
    trace m' = trace m ++ (Ecall id <$> vs) /\
    is_list m' l [] [] /\
    (forall n, n ∈ ns -> heap m' !! n = None) /\
    (forall p, p <> l -> p ∉ ns -> heap m' !! p = heap m !! p) /\
    brk m' = brk m.
Proof. apply l_deleteAll_extern. Qed.

(** X19: [l_delete] at an index outside a well-formed list, and
    [l_deleteFirst] and [l_deleteLast] on an empty one, call no destructor
    and change nothing. *)
Theorem l_delete_nothing_to_delete m l ns vs index :
  is_list m l ns vs ->
  (index < 0 \/ Z.of_nat (length vs) <= index -> l_delete l index m = Ok tt m) /\
  (vs = [] -> l_deleteFirst l m = Ok tt m /\ l_deleteLast l m = Ok tt m).
Proof.
  intros Hlist. split.
  - intros Hi. now apply l_delete_out_of_range with ns vs.
  - intros ->. pose proof Hlist as (_ & L & _ & Hc & _).
    apply chain_nil_inv in Hc as [-> _].
    split; [now apply l_deleteFirst_empty|now apply l_deleteLast_empty].
Qed.

(** X21: [l_copy] returns a new list, at the address the allocator hands
    out, with the elements of the original in their order and with its
    destructor; the original and everything else that was in memory are as
    before, and [l_equal] finds the two lists equal. *)
Theorem l_copy_equal_to_original m l ns vs fuel :
  valid_mem m -> is_list m l ns vs -> (length vs < fuel)%nat ->
  exists m' ns' L L',
    l_copy fuel l m = Ok (brk m) m' /\
    is_list m' (brk m) ns' vs /\
    is_list m' l ns vs /\
    heap m !! l = Some (OList L) /\
    heap m' !! brk m = Some (OList L') /\
    LinkedList.destructor L' = LinkedList.destructor L /\
    valid_mem m' /\
    trace m' = trace m /\
    (forall p, p < brk m -> heap m' !! p = heap m !! p) /\
    l_equal fuel (brk m) l m' = Ok true m'.
Proof.
  intros Hv Hlist Hf.
  destruct (l_copy_spec m l ns vs fuel Hv Hlist Hf)
    as (m' & ns' & L & L' & Hrun & Hcopy & Horig & HL & HL' & Hd & Hv' & Ht & Hframe).
  exists m', ns', L, L'. repeat (split; [assumption|]).
  rewrite (l_equal_spec m' (brk m) ns' vs l ns vs fuel Hcopy Horig Hf).
  now rewrite bool_decide_eq_true_2.
Qed.

(** X30: [l_addArray] appends the cells of an array to a well-formed list,
    in their order, and leaves the array and everything else that is no
    part of the list as it was. *)
Theorem l_addArray_appends m l ns vs array cells :
  valid_mem m -> is_list m l ns vs ->
  array <> NULL -> array <> l -> array ∉ ns ->
  heap m !! array = Some (OArray (Some <$> cells)) ->
  Z.of_nat (length vs) + Z.of_nat (length cells) <= INT_MAX ->
  exists m' ns',
    l_addArray l array (Z.of_nat (length cells)) m = Ok tt m' /\
    is_list m' l ns' (vs ++ cells) /\
    valid_mem m' /\
    forall p, p <> l -> p ∉ ns -> p < brk m -> heap m' !! p = heap m !! p.
Proof.
  intros Hv Hlist Ha Hal Han Harr Hlen.
  unfold l_addArray. rewrite Nat2Z.id.
  now apply (l_addArray_loop_spec l array cells [] ns vs m).
Qed.

(** * The operations on the example memories *)

Ltac concrete_not_in :=
  let H := fresh in
  intros H; repeat (apply elem_of_cons in H as [H|H]; [discriminate H|]); inversion H.

Lemma two_blocks_apart :
  forall v, v ∈ blocks [1002; 1004] ->
    is_Some (heap mem_two_blocks !! v) /\ v <> 1000 /\ v ∉ [1001; 1003].
Proof.
  intros v Hv. change (blocks [1002; 1004]) with [1002; 1004] in Hv.
  apply elem_of_cons in Hv as [->|Hv];
    [|apply elem_of_cons in Hv as [->|Hv]; [|inversion Hv]];
    (split; [eexists; vm_compute; reflexivity|split; [discriminate|concrete_not_in]]).
Qed.

Lemma two_lists_apart : forall n, n ∈ [1004; 1005] -> n ∉ [1001; 1002].
Proof.
  intros n Hn.
  apply elem_of_cons in Hn as [->|Hn];
    [|apply elem_of_cons in Hn as [->|Hn]; [|inversion Hn]]; concrete_not_in.
Qed.


Lemma name_of_short :
  forall x, x ∈ [1; 2; 2; 3; 2] -> Z.of_nat (String.length (name_of x)) <= 5.
Proof. intros x _. unfold name_of. destruct (x =? 1); cbn; lia. Qed.

Lemma l_get_returns_element_witness :
  is_list mem_1_2_2_3_2 1000 [1001; 1002; 1003; 1004; 1005] [1; 2; 2; 3; 2] /\
  (l_get 1000 3 mem_1_2_2_3_2 = Ok 3 mem_1_2_2_3_2 /\
    l_getFirst 1000 mem_1_2_2_3_2 = Ok 1 mem_1_2_2_3_2 /\
    l_getLast 1000 mem_1_2_2_3_2 = Ok 2 mem_1_2_2_3_2).
Proof.
  split; [exact is_list_1_2_2_3_2|].
  apply (l_get_returns_element mem_1_2_2_3_2 1000 [1001; 1002; 1003; 1004; 1005]
           [1; 2; 2; 3; 2] 3).
  - exact is_list_1_2_2_3_2.
Defined.

Lemma l_set_spec_witness :
  is_list mem_1_2_2_3_2 1000 [1001; 1002; 1003; 1004; 1005] [1; 2; 2; 3; 2] /\
  0 <= 3 /\
  [1; 2; 2; 3; 2] !! Z.to_nat 3 = Some 3 /\
  (exists m' : mem,
    l_set 1000 9 3 mem_1_2_2_3_2 = Ok 3 m' /\
    is_list m' 1000 [1001; 1002; 1003; 1004; 1005] [1; 2; 2; 9; 2] /\
    brk m' = brk mem_1_2_2_3_2 /\
    trace m' = trace mem_1_2_2_3_2 /\
    forall p : Z,
    p ∉ [1001; 1002; 1003; 1004; 1005] ->
    heap m' !! p = heap mem_1_2_2_3_2 !! p).
Proof.
  split; [exact is_list_1_2_2_3_2|].
  split; [lia|].
  split; [reflexivity|].
  apply (l_set_spec mem_1_2_2_3_2 1000 [1001; 1002; 1003; 1004; 1005]
           [1; 2; 2; 3; 2] 9 3 3).
  - exact is_list_1_2_2_3_2.
  - lia.
  - reflexivity.
Defined.

Lemma l_set_out_of_range_witness :
  is_list mem_1_2_2_3_2 1000 [1001; 1002; 1003; 1004; 1005] [1; 2; 2; 3; 2] /\
  (5 < 0 ∨ Z.of_nat (length [1; 2; 2; 3; 2]) <= 5) /\
  (l_set 1000 9 5 mem_1_2_2_3_2 = Ok NULL mem_1_2_2_3_2).
Proof.
  split; [exact is_list_1_2_2_3_2|].
  split; [right; cbn; lia|].
  apply (l_set_out_of_range mem_1_2_2_3_2 1000 [1001; 1002; 1003; 1004; 1005]
           [1; 2; 2; 3; 2] 9 5).
  - exact is_list_1_2_2_3_2.
  - right; cbn; lia.
Defined.

Lemma l_addFirst_prepends_witness :
  valid_mem mem_1_2_2_3_2 /\
  is_list mem_1_2_2_3_2 1000 [1001; 1002; 1003; 1004; 1005] [1; 2; 2; 3; 2] /\
  Z.of_nat (length [1; 2; 2; 3; 2]) < INT_MAX /\
  (exists m' : mem,
    l_addFirst 1000 9 mem_1_2_2_3_2 = Ok tt m' /\
    is_list m' 1000 [brk mem_1_2_2_3_2; 1001; 1002; 1003; 1004; 1005] [9; 1; 2; 2; 3; 2] /\
    valid_mem m' /\
    brk m' = brk mem_1_2_2_3_2 + 1 /\
    trace m' = trace mem_1_2_2_3_2 /\
    forall p : Z,
    p <> 1000 ->
    p <> brk mem_1_2_2_3_2 -> heap m' !! p = heap mem_1_2_2_3_2 !! p).
Proof.
  split; [exact valid_mem_1_2_2_3_2|].
  split; [exact is_list_1_2_2_3_2|].
  split; [cbn; unfold INT_MAX; lia|].
  apply (l_addFirst_prepends mem_1_2_2_3_2 1000 [1001; 1002; 1003; 1004; 1005]
           [1; 2; 2; 3; 2] 9).
  - exact valid_mem_1_2_2_3_2.
  - exact is_list_1_2_2_3_2.
  - cbn; unfold INT_MAX; lia.
Defined.

Lemma l_addLast_appends_witness :
  valid_mem mem_1_2_2_3_2 /\
  is_list mem_1_2_2_3_2 1000 [1001; 1002; 1003; 1004; 1005] [1; 2; 2; 3; 2] /\
  Z.of_nat (length [1; 2; 2; 3; 2]) < INT_MAX /\
  (exists m' : mem,
    l_addLast 1000 9 mem_1_2_2_3_2 = Ok tt m' /\
    is_list m' 1000 [1001; 1002; 1003; 1004; 1005; brk mem_1_2_2_3_2] [1; 2; 2; 3; 2; 9] /\
    valid_mem m' /\
    brk m' = brk mem_1_2_2_3_2 + 1 /\
    trace m' = trace mem_1_2_2_3_2 /\
    forall p : Z,
    p <> 1000 ->
    p ∉ [1001; 1002; 1003; 1004; 1005] ->
    p <> brk mem_1_2_2_3_2 ->
    heap m' !! p = heap mem_1_2_2_3_2 !! p).
Proof.
  split; [exact valid_mem_1_2_2_3_2|].
  split; [exact is_list_1_2_2_3_2|].
  split; [cbn; unfold INT_MAX; lia|].
  apply (l_addLast_appends mem_1_2_2_3_2 1000 [1001; 1002; 1003; 1004; 1005]
           [1; 2; 2; 3; 2] 9).
  - exact valid_mem_1_2_2_3_2.
  - exact is_list_1_2_2_3_2.
  - cbn; unfold INT_MAX; lia.
Defined.

Lemma l_add_spec_witness :
  valid_mem mem_1_2_2_3_2 /\
  is_list mem_1_2_2_3_2 1000 [1001; 1002; 1003; 1004; 1005] [1; 2; 2; 3; 2] /\
  0 <= 2 <= Z.of_nat (length [1; 2; 2; 3; 2]) /\
  Z.of_nat (length [1; 2; 2; 3; 2]) < INT_MAX /\
  (exists m' : mem,
    l_add 1000 9 2 mem_1_2_2_3_2 = Ok tt m' /\
    is_list m' 1000 [1001; 1002; brk mem_1_2_2_3_2; 1003; 1004; 1005] [1; 2; 9; 2; 3; 2] /\
    valid_mem m' /\
    brk m' = brk mem_1_2_2_3_2 + 1 /\
    trace m' = trace mem_1_2_2_3_2 /\
    forall p : Z,
    p <> 1000 ->
    p ∉ [1001; 1002; 1003; 1004; 1005] ->
    p <> brk mem_1_2_2_3_2 ->
    heap m' !! p = heap mem_1_2_2_3_2 !! p).
Proof.
  split; [exact valid_mem_1_2_2_3_2|].
  split; [exact is_list_1_2_2_3_2|].
  split; [cbn; lia|].
  split; [cbn; unfold INT_MAX; lia|].
  apply (l_add_spec mem_1_2_2_3_2 1000 [1001; 1002; 1003; 1004; 1005] [1; 2; 2; 3; 2] 9 2).
  - exact valid_mem_1_2_2_3_2.
  - exact is_list_1_2_2_3_2.
  - cbn; lia.
  - cbn; unfold INT_MAX; lia.
Defined.

Lemma l_removeFirst_removes_head_witness :
  is_list mem_1_2_2_3_2 1000 [1001; 1002; 1003; 1004; 1005] [1; 2; 2; 3; 2] /\
  (exists m' : mem,
    l_removeFirst 1000 mem_1_2_2_3_2 = Ok (Value 1) m' /\
    is_list m' 1000 [1002; 1003; 1004; 1005] [2; 2; 3; 2] /\
    heap m' !! 1001 = None /\
    (valid_mem mem_1_2_2_3_2 -> valid_mem m') /\
    brk m' = brk mem_1_2_2_3_2 /\
    trace m' = trace mem_1_2_2_3_2 /\
    forall p : Z,
    p <> 1000 -> p <> 1001 -> heap m' !! p = heap mem_1_2_2_3_2 !! p).
Proof.
  split; [exact is_list_1_2_2_3_2|].
  apply (l_removeFirst_removes_head mem_1_2_2_3_2 1000 1001 [1002; 1003; 1004; 1005] 1
           [2; 2; 3; 2]).
  - exact is_list_1_2_2_3_2.
Defined.

Lemma l_removeLast_removes_tail_witness :
  is_list mem_1_2_2_3_2 1000 ([1001; 1002; 1003; 1004] ++ [1005]) ([1; 2; 2; 3] ++ [2]) /\
  (exists m' : mem,
    l_removeLast 1000 mem_1_2_2_3_2 = Ok (Value 2) m' /\
    is_list m' 1000 [1001; 1002; 1003; 1004] [1; 2; 2; 3] /\
    heap m' !! 1005 = None /\
    (valid_mem mem_1_2_2_3_2 -> valid_mem m') /\
    brk m' = brk mem_1_2_2_3_2 /\
    trace m' = trace mem_1_2_2_3_2 /\
    forall p : Z,
    p <> 1000 ->
    p ∉ [1001; 1002; 1003; 1004] ++ [1005] ->
    heap m' !! p = heap mem_1_2_2_3_2 !! p).
Proof.
  split; [exact is_list_1_2_2_3_2|].
  apply (l_removeLast_removes_tail mem_1_2_2_3_2 1000 [1001; 1002; 1003; 1004] 1005
           [1; 2; 2; 3] 2).
  - exact is_list_1_2_2_3_2.
Defined.

Lemma l_remove_removes_at_witness :
  is_list mem_1_2_2_3_2 1000 [1001; 1002; 1003; 1004; 1005] [1; 2; 2; 3; 2] /\
  0 <= 3 /\
  [1; 2; 2; 3; 2] !! Z.to_nat 3 = Some 3 /\
  (exists m' : mem,
    l_remove 1000 3 mem_1_2_2_3_2 = Ok (Value 3) m' /\
    is_list m' 1000 [1001; 1002; 1003; 1005] [1; 2; 2; 2] /\
    (forall old : Z,
      [1001; 1002; 1003; 1004; 1005] !! Z.to_nat 3 = Some old ->
      heap m' !! old = None) /\
    (valid_mem mem_1_2_2_3_2 -> valid_mem m') /\
    brk m' = brk mem_1_2_2_3_2 /\
    trace m' = trace mem_1_2_2_3_2 /\
    forall p : Z,
    p <> 1000 ->
    p ∉ [1001; 1002; 1003; 1004; 1005] ->
    heap m' !! p = heap mem_1_2_2_3_2 !! p).
Proof.
  split; [exact is_list_1_2_2_3_2|].
  split; [lia|].
  split; [reflexivity|].
  apply (l_remove_removes_at mem_1_2_2_3_2 1000 [1001; 1002; 1003; 1004; 1005]
           [1; 2; 2; 3; 2] 3 3).
  - exact is_list_1_2_2_3_2.
  - lia.
  - reflexivity.
Defined.

Lemma l_removeAll_empties_witness :
  is_list mem_1_2_2_3_2 1000 [1001; 1002; 1003; 1004; 1005] [1; 2; 2; 3; 2] /\
  (length [1; 2; 2; 3; 2]%Z < 6)%nat /\
  (exists (m' : mem) (L L' : LinkedList.t),
    l_removeAll 6 1000 mem_1_2_2_3_2 = Ok tt m' /\
    heap mem_1_2_2_3_2 !! 1000 = Some (OList L) /\
    heap m' !! 1000 = Some (OList L') /\
    LinkedList.destructor L' = LinkedList.destructor L /\
    is_list m' 1000 [] [] /\
    (forall n : Z, n ∈ [1001; 1002; 1003; 1004; 1005] -> heap m' !! n = None) /\
    (forall p : Z,
      p <> 1000 ->
      p ∉ [1001; 1002; 1003; 1004; 1005] ->
      heap m' !! p = heap mem_1_2_2_3_2 !! p) /\
    brk m' = brk mem_1_2_2_3_2 /\ trace m' = trace mem_1_2_2_3_2).
Proof.
  split; [exact is_list_1_2_2_3_2|].
  split; [cbn; lia|].
  apply (l_removeAll_empties mem_1_2_2_3_2 1000 [1001; 1002; 1003; 1004; 1005]
           [1; 2; 2; 3; 2] 6).
  - exact is_list_1_2_2_3_2.
  - cbn; lia.
Defined.

Lemma l_clear_spec_witness :
  is_list mem_1_2_2_3_2 1000 [1001; 1002; 1003; 1004; 1005] [1; 2; 2; 3; 2] /\
  (length [1; 2; 2; 3; 2]%Z < 6)%nat /\
  (exists m' : mem,
    l_clear 6 1000 mem_1_2_2_3_2 = Ok tt m' /\
    heap m' !! 1000 = None /\
    (forall n : Z, n ∈ [1001; 1002; 1003; 1004; 1005] -> heap m' !! n = None) /\
    (forall p : Z,
      p <> 1000 ->
      p ∉ [1001; 1002; 1003; 1004; 1005] ->
      heap m' !! p = heap mem_1_2_2_3_2 !! p) /\
    brk m' = brk mem_1_2_2_3_2 /\ trace m' = trace mem_1_2_2_3_2).
Proof.
  split; [exact is_list_1_2_2_3_2|].
  split; [cbn; lia|].
  apply (l_clear_spec mem_1_2_2_3_2 1000 [1001; 1002; 1003; 1004; 1005] [1; 2; 2; 3; 2] 6).
  - exact is_list_1_2_2_3_2.
  - cbn; lia.
Defined.

Lemma l_deleteAll_calls_destructor_witness :
  is_list mem_5_6_7_extern 1000 [1001; 1002; 1003] [5; 6; 7] /\
  (length [5; 6; 7]%Z < 4)%nat /\
  heap mem_5_6_7_extern !! 1000 = Some (OList (LinkedList.mk 1001 1003 (Fextern 7) 3)) /\
  LinkedList.destructor (LinkedList.mk 1001 1003 (Fextern 7) 3) = Fextern 7 /\
  (exists m' : mem,
    l_deleteAll 4 1000 mem_5_6_7_extern = Ok tt m' /\
    trace m' = trace mem_5_6_7_extern ++ [Ecall 7 5; Ecall 7 6; Ecall 7 7] /\
    is_list m' 1000 [] [] /\
    (forall n : Z, n ∈ [1001; 1002; 1003] -> heap m' !! n = None) /\
    (forall p : Z,
      p <> 1000 ->
      p ∉ [1001; 1002; 1003] ->
      heap m' !! p = heap mem_5_6_7_extern !! p) /\
    brk m' = brk mem_5_6_7_extern).
Proof.
  split; [exact is_list_5_6_7_extern|].
  split; [cbn; lia|].
  split; [vm_compute; reflexivity|].
  split; [reflexivity|].
  apply (l_deleteAll_calls_destructor mem_5_6_7_extern 1000 [1001; 1002; 1003]
           [5; 6; 7] 4 7 (LinkedList.mk 1001 1003 (Fextern 7) 3)).
  - exact is_list_5_6_7_extern.
  - cbn; lia.
  - vm_compute; reflexivity.
  - reflexivity.
Defined.

Lemma l_deleteAll_default_witness :
  is_list mem_two_blocks 1000 [1001; 1003] [1002; 1004] /\
  (length [1002; 1004]%Z < 3)%nat /\
  heap mem_two_blocks !! 1000 = Some (OList (LinkedList.mk 1001 1003 Fdestructor 2)) /\
  LinkedList.destructor (LinkedList.mk 1001 1003 Fdestructor 2) = Fdestructor /\
  NoDup (blocks [1002; 1004]) /\
  (forall v : Z,
      v ∈ blocks [1002; 1004] ->
      is_Some (heap mem_two_blocks !! v) /\ v <> 1000 /\ v ∉ [1001; 1003]) /\
  (exists m' : mem,
    l_deleteAll 3 1000 mem_two_blocks = Ok tt m' /\
    is_list m' 1000 [] [] /\
    (forall v : Z, v ∈ blocks [1002; 1004] -> heap m' !! v = None) /\
    (forall n : Z, n ∈ [1001; 1003] -> heap m' !! n = None) /\
    (forall p : Z,
      p <> 1000 ->
      p ∉ [1001; 1003] ->
      p ∉ blocks [1002; 1004] ->
      heap m' !! p = heap mem_two_blocks !! p) /\
    brk m' = brk mem_two_blocks /\
    trace m' = trace mem_two_blocks).
Proof.
  split; [exact is_list_two_blocks|].
  split; [cbn; lia|].
  split; [vm_compute; reflexivity|].
  split; [reflexivity|].
  split; [apply (bool_decide_unpack _); vm_compute; exact I|].
  split; [exact two_blocks_apart|].
  apply (l_deleteAll_default mem_two_blocks 1000 [1001; 1003]
           [1002; 1004] 3 (LinkedList.mk 1001 1003 Fdestructor 2)).
  - exact is_list_two_blocks.
  - cbn; lia.
  - vm_compute; reflexivity.
  - reflexivity.
  - apply (bool_decide_unpack _); vm_compute; exact I.
  - exact two_blocks_apart.
Defined.

Lemma l_destroy_extern_witness :
  is_list mem_5_6_7_extern 1000 [1001; 1002; 1003] [5; 6; 7] /\
  (length [5; 6; 7]%Z < 4)%nat /\
  heap mem_5_6_7_extern !! 1000 = Some (OList (LinkedList.mk 1001 1003 (Fextern 7) 3)) /\
  LinkedList.destructor (LinkedList.mk 1001 1003 (Fextern 7) 3) = Fextern 7 /\
  (exists m' : mem,
    l_destroy 4 1000 mem_5_6_7_extern = Ok tt m' /\
    trace m' = trace mem_5_6_7_extern ++ [Ecall 7 5; Ecall 7 6; Ecall 7 7] /\
    heap m' !! 1000 = None /\
    (forall n : Z, n ∈ [1001; 1002; 1003] -> heap m' !! n = None) /\
    (forall p : Z,
      p <> 1000 ->
      p ∉ [1001; 1002; 1003] ->
      heap m' !! p = heap mem_5_6_7_extern !! p) /\
    brk m' = brk mem_5_6_7_extern).
Proof.
  split; [exact is_list_5_6_7_extern|].
  split; [cbn; lia|].
  split; [vm_compute; reflexivity|].
  split; [reflexivity|].
  apply (l_destroy_extern mem_5_6_7_extern 1000 [1001; 1002; 1003]
           [5; 6; 7] 4 7 (LinkedList.mk 1001 1003 (Fextern 7) 3)).
  - exact is_list_5_6_7_extern.
  - cbn; lia.
  - vm_compute; reflexivity.
  - reflexivity.
Defined.

Lemma l_delete_extern_witness :
  is_list mem_5_6_7_extern 1000 [1001; 1002; 1003] [5; 6; 7] /\
  0 <= 1 /\
  [5; 6; 7] !! Z.to_nat 1 = Some 6 /\
  heap mem_5_6_7_extern !! 1000 = Some (OList (LinkedList.mk 1001 1003 (Fextern 7) 3)) /\
  LinkedList.destructor (LinkedList.mk 1001 1003 (Fextern 7) 3) = Fextern 7 /\
  (exists m' : mem,
    l_delete 1000 1 mem_5_6_7_extern = Ok tt m' /\
    is_list m' 1000 [1001; 1003] [5; 7] /\
    trace m' = trace mem_5_6_7_extern ++ [Ecall 7 6] /\
    (forall old : Z,
      [1001; 1002; 1003] !! Z.to_nat 1 = Some old ->
      heap m' !! old = None) /\
    brk m' = brk mem_5_6_7_extern /\
    forall p : Z,
    p <> 1000 ->
    p ∉ [1001; 1002; 1003] ->
    heap m' !! p = heap mem_5_6_7_extern !! p).
Proof.
  split; [exact is_list_5_6_7_extern|].
  split; [lia|].
  split; [reflexivity|].
  split; [vm_compute; reflexivity|].
  split; [reflexivity|].
  apply (l_delete_extern mem_5_6_7_extern 1000 [1001; 1002; 1003]
           [5; 6; 7] 1 6 7 (LinkedList.mk 1001 1003 (Fextern 7) 3)).
  - exact is_list_5_6_7_extern.
  - lia.
  - reflexivity.
  - vm_compute; reflexivity.
  - reflexivity.
Defined.

Lemma l_delete_default_witness :
  is_list mem_two_blocks 1000 [1001; 1003] [1002; 1004] /\
  0 <= 1 /\
  [1002; 1004] !! Z.to_nat 1 = Some 1004 /\
  heap mem_two_blocks !! 1000 = Some (OList (LinkedList.mk 1001 1003 Fdestructor 2)) /\
  LinkedList.destructor (LinkedList.mk 1001 1003 Fdestructor 2) = Fdestructor /\
  1004 <> NULL /\
  heap mem_two_blocks !! 1004 = Some OBlock /\
  1004 <> 1000 /\
  (1004 ∉ [1001; 1003]) /\
  (exists m' : mem,
    l_delete 1000 1 mem_two_blocks = Ok tt m' /\
    is_list m' 1000 [1001] [1002] /\
    heap m' !! 1004 = None /\
    (forall old : Z,
      [1001; 1003] !! Z.to_nat 1 = Some old ->
      heap m' !! old = None) /\
    brk m' = brk mem_two_blocks /\
    trace m' = trace mem_two_blocks /\
    forall p : Z,
    p <> 1000 ->
    p ∉ [1001; 1003] ->
    p <> 1004 ->
    heap m' !! p = heap mem_two_blocks !! p).
Proof.
  split; [exact is_list_two_blocks|].
  split; [lia|].
  split; [reflexivity|].
  split; [vm_compute; reflexivity|].
  split; [reflexivity|].
  split; [discriminate|].
  split; [vm_compute; reflexivity|].
  split; [discriminate|].
  split; [concrete_not_in|].
  apply (l_delete_default mem_two_blocks 1000 [1001; 1003]
           [1002; 1004] 1 1004 OBlock (LinkedList.mk 1001 1003 Fdestructor 2)).
  - exact is_list_two_blocks.
  - lia.
  - reflexivity.
  - vm_compute; reflexivity.
  - reflexivity.
  - discriminate.
  - vm_compute; reflexivity.
  - discriminate.
  - concrete_not_in.
Defined.

Lemma l_deleteFirst_extern_witness :
  is_list mem_5_6_7_extern 1000 [1001; 1002; 1003] [5; 6; 7] /\
  heap mem_5_6_7_extern !! 1000 = Some (OList (LinkedList.mk 1001 1003 (Fextern 7) 3)) /\
  LinkedList.destructor (LinkedList.mk 1001 1003 (Fextern 7) 3) = Fextern 7 /\
  (exists m' : mem,
    l_deleteFirst 1000 mem_5_6_7_extern = Ok tt m' /\
    is_list m' 1000 [1002; 1003] [6; 7] /\
    trace m' = trace mem_5_6_7_extern ++ [Ecall 7 5] /\
    heap m' !! 1001 = None /\
    brk m' = brk mem_5_6_7_extern /\
    forall p : Z,
    p <> 1000 -> p <> 1001 -> heap m' !! p = heap mem_5_6_7_extern !! p).
Proof.
  split; [exact is_list_5_6_7_extern|].
  split; [vm_compute; reflexivity|].
  split; [reflexivity|].
  apply (l_deleteFirst_extern mem_5_6_7_extern 1000 1001 [1002; 1003] 5
           [6; 7] 7 (LinkedList.mk 1001 1003 (Fextern 7) 3)).
  - exact is_list_5_6_7_extern.
  - vm_compute; reflexivity.
  - reflexivity.
Defined.

Lemma l_deleteLast_extern_witness :
  is_list mem_5_6_7_extern 1000 ([1001; 1002] ++ [1003]) ([5; 6] ++ [7]) /\
  heap mem_5_6_7_extern !! 1000 = Some (OList (LinkedList.mk 1001 1003 (Fextern 7) 3)) /\
  LinkedList.destructor (LinkedList.mk 1001 1003 (Fextern 7) 3) = Fextern 7 /\
  (exists m' : mem,
    l_deleteLast 1000 mem_5_6_7_extern = Ok tt m' /\
    is_list m' 1000 [1001; 1002] [5; 6] /\
    trace m' = trace mem_5_6_7_extern ++ [Ecall 7 7] /\
    heap m' !! 1003 = None /\
    brk m' = brk mem_5_6_7_extern /\
    forall p : Z,
    p <> 1000 ->
    p ∉ [1001; 1002] ++ [1003] ->
    heap m' !! p = heap mem_5_6_7_extern !! p).
Proof.
  split; [exact is_list_5_6_7_extern|].
  split; [vm_compute; reflexivity|].
  split; [reflexivity|].
  apply (l_deleteLast_extern mem_5_6_7_extern 1000 [1001; 1002] 1003
           [5; 6] 7 7 (LinkedList.mk 1001 1003 (Fextern 7) 3)).
  - exact is_list_5_6_7_extern.
  - vm_compute; reflexivity.
  - reflexivity.
Defined.


Lemma l_copy_equal_to_original_witness :
  valid_mem mem_1_2_2_3_2 /\
  is_list mem_1_2_2_3_2 1000 [1001; 1002; 1003; 1004; 1005] [1; 2; 2; 3; 2] /\
  (length [1; 2; 2; 3; 2]%Z < 6)%nat /\
  (exists (m' : mem) (ns' : list Z) (L L' : LinkedList.t),
    l_copy 6 1000 mem_1_2_2_3_2 = Ok (brk mem_1_2_2_3_2) m' /\
    is_list m' (brk mem_1_2_2_3_2) ns' [1; 2; 2; 3; 2] /\
    is_list m' 1000 [1001; 1002; 1003; 1004; 1005] [1; 2; 2; 3; 2] /\
    heap mem_1_2_2_3_2 !! 1000 = Some (OList L) /\
    heap m' !! brk mem_1_2_2_3_2 = Some (OList L') /\
    LinkedList.destructor L' = LinkedList.destructor L /\
    valid_mem m' /\
    trace m' = trace mem_1_2_2_3_2 /\
    (forall p : Z,
      p < brk mem_1_2_2_3_2 ->
      heap m' !! p = heap mem_1_2_2_3_2 !! p) /\
    l_equal 6 (brk mem_1_2_2_3_2) 1000 m' = Ok true m').
Proof.
  split; [exact valid_mem_1_2_2_3_2|].
  split; [exact is_list_1_2_2_3_2|].
  split; [cbn; lia|].
  apply (l_copy_equal_to_original mem_1_2_2_3_2 1000 [1001; 1002; 1003; 1004; 1005]
           [1; 2; 2; 3; 2] 6).
  - exact valid_mem_1_2_2_3_2.
  - exact is_list_1_2_2_3_2.
  - cbn; lia.
Defined.

Lemma l_addAll_spec_witness :
  valid_mem mem_two_lists /\
  is_list mem_two_lists 1000 [1001; 1002] [1; 2] /\
  is_list mem_two_lists 1003 [1004; 1005] [3; 4] /\
  1003 <> 1000 /\
  (forall n : Z, n ∈ [1004; 1005] -> n ∉ [1001; 1002]) /\
  Z.of_nat (length [1; 2]) + Z.of_nat (length [3; 4]) <= INT_MAX /\
  (length [3; 4]%Z < 3)%nat /\
  (exists (m' : mem) (nsd' : list Z),
    l_addAll 3 1000 1003 mem_two_lists = Ok tt m' /\
    is_list m' 1000 nsd' [1; 2; 3; 4] /\
    is_list m' 1003 [1004; 1005] [3; 4] /\
    valid_mem m' /\
    trace m' = trace mem_two_lists /\
    forall p : Z,
    p <> 1000 ->
    p ∉ [1001; 1002] ->
    p < brk mem_two_lists ->
    heap m' !! p = heap mem_two_lists !! p).
Proof.
  split; [exact valid_mem_two_lists|].
  split; [exact is_list_two_lists_1|].
  split; [exact is_list_two_lists_2|].
  split; [discriminate|].
  split; [exact two_lists_apart|].
  split; [cbn; unfold INT_MAX; lia|].
  split; [cbn; lia|].
  apply (l_addAll_spec mem_two_lists 1000 [1001; 1002] [1; 2] 1003 [1004; 1005] [3; 4] 3).
  - exact valid_mem_two_lists.
  - exact is_list_two_lists_1.
  - exact is_list_two_lists_2.
  - discriminate.
  - exact two_lists_apart.
  - cbn; unfold INT_MAX; lia.
  - cbn; lia.
Defined.



Lemma l_dmap_extern_witness :
  is_list mem_5_6_7_extern 1000 [1001; 1002; 1003] [5; 6; 7] /\
  (length [5; 6; 7]%Z < 4)%nat /\
  heap mem_5_6_7_extern !! 1000 = Some (OList (LinkedList.mk 1001 1003 (Fextern 7) 3)) /\
  LinkedList.destructor (LinkedList.mk 1001 1003 (Fextern 7) 3) = Fextern 7 /\
  (exists m' : mem,
    l_dmap 4 1000 shift mem_5_6_7_extern = Ok tt m' /\
    is_list m' 1000 [1001; 1002; 1003] [15; 16; 17] /\
    trace m' = trace mem_5_6_7_extern ++ [Ecall 7 5; Ecall 7 6; Ecall 7 7] /\
    (forall p : Z,
      p ∉ [1001; 1002; 1003] ->
      heap m' !! p = heap mem_5_6_7_extern !! p) /\
    brk m' = brk mem_5_6_7_extern).
Proof.
  split; [exact is_list_5_6_7_extern|].
  split; [cbn; lia|].
  split; [vm_compute; reflexivity|].
  split; [reflexivity|].
  apply (l_dmap_extern mem_5_6_7_extern 1000 [1001; 1002; 1003]
           [5; 6; 7] 4 shift 7 (LinkedList.mk 1001 1003 (Fextern 7) 3)).
  - exact is_list_5_6_7_extern.
  - cbn; lia.
  - vm_compute; reflexivity.
  - reflexivity.
Defined.

Lemma l_toString_empty_witness :
  is_list mem_empty_list 1000 [] [] /\
  (l_toString 3 1000 name_of 5 mem_empty_list = UB).
Proof.
  split; [exact is_list_empty_list|].
  apply (l_toString_empty mem_empty_list 1000 3 name_of 5).
  - exact is_list_empty_list.
Defined.

Lemma l_toString_spec_witness :
  valid_mem mem_1_2_2_3_2 /\
  is_list mem_1_2_2_3_2 1000 [1001; 1002; 1003; 1004; 1005] [1; 2; 2; 3; 2] /\
  [1; 2; 2; 3; 2] <> [] /\
  (forall x : Z, x ∈ [1; 2; 2; 3; 2] -> Z.of_nat (String.length (name_of x)) <= 5) /\
  Z.of_nat (length [1; 2; 2; 3; 2]) * (5 + 2) + 1 <= INT_MAX /\
  (length [1; 2; 2; 3; 2]%Z < 6)%nat /\
  l_toString 6 1000 name_of 5 mem_1_2_2_3_2
  = Ok (brk mem_1_2_2_3_2, "[one, other, other, other, other]")
       (Mem (<[brk mem_1_2_2_3_2 := OBlock]> (heap mem_1_2_2_3_2))
            (brk mem_1_2_2_3_2 + 1 + Z.of_nat (length [1; 2; 2; 3; 2]))
            (trace mem_1_2_2_3_2)).
Proof.
  split; [exact valid_mem_1_2_2_3_2|].
  split; [exact is_list_1_2_2_3_2|].
  split; [discriminate|].
  split; [exact name_of_short|].
  split; [cbn; unfold INT_MAX; lia|].
  split; [cbn; lia|].
  apply (l_toString_spec mem_1_2_2_3_2 1000 [1001; 1002; 1003; 1004; 1005]
           [1; 2; 2; 3; 2] 6 name_of 5).
  - exact valid_mem_1_2_2_3_2.
  - exact is_list_1_2_2_3_2.
  - discriminate.
  - exact name_of_short.
  - cbn; unfold INT_MAX; lia.
  - cbn; lia.
Defined.


Lemma l_addArray_appends_witness :
  valid_mem mem_list_and_array /\
  is_list mem_list_and_array 1000 [1001; 1002] [1; 2] /\
  1003 <> NULL /\
  1003 <> 1000 /\
  (1003 ∉ [1001; 1002]) /\
  heap mem_list_and_array !! 1003 = Some (OArray (Some <$> [8; 9])) /\
  Z.of_nat (length [1; 2]) + Z.of_nat (length [8; 9]) <= INT_MAX /\
  (exists (m' : mem) (ns' : list Z),
    l_addArray 1000 1003 (Z.of_nat (length [8; 9])) mem_list_and_array = Ok tt m' /\
    is_list m' 1000 ns' [1; 2; 8; 9] /\
    valid_mem m' /\
    forall p : Z,
    p <> 1000 ->
    p ∉ [1001; 1002] ->
    p < brk mem_list_and_array ->
    heap m' !! p = heap mem_list_and_array !! p).
Proof.
  split; [exact valid_mem_list_and_array|].
  split; [exact is_list_list_and_array|].
  split; [discriminate|].
  split; [discriminate|].
  split; [concrete_not_in|].
  split; [vm_compute; reflexivity|].
  split; [cbn; unfold INT_MAX; lia|].
  apply (l_addArray_appends mem_list_and_array 1000 [1001; 1002] [1; 2] 1003 [8; 9]).
  - exact valid_mem_list_and_array.
  - exact is_list_list_and_array.
  - discriminate.
  - discriminate.
  - concrete_not_in.
  - vm_compute; reflexivity.
  - cbn; unfold INT_MAX; lia.
Defined.

Lemma l_delete_nothing_to_delete_witness :
  is_list mem_empty_list 1000 [] [] /\
  l_delete 1000 0 mem_empty_list = Ok tt mem_empty_list /\
  l_deleteFirst 1000 mem_empty_list = Ok tt mem_empty_list /\
  l_deleteLast 1000 mem_empty_list = Ok tt mem_empty_list.
Proof.
  split; [exact is_list_empty_list|].
  destruct (l_delete_nothing_to_delete mem_empty_list 1000 [] [] 0 is_list_empty_list)
    as [Hout Hempty].
  split; [apply Hout; right; cbn; lia|].
  exact (Hempty eq_refl).
Defined.

Lemma l_addAll_self_never_returns_witness :
  valid_mem mem_1_2 /\
  is_list mem_1_2 1000 [1001; 1002] [1; 2] /\
  (2 <= length [1; 2]%Z)%nat /\
  forall fuel m', l_addAll fuel 1000 1000 mem_1_2 <> Ok tt m'.
Proof.
  split; [exact valid_mem_1_2|].
  split; [exact is_list_1_2|].
  split; [cbn; lia|].
  intros fuel m'.
  apply (l_addAll_self_never_returns mem_1_2 1000 [1001; 1002] [1; 2] fuel m').
  - exact valid_mem_1_2.
  - exact is_list_1_2.
  - cbn; lia.
Defined.


